(** * Particle demos: pool, integrator, projector, compositor and batch builder

    A shallow embedding of the Go particle demos (ebiten) and the
    verification of their specification.  Every demo is a [package main]
    of its own; each one is embedded in a module of its own, named after
    the demo.  Go's [float64] is the kernel's binary64 [float]; Go's [int]
    is a 64-bit integer carried by [Z] with its wrap-around written out;
    a [[]*Particle] slice is a list, and a [*Particle] obtained from it is
    the index of its slot (the pointers stored in a pool are pairwise
    distinct: each comes from its own allocation). *)

From Stdlib Require Import ZArith Floats Lia Bool Permutation Sorted.
From Stdlib Require Uint63.
From stdpp Require Import base list.

Set Warnings "-inexact-float".
Open Scope Z_scope.

(** ** Go's numeric types *)

(** [int] is 64 bits wide on every platform ebiten runs the demos on. *)
Definition int_wrap (z : Z) : Z := (z + 2 ^ 63) mod 2 ^ 64 - 2 ^ 63.

(** [i++] and [i += k] on an [int]. *)
Definition int_add (a b : Z) : Z := int_wrap (a + b).

(** [i--] on an [int]. *)
Definition int_sub (a b : Z) : Z := int_wrap (a - b).

(** The conversion [uint16(n)] of an [int], and [uint16] addition. *)
Definition uint16 (z : Z) : Z := z mod 65536.

Definition uint16_add (a b : Z) : Z := uint16 (a + b).

(** The conversion [uint8(n)] of an [int]. *)
Definition uint8 (z : Z) : Z := z mod 256.

(** The conversion [float64(n)] of an [int]: the nearest binary64 value. *)
Definition float64_of_int (z : Z) : float :=
  if z =? - 2 ^ 63 then (- 0x1p63)%float
  else if z <? 0 then (- of_uint63 (Uint63Axioms.of_Z (- z)))%float
  else of_uint63 (Uint63Axioms.of_Z z).

(** The conversion [int(f)] of a [float64]: the fraction is dropped.  Go
    leaves the result open when the value does not fit an [int]; it is
    wrapped here, and [0] is taken for an infinity or a NaN. *)
Definition int_of_float64 (f : float) : Z :=
  match Prim2SF f with
  | S754_finite s m e =>
      let v := if 0 <=? e then Z.pos m * 2 ^ e else Z.pos m / 2 ^ (- e) in
      int_wrap (if s then - v else v)
  | _ => 0
  end.

(** [math.Abs] clears the sign; [math.Sqrt] is the correctly rounded root. *)
Definition Abs (f : float) : float := PrimFloat.abs f.

Definition Sqrt (f : float) : float := PrimFloat.sqrt f.

(** [math.Min], with the special cases its documentation lists. *)
Definition Min (a b : float) : float :=
  if (is_infinity a && get_sign a) || (is_infinity b && get_sign b)
  then neg_infinity
  else if is_nan a || is_nan b then nan
  else if (a =? 0)%float && (a =? b)%float then (if get_sign a then a else b)
  else if (a <? b)%float then a else b.

(** [math.Max], with the special cases its documentation lists. *)
Definition Max (a b : float) : float :=
  if (is_infinity a && negb (get_sign a)) || (is_infinity b && negb (get_sign b))
  then infinity
  else if is_nan a || is_nan b then nan
  else if (a =? 0)%float && (a =? b)%float then (if get_sign a then b else a)
  else if (b <? a)%float then a else b.

(** [math.Pi], and the constant expressions [math.Pi/2.0] and the like,
    which Go folds exactly before rounding them to binary64. *)
Definition Pi : float := 0x1.921fb54442d18p+1%float.

Definition Pi_2 : float := 0x1.921fb54442d18p+0%float.

(** ** The libraries the demos call *)

(** [math.Sin], [math.Cos], [math.Pow] and [math.Cbrt]. *)
Class MathLib := {
  Sin : float → float;
  Cos : float → float;
  Pow : float → float → float;
  Cbrt : float → float
}.

(** [sort.Slice], on the elements rather than on their indices.  Its
    documentation promises a sorted permutation when [less] is a transitive
    ordering (no element sorts before itself; if [less a b] and [less b c]
    then [less a c]; if neither [less a b] nor [less b c] then not
    [less a c]), and no more: "the sort is not guaranteed to be stable". *)
Definition transitiveOrdering {T} (less : T → T → bool) (l : list T) : Prop :=
  (∀ a, a ∈ l → less a a = false)
  ∧ (∀ a b c, a ∈ l → b ∈ l → c ∈ l →
       less a b = true → less b c = true → less a c = true)
  ∧ (∀ a b c, a ∈ l → b ∈ l → c ∈ l →
       less a b = false → less b c = false → less a c = false).

Class SortLib := {
  sortSlice : ∀ {T}, (T → T → bool) → list T → list T;
  sortSlice_perm : ∀ T (less : T → T → bool) l, sortSlice less l ≡ₚ l;
  sortSlice_sorted : ∀ T (less : T → T → bool) l,
    transitiveOrdering less l →
    ∀ i j a b, sortSlice less l !! i = Some a → sortSlice less l !! j = Some b →
               (i < j)%nat → less b a = false
}.

(** The conversion [float32(x)]: binary64 to the nearest binary32 value,
    carried by the binary64 value equal to it.  A binary32 operation is the
    binary64 one followed by this rounding. *)
Class Float32 := { f32 : float → float }.

Definition f32_mul `{Float32} (a b : float) : float := f32 (a * b).

Definition f32_div `{Float32} (a b : float) : float := f32 (a / b).

(** [math/rand]: the global source, threaded explicitly.  [Float64] draws
    from the half-open unit interval, [Intn n] from [0, n). *)
Class Rand := {
  rng : Type;
  Float64 : rng → float * rng;
  Intn : Z → rng → Z * rng;
  Intn_range : ∀ n r, 0 < n → 0 ≤ (Intn n r).1 < n
}.

(** Computations that draw random numbers. *)
Definition Gen `{Rand} (A : Type) : Type := rng → A * rng.

Definition gret `{Rand} {A} (a : A) : Gen A := λ r, (a, r).

Definition gbind `{Rand} {A B} (m : Gen A) (k : A → Gen B) : Gen B :=
  λ r, let '(a, r') := m r in k a r'.

Notation "x <- m ;; k" := (gbind m (λ x, k))
  (at level 100, m at next level, right associativity, only parsing).

(** [ebiten.GeoM]: an affine transformation of the plane. *)
Class GeoMLib := {
  GeoM : Type;
  geoZero : GeoM;
  geoTranslate : GeoM → float → float → GeoM;
  geoRotate : GeoM → float → GeoM;
  geoScale : GeoM → float → float → GeoM;
  geoApply : GeoM → float → float → float * float
}.

(** [ebiten.Vertex]; the fields are [float32]. *)
Record Vertex := mkVertex {
  DstX : float; DstY : float;
  SrcX : float; SrcY : float;
  ColorR : float; ColorG : float; ColorB : float; ColorA : float
}.

(** [color.RGBA]; the fields are [uint8]. *)
Module color.
Record RGBA := mkRGBA { R : Z; G : Z; B : Z; A : Z }.
End color.

(** ** What the demos share *)

(** Every pooled demo has the same linear scan for a free slot:
    [for _, p := range g.particles { if !p.active { return p } }; return nil]. *)
Definition firstInactive {P} (isActive : P → bool) (ps : list P) : option nat :=
  fst <$> list_find (λ p, isActive p = false) ps.

(** The number of slots in use. *)
Definition activeCount {P} (isActive : P → bool) (ps : list P) : nat :=
  length (List.filter isActive ps).

(** The six indices of a quad:
    [append(indices, vIndex, vIndex+1, vIndex+2, vIndex+1, vIndex+3, vIndex+2)]. *)
Definition quadIndices (vIndex : Z) : list Z :=
  [vIndex; uint16_add vIndex 1; uint16_add vIndex 2;
   uint16_add vIndex 1; uint16_add vIndex 3; uint16_add vIndex 2].

(** One blend group's buffers while a frame is built: the vertex and index
    slices and the running vertex count ([fireVertexCount] and the like). *)
Record Batch := mkBatch {
  bVertices : list Vertex;
  bIndices : list Z;
  bCount : Z
}.

(** The buffers after [buf = buf[:0]], the count at [0]. *)
Definition emptyBatch : Batch := mkBatch [] [] 0.

(** [vIndex := uint16(count); count += 4], then the four vertices and the
    six indices appended. *)
Definition pushQuad (b : Batch) (quad : list Vertex) : Batch :=
  {| bVertices := b.(bVertices) ++ quad;
     bIndices := b.(bIndices) ++ quadIndices (uint16 b.(bCount));
     bCount := int_add b.(bCount) 4 |}.

(** The four corners of the texture quad, as the [corners] literal lists
    them: [dx, dy, sx, sy]. *)
Definition corners (w h : float) : list (float * float * float * float) :=
  [(0, 0, 0, 0); (0, h, 0, h); (w, 0, w, 0); (w, h, w, h)]%float.

(** The body of [for _, c := range corners]: one vertex per corner, tinted. *)
Definition cornerVertex `{Float32} `{GeoMLib} (geo : GeoM) (cr cg cb ca : float)
    (c : float * float * float * float) : Vertex :=
  let '(dx, dy, sx, sy) := c in
  let '(vx, vy) := geoApply geo dx dy in
  {| DstX := f32 vx; DstY := f32 vy; SrcX := f32 sx; SrcY := f32 sy;
     ColorR := cr; ColorG := cg; ColorB := cb; ColorA := ca |}.

(** The transform every batch builder composes: pivot at the centre,
    rotate, scale, move to the particle. *)
Definition quadGeoM `{GeoMLib} (halfW halfH angle scale px py : float) : GeoM :=
  geoTranslate (geoScale (geoRotate (geoTranslate geoZero (- halfW) (- halfH)) angle)
                         scale scale) px py.

(** * Smoke and fire: two emitter kinds, two blend groups

    The demo whose window title is "Particle System — smoke & fire". *)
Module SmokeFire.

Definition screenWidth : Z := 640.
Definition screenHeight : Z := 480.
Definition maxParticles : Z := 10000.

Inductive ParticleType := TypeSmoke | TypeFire.

Record Particle := mkParticle {
  x : float; y : float;
  vx : float; vy : float;
  lifetime : Z;
  maxLife : Z;
  baseScale : float;
  angle : float;
  angularVelocity : float;
  col : color.RGBA;
  pType : ParticleType;
  active : bool
}.

(** The zero value [Particle{}]. *)
Definition zeroParticle : Particle :=
  {| x := 0; y := 0; vx := 0; vy := 0; lifetime := 0; maxLife := 0;
     baseScale := 0; angle := 0; angularVelocity := 0;
     col := color.mkRGBA 0 0 0 0; pType := TypeSmoke; active := false |}.

Definition update (p : Particle) : Particle :=
  if negb p.(active) then p
  else
    let lifetime' := int_add p.(lifetime) 1 in
    if lifetime' >=? p.(maxLife) then
      {| x := p.(x); y := p.(y); vx := p.(vx); vy := p.(vy);
         lifetime := lifetime'; maxLife := p.(maxLife);
         baseScale := p.(baseScale); angle := p.(angle);
         angularVelocity := p.(angularVelocity);
         col := p.(col); pType := p.(pType); active := false |}
    else
      {| x := p.(x) + p.(vx); y := p.(y) + p.(vy);
         vx := p.(vx); vy := p.(vy) + 0.05;
         lifetime := lifetime'; maxLife := p.(maxLife);
         baseScale := p.(baseScale);
         angle := p.(angle) + p.(angularVelocity);
         angularVelocity := p.(angularVelocity);
         col := p.(col); pType := p.(pType); active := true |}.

Record Emitter := mkEmitter {
  ex : float; ey : float;
  rate : Z;
  epType : ParticleType;
  counter : Z
}.

Record Game := mkGame {
  particles : list Particle;
  emitters : list Emitter;
  smokeVertices : list Vertex;
  fireVertices : list Vertex;
  smokeIndices : list Z;
  fireIndices : list Z
}.

Definition allocateParticle (ps : list Particle) : option nat :=
  firstInactive active ps.

(** [p.active = false] through a pointer. *)
Definition deactivate (p : Particle) : Particle :=
  {| x := p.(x); y := p.(y); vx := p.(vx); vy := p.(vy);
     lifetime := p.(lifetime); maxLife := p.(maxLife);
     baseScale := p.(baseScale); angle := p.(angle);
     angularVelocity := p.(angularVelocity);
     col := p.(col); pType := p.(pType); active := false |}.

(** The recycling test of [Game.Update]:
    [p.x < -100 || p.x > screenWidth+100 || p.y < -200 || p.y > screenHeight+200]. *)
Definition offScreen (p : Particle) : bool :=
  (p.(x) <? -100)%float || (740 <? p.(x))%float
  || (p.(y) <? -200)%float || (680 <? p.(y))%float.

(** The body of the particle loop of [Game.Update]. *)
Definition tick (p : Particle) : Particle :=
  if p.(active) then
    let p' := update p in
    if offScreen p' then deactivate p' else p'
  else p.

Section WithLibraries.
Context `{MathLib} `{Float32} `{Rand} `{GeoMLib}.
Context (smokeImageW smokeImageH : float).

Definition newParticle (emitterX emitterY : float) (pType : ParticleType)
    : Gen Particle :=
  r1 <- Float64 ;; r2 <- Float64 ;; r3 <- Float64 ;; r4 <- Float64 ;;
  let px := (emitterX + r1 * 4 - 2)%float in
  let py := (emitterY + r2 * 4 - 2)%float in
  let pangle := (r3 * 2 * Pi)%float in
  let pav := ((r4 * 2 - 1) * 0.05)%float in
  match pType with
  | TypeSmoke =>
      n <- Intn 60 ;;
      a <- Float64 ;;
      let ang := (a * Pi / 3.0 + Pi_2)%float in
      s <- Float64 ;;
      let speed := (s * 0.4 + 0.1)%float in
      cr <- Intn 63 ;; cg <- Intn 63 ;; cb <- Intn 63 ;;
      bs <- Float64 ;;
      gret {| x := px; y := py;
              vx := Cos ang * speed; vy := Sin ang * speed - 1.0;
              lifetime := 0; maxLife := int_add n 240;
              baseScale := bs * 0.1 + 0.3;
              angle := pangle; angularVelocity := pav;
              col := color.mkRGBA (uint8 (192 + cr)) (uint8 (192 + cg))
                                  (uint8 (192 + cb)) 255;
              pType := TypeSmoke; active := true |}
  | TypeFire =>
      n <- Intn 30 ;;
      a <- Float64 ;;
      flip <- Intn 2 ;;
      let ang0 := (a * Pi / 4.0)%float in
      let ang1 := if flip =? 0 then (- ang0)%float else ang0 in
      let ang := (ang1 + Pi_2)%float in
      s <- Float64 ;;
      let speed := (s * 1.5 + 1.0)%float in
      bs <- Float64 ;;
      gret {| x := px; y := py;
              vx := Cos ang * speed * 0.5; vy := Sin ang * speed * 2.0;
              lifetime := 0; maxLife := int_add n 45;
              baseScale := bs * 0.05 + 0.15;
              angle := pangle; angularVelocity := pav;
              col := color.mkRGBA 255 144 0 255;
              pType := TypeFire; active := true |}
  end.

(** The loop [for i := 0; i < n; i++] of [Emitter.spawn] (with [n = 2]):
    a full pool skips the particle and draws nothing. *)
Fixpoint spawnLoop (n : nat) (e : Emitter) (ps : list Particle)
    : Gen (list Particle) :=
  match n with
  | O => gret ps
  | S n' =>
      match allocateParticle ps with
      | Some i =>
          p <- newParticle e.(ex) e.(ey) e.(epType) ;;
          spawnLoop n' e (<[i := p]> ps)
      | None => spawnLoop n' e ps
      end
  end.

(** [Emitter.spawn]: the emitter and the pool after the call.  The
    remainder [e.counter % e.rate] is Go's truncated one. *)
Definition spawn (e : Emitter) (ps : list Particle)
    : Gen (Emitter * list Particle) :=
  let counter' := int_add e.(counter) 1 in
  let rate' := if e.(rate) <=? 0 then 1 else e.(rate) in
  let e' := {| ex := e.(ex); ey := e.(ey); rate := rate';
               epType := e.(epType); counter := counter' |} in
  if negb (Z.rem counter' rate' =? 0) then gret (e', ps)
  else ps' <- spawnLoop 2 e' ps ;; gret (e', ps').

(** [for _, e := range g.emitters { e.spawn(g) }]. *)
Fixpoint spawnAll (es : list Emitter) (ps : list Particle)
    : Gen (list Emitter * list Particle) :=
  match es with
  | [] => gret ([], ps)
  | e :: es' =>
      eps <- spawn e ps ;;
      rest <- spawnAll es' eps.2 ;;
      gret (eps.1 :: rest.1, rest.2)
  end.

(** [p.vx = ...; p.vy = ...] through the pointer [allocateParticle] gave. *)
Definition setVelocity (p : Particle) (vx' vy' : float) : Particle :=
  {| x := p.(x); y := p.(y); vx := vx'; vy := vy';
     lifetime := p.(lifetime); maxLife := p.(maxLife);
     baseScale := p.(baseScale); angle := p.(angle);
     angularVelocity := p.(angularVelocity);
     col := p.(col); pType := p.(pType); active := p.(active) |}.

(** The loop [for i := 0; i < n; i++] of [spawnExplosion] (with
    [n = 500]): it breaks at the first exhausted allocation. *)
Fixpoint explosionLoop (n : nat) (ex0 ey0 : float) (ps : list Particle)
    : Gen (list Particle) :=
  match n with
  | O => gret ps
  | S n' =>
      match allocateParticle ps with
      | Some i =>
          p <- newParticle ex0 ey0 TypeFire ;;
          ba <- Float64 ;;
          let blastAngle := (ba * 2 * Pi)%float in
          bsp <- Float64 ;;
          let blastSpeed := (bsp * 7.0 + 3.0)%float in
          explosionLoop n' ex0 ey0
            (<[i := setVelocity p (Cos blastAngle * blastSpeed)
                                  (Sin blastAngle * blastSpeed)]> ps)
      | None => gret ps
      end
  end.

Definition spawnExplosion (ex0 ey0 : float) (ps : list Particle)
    : Gen (list Particle) :=
  explosionLoop 500 ex0 ey0 ps.

Definition NewGame : Game :=
  {| particles := replicate (Z.to_nat maxParticles) zeroParticle;
     emitters := [ {| ex := 320; ey := 430; rate := 3;
                      epType := TypeSmoke; counter := 0 |} ];
     smokeVertices := []; fireVertices := [];
     smokeIndices := []; fireIndices := [] |}.

(** The first half of [Game.Update]: the explosion of a click, then the
    emitters.  [click] is the cursor position when the left button was just
    pressed, [None] otherwise.  The result is the emitters and the pool as
    the particle loop finds them. *)
Definition spawnPhase (click : option (Z * Z)) (g : Game)
    : Gen (list Emitter * list Particle) :=
  ps1 <- match click with
         | Some (mx, my) =>
             spawnExplosion (float64_of_int mx) (float64_of_int my) g.(particles)
         | None => gret g.(particles)
         end ;;
  spawnAll g.(emitters) ps1.

(** [Game.Update]: the spawns, then the particle loop. *)
Definition Update (click : option (Z * Z)) (g : Game) : Gen Game :=
  eps <- spawnPhase click g ;;
  gret {| particles := tick <$> eps.2;
          emitters := eps.1;
          smokeVertices := g.(smokeVertices);
          fireVertices := g.(fireVertices);
          smokeIndices := g.(smokeIndices);
          fireIndices := g.(fireIndices) |}.

(** The fade of a particle over its life, a [float32]. *)
Definition particleAlpha (p : Particle) : float :=
  let rate := (float64_of_int p.(lifetime) / float64_of_int p.(maxLife))%float in
  match p.(pType) with
  | TypeFire => f32 (1.0 - Pow rate 2)
  | TypeSmoke =>
      if (rate <? 0.2)%float then f32 (rate / 0.2)
      else if (0.8 <? rate)%float then f32 ((1 - rate) / 0.2)
      else 1.0%float
  end.

(** The four vertices [Game.Draw] appends for an active particle. *)
Definition particleQuad (p : Particle) : list Vertex :=
  let rate := (float64_of_int p.(lifetime) / float64_of_int p.(maxLife))%float in
  let scale := (p.(baseScale) * (1.0 + 1.0 * rate))%float in
  let alpha := particleAlpha p in
  let cr := f32_mul (f32_div (float64_of_int p.(col).(color.R)) 255) alpha in
  let cg := f32_mul (f32_div (float64_of_int p.(col).(color.G)) 255) alpha in
  let cb := f32_mul (f32_div (float64_of_int p.(col).(color.B)) 255) alpha in
  let geo := quadGeoM (smokeImageW / 2.0) (smokeImageH / 2.0)
                      p.(angle) scale p.(x) p.(y) in
  cornerVertex geo cr cg cb alpha <$> corners smokeImageW smokeImageH.

(** The locals of [Game.Draw] that the particle loop carries: the fire
    group, the smoke group and [activeCount]. *)
Record DrawState := mkDrawState {
  dFire : Batch;
  dSmoke : Batch;
  dActive : Z
}.

(** The body of the particle loop of [Game.Draw]. *)
Definition drawStep (st : DrawState) (p : Particle) : DrawState :=
  if negb p.(active) then st
  else
    let n := int_add st.(dActive) 1 in
    match p.(pType) with
    | TypeFire =>
        {| dFire := pushQuad st.(dFire) (particleQuad p);
           dSmoke := st.(dSmoke); dActive := n |}
    | TypeSmoke =>
        {| dFire := st.(dFire);
           dSmoke := pushQuad st.(dSmoke) (particleQuad p); dActive := n |}
    end.

Definition drawLoop (ps : list Particle) : DrawState :=
  foldl drawStep (mkDrawState emptyBatch emptyBatch 0) ps.

(** [Game.Draw], as far as the game is concerned: the four buffers are
    reset and refilled; what it hands to the renderer is these buffers. *)
Definition Draw (g : Game) : Game :=
  let st := drawLoop g.(particles) in
  {| particles := g.(particles);
     emitters := g.(emitters);
     smokeVertices := st.(dSmoke).(bVertices);
     fireVertices := st.(dFire).(bVertices);
     smokeIndices := st.(dSmoke).(bIndices);
     fireIndices := st.(dFire).(bIndices) |}.

(** The states the game goes through: the host calls [Update] and [Draw]
    in turn, with any input and any random source. *)
Inductive Reachable : Game → Prop :=
  | reach_new : Reachable NewGame
  | reach_update g click r :
      Reachable g → Reachable (Update click g r).1
  | reach_draw g : Reachable g → Reachable (Draw g).

End WithLibraries.

End SmokeFire.

(** * Depth fire: one blend group, colour by depth

    The demo of [Concert.main.go], "3D Depth Fire Particles (Blue→Red)". *)
Module Concert.

Definition screenWidth : Z := 800.
Definition screenHeight : Z := 600.
Definition maxParticles : Z := 8000.

Record Particle := mkParticle {
  x : float; y : float; z : float;
  vx : float; vy : float; vz : float;
  lifetime : Z; maxLife : Z;
  baseScale : float;
  angle : float;
  angularVelocity : float;
  active : bool
}.

(** The zero value [Particle{}]. *)
Definition zeroParticle : Particle :=
  {| x := 0; y := 0; z := 0; vx := 0; vy := 0; vz := 0;
     lifetime := 0; maxLife := 0; baseScale := 0; angle := 0;
     angularVelocity := 0; active := false |}.

Definition update (p : Particle) : Particle :=
  if negb p.(active) then p
  else
    let lifetime' := int_add p.(lifetime) 1 in
    if lifetime' >=? p.(maxLife) then
      {| x := p.(x); y := p.(y); z := p.(z);
         vx := p.(vx); vy := p.(vy); vz := p.(vz);
         lifetime := lifetime'; maxLife := p.(maxLife);
         baseScale := p.(baseScale); angle := p.(angle);
         angularVelocity := p.(angularVelocity); active := false |}
    else
      {| x := p.(x) + p.(vx); y := p.(y) + p.(vy); z := p.(z) + p.(vz);
         vx := p.(vx); vy := p.(vy) + 0.02; vz := p.(vz) * 0.98;
         lifetime := lifetime'; maxLife := p.(maxLife);
         baseScale := p.(baseScale);
         angle := p.(angle) + p.(angularVelocity);
         angularVelocity := p.(angularVelocity); active := true |}.

Record Game := mkGame {
  particles : list Particle;
  vertices : list Vertex;
  indices : list Z
}.

Definition NewGame : Game :=
  {| particles := replicate (Z.to_nat maxParticles) zeroParticle;
     vertices := []; indices := [] |}.

Definition allocateParticle (ps : list Particle) : option nat :=
  firstInactive active ps.

(** The body of the particle loop of [Game.Update]. *)
Definition tick (p : Particle) : Particle :=
  if p.(active) then update p else p.

Section WithLibraries.
Context `{MathLib} `{Float32} `{Rand} `{GeoMLib}.
Context (fireImageW fireImageH : float).

Definition newFireParticle (x0 y0 : float) : Gen Particle :=
  r1 <- Float64 ;; r2 <- Float64 ;; r3 <- Float64 ;; r4 <- Float64 ;;
  r5 <- Float64 ;; n <- Intn 40 ;; r6 <- Float64 ;;
  a <- Float64 ;;
  let ang := (a * 2 * Pi)%float in
  s <- Float64 ;;
  let speed := (s * 4.0 + 2.0)%float in
  r7 <- Float64 ;;
  gret {| x := x0 + r1 * 4 - 2; y := y0 + r2 * 4 - 2; z := r3 * 2 - 1;
          vx := Cos ang * speed * 0.3; vy := Sin ang * speed * 0.7;
          vz := (r7 * 2 - 1) * 0.5;
          lifetime := 0; maxLife := int_add n 40;
          baseScale := r6 * 0.1 + 0.2;
          angle := r4 * 2 * Pi;
          angularVelocity := (r5 * 2 - 1) * 0.1;
          active := true |}.

(** The loop [for i := 0; i < n; i++] of [spawnExplosion] (with
    [n = 600]): it breaks at the first exhausted allocation. *)
Fixpoint explosionLoop (n : nat) (x0 y0 : float) (ps : list Particle)
    : Gen (list Particle) :=
  match n with
  | O => gret ps
  | S n' =>
      match allocateParticle ps with
      | Some i =>
          p <- newFireParticle x0 y0 ;;
          explosionLoop n' x0 y0 (<[i := p]> ps)
      | None => gret ps
      end
  end.

Definition spawnExplosion (x0 y0 : float) (ps : list Particle)
    : Gen (list Particle) :=
  explosionLoop 600 x0 y0 ps.

(** [depthColor]: blue (far) to red (near); the results are [float32]. *)
Definition depthColor (z0 : float) : float * float * float :=
  let t0 := f32 ((z0 + 2.0) / 4.0) in
  let t1 := if (t0 <? 0)%float then 0%float else t0 in
  let t := if (1 <? t1)%float then 1%float else t1 in
  (t, 0%float, f32 (1.0 - t)).

(** The pool as the particle loop of [Game.Update] finds it.  [click] is
    the cursor position when the left button was just pressed. *)
Definition spawnPhase (click : option (Z * Z)) (g : Game)
    : Gen (list Particle) :=
  match click with
  | Some (mx, my) =>
      spawnExplosion (float64_of_int mx) (float64_of_int my) g.(particles)
  | None => gret g.(particles)
  end.

Definition Update (click : option (Z * Z)) (g : Game) : Gen Game :=
  ps <- spawnPhase click g ;;
  gret {| particles := tick <$> ps;
          vertices := g.(vertices); indices := g.(indices) |}.

(** The four vertices [Game.Draw] appends for an active particle. *)
Definition particleQuad (p : Particle) : list Vertex :=
  let rate := (float64_of_int p.(lifetime) / float64_of_int p.(maxLife))%float in
  let alpha := f32 (1.0 - Pow rate 1.5) in
  let depthScale := (1.0 / (1.0 + p.(z) * 0.5))%float in
  let scale := (p.(baseScale) * (1.0 + 0.5 * rate) * depthScale)%float in
  let '(r, gcol, b) := depthColor p.(z) in
  let geo := quadGeoM (fireImageW / 2.0) (fireImageH / 2.0)
                      p.(angle) scale p.(x) p.(y) in
  cornerVertex geo (f32_mul r alpha) (f32_mul gcol alpha) (f32_mul b alpha) alpha
    <$> corners fireImageW fireImageH.

(** The body of the particle loop of [Game.Draw]. *)
Definition drawStep (b : Batch) (p : Particle) : Batch :=
  if negb p.(active) then b else pushQuad b (particleQuad p).

Definition drawLoop (ps : list Particle) : Batch :=
  foldl drawStep emptyBatch ps.

(** [Game.Draw], as far as the game is concerned: the buffers are reset
    and refilled. *)
Definition Draw (g : Game) : Game :=
  let b := drawLoop g.(particles) in
  {| particles := g.(particles);
     vertices := b.(bVertices); indices := b.(bIndices) |}.

(** The states the game goes through. *)
Inductive Reachable : Game → Prop :=
  | reach_new : Reachable NewGame
  | reach_update g click r :
      Reachable g → Reachable (Update click g r).1
  | reach_draw g : Reachable g → Reachable (Draw g).

End WithLibraries.

End Concert.

(** * Smoke: a pool that grows on demand, one blend group

    The demo of [smoke.main.go], "High-Performance Particles". *)
Module Smoke.

Definition screenWidth : Z := 640.
Definition screenHeight : Z := 480.
Definition maxParticles : Z := 8000.

(** [*ebiten.Image]: the handle of a texture; [smokeImage] is the one
    [init] decodes. *)
Definition Image : Type := nat.
Definition smokeImage : Image := 0%nat.

(** [img] and [color] are pointers: [None] is [nil]. *)
Record Particle := mkParticle {
  x : float; y : float;
  vx : float; vy : float;
  lifetime : Z;
  maxLife : Z;
  img : option Image;
  baseScale : float;
  angle : float;
  angularVelocity : float;
  baseAlpha : float;
  color : option color.RGBA;
  active : bool
}.

(** The zero value [Particle{}]. *)
Definition zeroParticle : Particle :=
  {| x := 0; y := 0; vx := 0; vy := 0; lifetime := 0; maxLife := 0;
     img := None; baseScale := 0; angle := 0; angularVelocity := 0;
     baseAlpha := 0; color := None; active := false |}.

Definition update (p : Particle) : Particle :=
  if negb p.(active) then p
  else
    let lifetime' := int_add p.(lifetime) 1 in
    if lifetime' >=? p.(maxLife) then
      {| x := p.(x); y := p.(y); vx := p.(vx); vy := p.(vy);
         lifetime := lifetime'; maxLife := p.(maxLife); img := p.(img);
         baseScale := p.(baseScale); angle := p.(angle);
         angularVelocity := p.(angularVelocity);
         baseAlpha := p.(baseAlpha); color := p.(color); active := false |}
    else
      {| x := p.(x) + p.(vx); y := p.(y) + p.(vy);
         vx := p.(vx); vy := p.(vy);
         lifetime := lifetime'; maxLife := p.(maxLife); img := p.(img);
         baseScale := p.(baseScale);
         angle := p.(angle) + p.(angularVelocity);
         angularVelocity := p.(angularVelocity);
         baseAlpha := p.(baseAlpha); color := p.(color); active := true |}.

(** [particles] is [nil] until the first [Update]: [None] is the nil
    slice, which ranges as the empty one. *)
Record Game := mkGame {
  particles : option (list Particle);
  emitterX : float;
  emitterY : float;
  vertices : list Vertex;
  indices : list Z
}.

(** The zero value [Game{}] that [main] runs. *)
Definition zeroGame : Game :=
  {| particles := None; emitterX := 0; emitterY := 0;
     vertices := []; indices := [] |}.

(** The slots [range g.particles] visits. *)
Definition slots (g : Game) : list Particle := default [] g.(particles).

(** [allocateParticle]: a free slot if there is one; else, while the pool
    is short of [maxParticles], a new slot appended to it; else [nil].
    The result is the slot and the pool. *)
Definition allocateParticle (ps : list Particle) : option nat * list Particle :=
  match firstInactive active ps with
  | Some i => (Some i, ps)
  | None =>
      if Z.of_nat (length ps) <? maxParticles
      then (Some (length ps), ps ++ [zeroParticle])
      else (None, ps)
  end.

(** The body of the particle loop of [Game.Update]. *)
Definition tick (p : Particle) : Particle :=
  if p.(active) then update p else p.

Section WithLibraries.
Context `{MathLib} `{Float32} `{Rand} `{GeoMLib}.
Context (smokeImageW smokeImageH : float).

Definition newParticle (image : Image) (emitterX0 emitterY0 : float)
    : Gen Particle :=
  n <- Intn 60 ;;
  a <- Float64 ;;
  flip <- Intn 2 ;;
  let ang0 := (a * Pi / 3.0)%float in
  let ang1 := if flip =? 0 then (- ang0)%float else ang0 in
  let ang := (ang1 + Pi_2)%float in
  s <- Float64 ;;
  let speed := (s * 0.4 + 0.1)%float in
  let updraft := (-1.0)%float in
  cr <- Intn 63 ;; cg <- Intn 63 ;; cb <- Intn 63 ;;
  r1 <- Float64 ;; r2 <- Float64 ;; r3 <- Float64 ;; r4 <- Float64 ;;
  gret {| x := emitterX0; y := emitterY0;
          vx := Cos ang * speed; vy := Sin ang * speed + updraft;
          lifetime := 0; maxLife := int_add n 240;
          img := Some image;
          baseScale := r4 * 0.1 + 0.3;
          angle := r1 * 2 * Pi;
          angularVelocity := r2 * 0.03 * (r3 * 2 - 1);
          baseAlpha := f32 0.8;
          color := Some (color.mkRGBA (uint8 (192 + cr)) (uint8 (192 + cg))
                                      (uint8 (192 + cb)) 255);
          active := true |}.

(** The emitter of [Game.Update]: while the pool is short of
    [maxParticles], two times out of three, one particle. *)
Definition emit (ex0 ey0 : float) (ps : list Particle) : Gen (list Particle) :=
  if Z.of_nat (length ps) <? maxParticles then
    k <- Intn 3 ;;
    if k <? 2 then
      match allocateParticle ps with
      | (Some i, ps') =>
          p <- newParticle smokeImage ex0 ey0 ;;
          gret (<[i := p]> ps')
      | (None, ps') => gret ps'
      end
    else gret ps
  else gret ps.

(** [Game.Update]: the pool and the emitter are set up on the first call. *)
Definition Update (g : Game) : Gen Game :=
  let '(ps0, ex0, ey0) :=
    match g.(particles) with
    | None => ([], 320%float, 240%float)
    | Some ps => (ps, g.(emitterX), g.(emitterY))
    end in
  ps1 <- emit ex0 ey0 ps0 ;;
  d <- Float64 ;;
  gret {| particles := Some (tick <$> ps1);
          emitterX := ex0 + (d * 0.5 - 0.25);
          emitterY := ey0 - 0.1;
          vertices := g.(vertices); indices := g.(indices) |}.

(** The fade of a particle over its life, a [float32]. *)
Definition particleAlpha (p : Particle) : float :=
  let rate := (float64_of_int p.(lifetime) / float64_of_int p.(maxLife))%float in
  let alpha :=
    if (rate <? 0.2)%float then f32 (rate / 0.2)
    else if (0.8 <? rate)%float then f32 ((1 - rate) / 0.2)
    else 1.0%float in
  f32_mul alpha p.(baseAlpha).

(** The four vertices [Game.Draw] appends for an active particle whose
    colour is [c]. *)
Definition particleQuad (p : Particle) (c : color.RGBA) : list Vertex :=
  let rate := (float64_of_int p.(lifetime) / float64_of_int p.(maxLife))%float in
  let scale := (p.(baseScale) * (0.8 + 0.5 * rate))%float in
  let alpha := particleAlpha p in
  let cr := f32_mul (f32_div (float64_of_int c.(color.R)) 255) alpha in
  let cg := f32_mul (f32_div (float64_of_int c.(color.G)) 255) alpha in
  let cb := f32_mul (f32_div (float64_of_int c.(color.B)) 255) alpha in
  let geo := quadGeoM (smokeImageW / 2.0) (smokeImageH / 2.0)
                      p.(angle) scale p.(x) p.(y) in
  cornerVertex geo cr cg cb alpha <$> corners smokeImageW smokeImageH.

(** The body of the particle loop of [Game.Draw], on the two buffers:
    [vIndex := uint16(len(g.vertices))], four vertices, six indices.
    Reading the colour through a nil pointer panics: [None]. *)
Definition drawStep (buf : list Vertex * list Z) (p : Particle)
    : option (list Vertex * list Z) :=
  if negb p.(active) then Some buf
  else
    match p.(color) with
    | None => None
    | Some c =>
        let vIndex := uint16 (Z.of_nat (length buf.1)) in
        Some (buf.1 ++ particleQuad p c, buf.2 ++ quadIndices vIndex)
    end.

Fixpoint drawLoop (buf : list Vertex * list Z) (ps : list Particle)
    : option (list Vertex * list Z) :=
  match ps with
  | [] => Some buf
  | p :: ps' =>
      match drawStep buf p with
      | Some buf' => drawLoop buf' ps'
      | None => None
      end
  end.

(** [Game.Draw], as far as the game is concerned: the buffers are reset
    and refilled; [None] when it panics. *)
Definition Draw (g : Game) : option Game :=
  match drawLoop ([], []) (slots g) with
  | Some buf =>
      Some {| particles := g.(particles);
              emitterX := g.(emitterX); emitterY := g.(emitterY);
              vertices := buf.1; indices := buf.2 |}
  | None => None
  end.

(** The states the game goes through. *)
Inductive Reachable : Game → Prop :=
  | reach_zero : Reachable zeroGame
  | reach_update g r : Reachable g → Reachable (Update g r).1
  | reach_draw g g' : Reachable g → Draw g = Some g' → Reachable g'.

End WithLibraries.

End Smoke.

(** * Concert show: emitters on orbits, fire and embers

    The first program of [amazing.main.go], "Concert Particle Show". *)
Module Amazing.

Definition screenWidth : Z := 1280.
Definition screenHeight : Z := 720.
Definition maxParticles : Z := 14000.
Definition maxVertices : Z := maxParticles * 4.
Definition maxIndices : Z := maxParticles * 6.
Definition maxEmitters : Z := 10.
Definition spawnPerFrame : Z := 200.

Inductive PKind := KindFire | KindEmber.

Record Particle := mkParticle {
  x : float; y : float; z : float;
  vx : float; vy : float; vz : float;
  lifetime : Z; maxLife : Z;
  baseScale : float;
  angle : float;
  angularVelocity : float;
  kind : PKind;
  active : bool
}.

(** The zero value [Particle{}]. *)
Definition zeroParticle : Particle :=
  {| x := 0; y := 0; z := 0; vx := 0; vy := 0; vz := 0;
     lifetime := 0; maxLife := 0; baseScale := 0; angle := 0;
     angularVelocity := 0; kind := KindFire; active := false |}.

Record Emitter := mkEmitter {
  cx : float; cy : float;
  radius : float;
  phase : float;
  speed : float;
  baseSpawn : Z;
  pulseWidth : float;
  ekind : PKind;
  offsetY : float
}.

Record Game := mkGame {
  particles : list Particle;
  vertices : list Vertex;
  indices : list Z;
  emitters : list Emitter;
  tick : Z;
  depthOffset : float
}.

Definition allocateParticle (ps : list Particle) : option nat :=
  firstInactive active ps.

(** [p.active = false] through a pointer. *)
Definition deactivate (p : Particle) : Particle :=
  {| x := p.(x); y := p.(y); z := p.(z);
     vx := p.(vx); vy := p.(vy); vz := p.(vz);
     lifetime := p.(lifetime); maxLife := p.(maxLife);
     baseScale := p.(baseScale); angle := p.(angle);
     angularVelocity := p.(angularVelocity);
     kind := p.(kind); active := false |}.

(** The recycling test of [Game.Update]:
    [p.x < -200 || p.x > screenWidth+200 || p.y < -300 || p.y > screenHeight+400]. *)
Definition offScreen (p : Particle) : bool :=
  (p.(x) <? -200)%float || (1480 <? p.(x))%float
  || (p.(y) <? -300)%float || (1120 <? p.(y))%float.

Section WithLibraries.
Context `{MathLib} `{Float32} `{Rand} `{GeoMLib}.
Context (fireImageW fireImageH : float).

(** [Particle.update]; an ember draws its wobble. *)
Definition update (p : Particle) : Gen Particle :=
  if negb p.(active) then gret p
  else
    let lifetime' := int_add p.(lifetime) 1 in
    if lifetime' >=? p.(maxLife) then
      gret {| x := p.(x); y := p.(y); z := p.(z);
              vx := p.(vx); vy := p.(vy); vz := p.(vz);
              lifetime := lifetime'; maxLife := p.(maxLife);
              baseScale := p.(baseScale); angle := p.(angle);
              angularVelocity := p.(angularVelocity);
              kind := p.(kind); active := false |}
    else
      match p.(kind) with
      | KindFire =>
          gret {| x := p.(x) + p.(vx); y := p.(y) + p.(vy); z := p.(z) + p.(vz);
                  vx := p.(vx) * 0.998;
                  vy := (p.(vy) - 0.015) * 0.999;
                  vz := p.(vz) * 0.994;
                  lifetime := lifetime'; maxLife := p.(maxLife);
                  baseScale := p.(baseScale);
                  angle := p.(angle) + p.(angularVelocity);
                  angularVelocity := p.(angularVelocity);
                  kind := p.(kind); active := true |}
      | KindEmber =>
          w <- Float64 ;;
          gret {| x := p.(x) + p.(vx); y := p.(y) + p.(vy); z := p.(z) + p.(vz);
                  vx := p.(vx) + (w * 2 - 1) * 0.02;
                  vy := p.(vy) - 0.01;
                  vz := p.(vz) * 0.995;
                  lifetime := lifetime'; maxLife := p.(maxLife);
                  baseScale := p.(baseScale);
                  angle := p.(angle) + p.(angularVelocity);
                  angularVelocity := p.(angularVelocity);
                  kind := p.(kind); active := true |}
      end.

(** The emitters [NewGame] configures: [n] fire emitters, then [m] ember
    emitters (6 and 3). *)
Fixpoint fireEmitters (n : nat) : Gen (list Emitter) :=
  match n with
  | O => gret []
  | S n' =>
      a <- Float64 ;;
      r0 <- Float64 ;;
      c1 <- Float64 ;;
      c2 <- Float64 ;;
      sp <- Float64 ;; bs <- Intn 12 ;; pw <- Float64 ;; oy <- Float64 ;;
      rest <- fireEmitters n' ;;
      gret ({| cx := 640 + c1 * 200.0 - 100.0;
               cy := 360 + c2 * 120.0 - 60.0;
               radius := 120.0 + r0 * 420.0;
               phase := a * 2 * Pi;
               speed := 0.002 + sp * 0.006;
               baseSpawn := int_add 6 bs;
               pulseWidth := 0.8 + pw * 1.8;
               ekind := KindFire;
               offsetY := oy * 40 - 20 |} :: rest)
  end.

Fixpoint emberEmitters (n : nat) : Gen (list Emitter) :=
  match n with
  | O => gret []
  | S n' =>
      c1 <- Float64 ;; c2 <- Float64 ;; r0 <- Float64 ;; ph <- Float64 ;;
      sp <- Float64 ;; bs <- Intn 3 ;; pw <- Float64 ;;
      rest <- emberEmitters n' ;;
      gret ({| cx := 1280 * (0.2 + c1 * 0.6);
               cy := 720 * (0.6 + c2 * 0.2);
               radius := 10 + r0 * 60;
               phase := ph * 2 * Pi;
               speed := 0.001 + sp * 0.004;
               baseSpawn := int_add 2 bs;
               pulseWidth := 3.0 + pw * 6.0;
               ekind := KindEmber;
               offsetY := 0 |} :: rest)
  end.

Definition NewGame : Gen Game :=
  fs <- fireEmitters 6 ;;
  es <- emberEmitters 3 ;;
  gret {| particles := replicate (Z.to_nat maxParticles) zeroParticle;
          vertices := []; indices := [];
          emitters := fs ++ es;
          tick := 0; depthOffset := 0 |}.

(** What [spawnAt] writes into the slot it was given. *)
Definition freshParticle (x0 y0 : float) (k : PKind) : Gen Particle :=
  r1 <- Float64 ;; r2 <- Float64 ;; r3 <- Float64 ;; r4 <- Float64 ;;
  r5 <- Float64 ;;
  let px := (x0 + (r1 * 2 - 1) * 6)%float in
  let py := (y0 + (r2 * 2 - 1) * 6)%float in
  let pz := (r3 * 2.2 - 1.0)%float in
  let pangle := (r4 * 2 * Pi)%float in
  match k with
  | KindFire =>
      n <- Intn 50 ;;
      bs <- Float64 ;;
      a <- Float64 ;;
      let ang := (a * 2 * Pi)%float in
      s <- Float64 ;;
      let spd := (1.2 + s * 5.8)%float in
      fx <- Float64 ;; fy <- Float64 ;; fz <- Float64 ;;
      gret {| x := px; y := py; z := pz;
              vx := Cos ang * spd * (0.2 + fx * 0.6);
              vy := Sin ang * spd * (0.3 + fy * 0.9);
              vz := fz * 1.2 - 0.6;
              lifetime := 0; maxLife := int_add 30 n;
              baseScale := 0.14 + bs * 0.22;
              angle := pangle;
              angularVelocity := (r5 * 2 - 1) * 0.12;
              kind := k; active := true |}
  | KindEmber =>
      n <- Intn 200 ;;
      bs <- Float64 ;;
      fx <- Float64 ;; fy <- Float64 ;; fz <- Float64 ;; av <- Float64 ;;
      gret {| x := px; y := py; z := pz;
              vx := (fx * 2 - 1) * 0.6;
              vy := -0.2 - fy * 0.6;
              vz := (fz * 2 - 1) * 0.15;
              lifetime := 0; maxLife := int_add 120 n;
              baseScale := 0.05 + bs * 0.08;
              angle := pangle;
              angularVelocity := (av * 2 - 1) * 0.03;
              kind := k; active := true |}
  end.

(** [spawnAt]: one particle if a slot is free, nothing otherwise. *)
Definition spawnAt (x0 y0 : float) (k : PKind) (ps : list Particle)
    : Gen (list Particle) :=
  match allocateParticle ps with
  | Some i => p <- freshParticle x0 y0 k ;; gret (<[i := p]> ps)
  | None => gret ps
  end.

(** [spawnBurst]: the loop [for i := 0; i < count; i++]. *)
Fixpoint burstLoop (n : nat) (x0 y0 : float) (ps : list Particle)
    : Gen (list Particle) :=
  match n with
  | O => gret ps
  | S n' => ps' <- spawnAt x0 y0 KindFire ps ;; burstLoop n' x0 y0 ps'
  end.

Definition spawnBurst (x0 y0 : float) (count : Z) (ps : list Particle)
    : Gen (list Particle) :=
  burstLoop (Z.to_nat count) x0 y0 ps.

(** [depthColor]: blue (far) to red (near), shifted with time. *)
Definition depthColor (z0 t : float) : float * float * float :=
  let nt0 := ((z0 + 2.0) / 4.0)%float in
  let nt1 := if (nt0 <? 0)%float then 0%float else nt0 in
  let nt := if (1 <? nt1)%float then 1%float else nt1 in
  let shift := (0.15 * Sin (t * 0.8))%float in
  let tt0 := (nt + shift)%float in
  let tt1 := if (tt0 <? 0)%float then 0%float else tt0 in
  let tt := if (1 <? tt1)%float then 1%float else tt1 in
  let s := Sin (tt * Pi / 2) in
  let r0 := f32 s in
  let g0 := f32 ((1 - tt) * 0.25) in
  let b0 := f32 (1 - s) in
  let r := if (0.6 <? tt)%float then f32 (Min 1.0 (r0 * 1.15)) else r0 in
  (r, g0, b0).

(** The loop [for i := 0; i < target && totalSpawns < spawnPerFrame; i++]
    of an emitter; [n] is what is left of [target]. *)
Fixpoint emitLoop (n : nat) (ex0 ey0 : float) (k : PKind)
    (totalSpawns : Z) (ps : list Particle) : Gen (Z * list Particle) :=
  match n with
  | O => gret (totalSpawns, ps)
  | S n' =>
      if totalSpawns <? spawnPerFrame then
        jx <- Float64 ;; jy <- Float64 ;;
        ps' <- spawnAt (ex0 + (jx * 2 - 1) * 20) (ey0 + (jy * 2 - 1) * 20) k ps ;;
        emitLoop n' ex0 ey0 k (int_add totalSpawns 1) ps'
      else gret (totalSpawns, ps)
  end.

(** The body of [for _, e := range g.emitters] in [Game.Update]. *)
Definition emitterStep (now : float) (e : Emitter) (totalSpawns : Z)
    (ps : list Particle) : Gen (Emitter * Z * list Particle) :=
  let phase' := (e.(phase) + e.(speed))%float in
  let ang := (phase' * 2 * Pi + phase' * 1.1)%float in
  let ex0 := (e.(cx) + Cos ang * e.(radius))%float in
  let ey0 := (e.(cy) + Sin (ang * 0.9) * e.(radius) * 0.55 + e.(offsetY))%float in
  let pulse := ((Sin (now * e.(pulseWidth) + phase' * 4.0) + 1.0) * 0.5)%float in
  j <- Float64 ;;
  let target0 :=
    int_of_float64 (float64_of_int e.(baseSpawn) * (0.5 + pulse) * (0.8 + j * 0.8)) in
  let target1 :=
    match e.(ekind) with
    | KindEmber => int_of_float64 (float64_of_int e.(baseSpawn) * (0.2 + pulse * 0.5))
    | KindFire => target0
    end in
  let target := if 250 <? target1 then 250 else target1 in
  tp <- emitLoop (Z.to_nat target) ex0 ey0 e.(ekind) totalSpawns ps ;;
  s <- Float64 ;;
  ps' <- (if (s <? 0.003)%float
          then n <- Intn 480 ;; spawnBurst ex0 ey0 (int_add 220 n) tp.2
          else gret tp.2) ;;
  gret ({| cx := e.(cx); cy := e.(cy); radius := e.(radius);
           phase := phase'; speed := e.(speed);
           baseSpawn := e.(baseSpawn); pulseWidth := e.(pulseWidth);
           ekind := e.(ekind); offsetY := e.(offsetY) |}, tp.1, ps').

Fixpoint emitAll (now : float) (es : list Emitter) (totalSpawns : Z)
    (ps : list Particle) : Gen (list Emitter * list Particle) :=
  match es with
  | [] => gret ([], ps)
  | e :: es' =>
      st <- emitterStep now e totalSpawns ps ;;
      rest <- emitAll now es' st.1.2 st.2 ;;
      gret (st.1.1 :: rest.1, rest.2)
  end.

(** The body of the particle loop of [Game.Update]. *)
Definition tickParticle (p : Particle) : Gen Particle :=
  if p.(active) then
    p' <- update p ;;
    gret (if offScreen p' then deactivate p' else p')
  else gret p.

Fixpoint tickAll (ps : list Particle) : Gen (list Particle) :=
  match ps with
  | [] => gret []
  | p :: ps' => p' <- tickParticle p ;; rest <- tickAll ps' ;; gret (p' :: rest)
  end.

(** The burst of a left click; [click] is the cursor position when the
    button was just pressed. *)
Definition clickBurst (click : option (Z * Z)) (ps : list Particle)
    : Gen (list Particle) :=
  match click with
  | Some (mx, my) =>
      spawnBurst (float64_of_int mx) (float64_of_int my) 900 ps
  | None => gret ps
  end.

(** The super-burst of the space bar; [space] is whether it was just
    pressed. *)
Definition spaceBurst (space : bool) (ps : list Particle) : Gen (list Particle) :=
  if space then
    a <- Intn screenWidth ;;
    b <- Intn (screenHeight / 2) ;;
    spawnBurst (float64_of_int a)
               (float64_of_int (int_add b (screenHeight / 3))) 1200 ps
  else gret ps.

(** [Game.Update]. *)
Definition Update (click : option (Z * Z)) (space : bool) (g : Game) : Gen Game :=
  let tick' := int_add g.(tick) 1 in
  ps1 <- clickBurst click g.(particles) ;;
  ps2 <- spaceBurst space ps1 ;;
  let now := (float64_of_int tick' / 60.0)%float in
  eps <- emitAll now g.(emitters) 0 ps2 ;;
  ps3 <- tickAll eps.2 ;;
  gret {| particles := ps3;
          vertices := g.(vertices); indices := g.(indices);
          emitters := eps.1;
          tick := tick';
          depthOffset := 0.18 * Sin (now * 0.25) |}.

(** The four vertices [Game.Draw] appends for an active particle. *)
Definition particleQuad (depthOffset0 now : float) (p : Particle) : list Vertex :=
  let rate := (float64_of_int p.(lifetime) / float64_of_int p.(maxLife))%float in
  let z0 := (p.(z) + depthOffset0)%float in
  let alpha0 := f32 ((1.0 - Pow rate 1.4) * (0.20 + (1.0 - Abs z0) * 0.85)) in
  let alpha1 := if (alpha0 <? 0)%float then 0%float else alpha0 in
  let depthScale0 := (1.0 / (1.0 + z0 * 0.6))%float in
  let depthScale := if (depthScale0 <? 0.3)%float then 0.3%float else depthScale0 in
  let scale0 := (p.(baseScale) * (1.0 + 0.8 * rate) * depthScale)%float in
  let '(rcol, gcol, bcol) := depthColor z0 now in
  let alpha :=
    match p.(kind) with
    | KindEmber => f32_mul alpha1 (f32 0.7)
    | KindFire => f32 (Min 1.0 (alpha1 * 1.15))
    end in
  let scale :=
    match p.(kind) with
    | KindEmber => (scale0 * 0.6)%float
    | KindFire => scale0
    end in
  let geo := quadGeoM (fireImageW / 2.0) (fireImageH / 2.0)
                      p.(angle) scale p.(x) p.(y) in
  cornerVertex geo (f32_mul rcol alpha) (f32_mul gcol alpha) (f32_mul bcol alpha)
               alpha
    <$> corners fireImageW fireImageH.

(** The body of the particle loop of [Game.Draw]. *)
Definition drawStep (depthOffset0 now : float) (b : Batch) (p : Particle) : Batch :=
  if negb p.(active) then b else pushQuad b (particleQuad depthOffset0 now p).

Definition drawLoop (depthOffset0 now : float) (ps : list Particle) : Batch :=
  foldl (drawStep depthOffset0 now) emptyBatch ps.

(** [Game.Draw], as far as the game and the random source are concerned:
    every thirtieth tick draws the position of a star, and the buffers are
    reset and refilled. *)
Definition Draw (g : Game) : Gen Game :=
  let now := (float64_of_int g.(tick) / 60.0)%float in
  _ <- (if Z.rem g.(tick) 30 =? 0
        then sx <- Float64 ;; sy <- Float64 ;; gret tt
        else gret tt) ;;
  let b := drawLoop g.(depthOffset) now g.(particles) in
  gret {| particles := g.(particles);
          vertices := b.(bVertices); indices := b.(bIndices);
          emitters := g.(emitters);
          tick := g.(tick); depthOffset := g.(depthOffset) |}.

(** The states the game goes through. *)
Inductive Reachable : Game → Prop :=
  | reach_new r : Reachable (NewGame r).1
  | reach_update g click space r :
      Reachable g → Reachable (Update click space g r).1
  | reach_draw g r : Reachable g → Reachable (Draw g r).1.

End WithLibraries.

End Amazing.

(** * Lifetime colour shift: the depth-fire pool, drawn far to near

    The second program of [amazing.main.go], "Lifetime Color Shift".  Its
    constants, [Particle], [update], [NewGame], [allocateParticle],
    [newFireParticle], [spawnExplosion] and [Update] are, statement for
    statement, those of [Concert.main.go]; they are taken from there.  Its
    [Draw] is its own. *)
Module AmazingShift.

Definition maxParticles : Z := 8000.

Definition Particle : Type := Concert.Particle.

Record Game := mkGame {
  particles : list Particle;
  vertices : list Vertex;
  indices : list Z
}.

Definition NewGame : Game :=
  {| particles := replicate (Z.to_nat maxParticles) Concert.zeroParticle;
     vertices := []; indices := [] |}.

(** [if a[i].z > a[j].z { a[i], a[j] = a[j], a[i] }]. *)
Definition swapIfNearer (i j : nat) (a : list Particle) : list Particle :=
  match a !! i, a !! j with
  | Some pi, Some pj =>
      if (pj.(Concert.z) <? pi.(Concert.z))%float
      then <[j := pi]> (<[i := pj]> a)
      else a
  | _, _ => a
  end.

(** [for j := i + 1; j < len(a); j++]; [n] is the number of turns left. *)
Fixpoint sortInner (n i j : nat) (a : list Particle) : list Particle :=
  match n with
  | O => a
  | S n' => sortInner n' i (S j) (swapIfNearer i j a)
  end.

(** [for i := range a]; [n] is the number of turns left. *)
Fixpoint sortOuter (n i : nat) (a : list Particle) : list Particle :=
  match n with
  | O => a
  | S n' => sortOuter n' (S i) (sortInner (length a - S i) i (S i) a)
  end.

(** The exchange sort of [Game.Draw]: ascending [z]. *)
Definition sortByDepth (a : list Particle) : list Particle :=
  sortOuter (length a) 0 a.

Section WithLibraries.
Context `{MathLib} `{Float32} `{Rand} `{GeoMLib}.
Context (fireImageW fireImageH : float).

Definition Update (click : option (Z * Z)) (g : Game) : Gen Game :=
  ps <- match click with
        | Some (mx, my) =>
            Concert.spawnExplosion (float64_of_int mx) (float64_of_int my)
                                   g.(particles)
        | None => gret g.(particles)
        end ;;
  gret {| particles := Concert.tick <$> ps;
          vertices := g.(vertices); indices := g.(indices) |}.

(** The four vertices [Game.Draw] appends for a particle. *)
Definition particleQuad (p : Particle) : list Vertex :=
  let rate := (float64_of_int p.(Concert.lifetime)
               / float64_of_int p.(Concert.maxLife))%float in
  let r := f32 rate in
  let gcol := f32 rate in
  let b := f32 (1.0 - rate) in
  let alpha := f32 (1.0 - Pow rate 1.5) in
  let depthScale := (1.0 / (1.0 + p.(Concert.z) * 0.5))%float in
  let scale := (p.(Concert.baseScale) * (1.0 + 0.5 * rate) * depthScale)%float in
  let geo := quadGeoM (fireImageW / 2.0) (fireImageH / 2.0)
                      p.(Concert.angle) scale p.(Concert.x) p.(Concert.y) in
  cornerVertex geo (f32_mul r alpha) (f32_mul gcol alpha) (f32_mul b alpha) alpha
    <$> corners fireImageW fireImageH.

(** [activeParticles], as collected and sorted by [Game.Draw]. *)
Definition activeParticles (ps : list Particle) : list Particle :=
  sortByDepth (List.filter Concert.active ps).

Definition drawLoop (ps : list Particle) : Batch :=
  foldl (λ b p, pushQuad b (particleQuad p)) emptyBatch (activeParticles ps).

(** [Game.Draw], as far as the game is concerned. *)
Definition Draw (g : Game) : Game :=
  let b := drawLoop g.(particles) in
  {| particles := g.(particles);
     vertices := b.(bVertices); indices := b.(bIndices) |}.

(** The states the game goes through. *)
Inductive Reachable : Game → Prop :=
  | reach_new : Reachable NewGame
  | reach_update g click r :
      Reachable g → Reachable (Update click g r).1
  | reach_draw g : Reachable g → Reachable (Draw g).

End WithLibraries.

End AmazingShift.

(** * Bubbles: a projected cloud of circles

    The demo of [bubbles.main.go], "3D Procedural Particles". *)
Module Bubbles.

Definition screenWidth : Z := 1024.
Definition screenHeight : Z := 768.
Definition maxParticles : Z := 1200.
Definition spawnPerTick : Z := 8.
Definition focalLength : float := 450.0.
Definition worldRadius : float := 220.0.

Record Particle := mkParticle {
  x : float; y : float; z : float;
  vx : float; vy : float; vz : float;
  life : Z; maxLife : Z;
  baseSize : float;
  color : color.RGBA
}.

(** [Particle.Update]: the particle moved, and whether it lives on. *)
Definition Update (p : Particle) : Particle * bool :=
  let life' := int_sub p.(life) 1 in
  ({| x := p.(x) + p.(vx); y := p.(y) + p.(vy); z := p.(z) + p.(vz);
      vx := p.(vx) * 0.99; vy := p.(vy) * 0.99; vz := p.(vz) * 0.99;
      life := life'; maxLife := p.(maxLife);
      baseSize := p.(baseSize); color := p.(color) |},
   0 <? life').

(** The results [sx, sy, scale, depth, visible] of [Project]. *)
Record Projection := mkProjection {
  sx : float; sy : float; scale : float; depth : float; visible : bool
}.

(** The entry [Game.Draw] keeps of a visible particle. *)
Record drawItem := mkDrawItem {
  ix : float; iy : float; size : float; idepth : float; alpha : float;
  col : color.RGBA
}.

(** A call of [vector.DrawFilledCircle]: centre and radius as [float32],
    and the colour. *)
Record Circle := mkCircle {
  ccx : float; ccy : float; cr : float; cclr : color.RGBA
}.

Record Game := mkGame {
  particles : list Particle;
  tick : Z;
  yaw : float;
  pitch : float
}.

(** The zero value [Game{}] that [main] runs. *)
Definition zeroGame : Game :=
  {| particles := []; tick := 0; yaw := 0; pitch := 0 |}.

(** [less] of the [sort.Slice] call: [items[i].depth > items[j].depth]. *)
Definition farther (a b : drawItem) : bool := (b.(idepth) <? a.(idepth))%float.

(** The depth fade of [Game.Draw], with its floor. *)
Definition depthFade (d : float) : float :=
  let f := (1.0 - (d - 200) / 1200)%float in
  if (f <? 0.2)%float then 0.2%float else f.

Section WithLibraries.
Context `{MathLib} `{Float32} `{Rand} `{SortLib}.

Definition NewParticle : Gen Particle :=
  a <- Float64 ;;
  let phi := (a * 2 * Pi)%float in
  c <- Float64 ;;
  let costheta := (c * 2 - 1)%float in
  u <- Float64 ;;
  let r := (worldRadius * Cbrt u)%float in
  let x0 := (r * Cos phi * Sqrt (1 - costheta * costheta))%float in
  let y0 := (r * Sin phi * Sqrt (1 - costheta * costheta))%float in
  let z0 := (r * costheta)%float in
  s <- Float64 ;;
  let speed := (s * 1.5 + 0.5)%float in
  n <- Intn 120 ;;
  let maxLife0 := int_add 100 n in
  c1 <- Intn 70 ;; c2 <- Intn 70 ;;
  b <- Float64 ;;
  gret {| x := x0; y := y0; z := z0;
          vx := x0 / 221 * speed * 0.5;
          vy := y0 / 221 * speed * 0.5;
          vz := z0 / 221 * speed * 0.5;
          life := maxLife0; maxLife := maxLife0;
          baseSize := b * 3 + 2;
          color := color.mkRGBA (uint8 (180 + c1)) (uint8 (180 + c2)) 255 255 |}.

(** The first half of [Project]: the position turned by the yaw about the
    vertical axis, then by the pitch, and moved 600 away from the camera:
    [x1], [y1] and [z2]. *)
Definition cameraSpace (p : Particle) (yaw0 pitch0 : float)
    : float * float * float :=
  let siny := Sin yaw0 in
  let cosy := Cos yaw0 in
  let x1 := (p.(x) * cosy + p.(z) * siny)%float in
  let z1 := (- p.(x) * siny + p.(z) * cosy)%float in
  let sinp := Sin pitch0 in
  let cosp := Cos pitch0 in
  let y1 := (p.(y) * cosp - z1 * sinp)%float in
  let z2 := (p.(y) * sinp + z1 * cosp + 600)%float in
  (x1, y1, z2).

Definition Project (p : Particle) (yaw0 pitch0 : float) : Projection :=
  let '(x1, y1, z2) := cameraSpace p yaw0 pitch0 in
  if (z2 <=? 10)%float then
    {| sx := 0; sy := 0; scale := 0; depth := z2; visible := false |}
  else
    let f := (focalLength / z2)%float in
    {| sx := x1 * f + 512; sy := y1 * f + 384; scale := f; depth := z2;
       visible := true |}.

(** [Game.spawn]: [for i := 0; i < n && len(g.particles) < maxParticles; i++]. *)
Fixpoint spawn (n : nat) (ps : list Particle) : Gen (list Particle) :=
  match n with
  | O => gret ps
  | S n' =>
      if Z.of_nat (length ps) <? maxParticles then
        p <- NewParticle ;; spawn n' (ps ++ [p])
      else gret ps
  end.

(** The compaction of [Game.Update]: every particle is updated, those
    that live on are kept, in order. *)
Definition compact (ps : list Particle) : list Particle :=
  fst <$> List.filter snd (Update <$> ps).

Definition GameUpdate (g : Game) : Gen Game :=
  let tick' := int_add g.(tick) 1 in
  ps1 <- (if Z.rem tick' 2 =? 0 then spawn (Z.to_nat spawnPerTick) g.(particles)
          else gret g.(particles)) ;;
  gret {| particles := compact ps1;
          tick := tick';
          yaw := g.(yaw) + 0.004;
          pitch := Sin (float64_of_int tick' * 0.002) * 0.15 |}.

(** The body of the first loop of [Game.Draw]: the item of a particle, if
    it is visible. *)
Definition itemOf (yaw0 pitch0 : float) (p : Particle) : option drawItem :=
  let pr := Project p yaw0 pitch0 in
  if negb pr.(visible) then None
  else
    let lifeRatio := (float64_of_int p.(life) / float64_of_int p.(maxLife))%float in
    Some {| ix := pr.(sx); iy := pr.(sy);
            size := p.(baseSize) * pr.(scale) * 3.0;
            idepth := pr.(depth);
            alpha := lifeRatio * depthFade pr.(depth);
            col := p.(color) |}.

(** [items], before and after [sort.Slice]. *)
Definition collectItems (g : Game) : list drawItem :=
  omap (itemOf g.(yaw) g.(pitch)) g.(particles).

Definition sortedItems (g : Game) : list drawItem :=
  sortSlice farther (collectItems g).

(** The body of the second loop of [Game.Draw]: the circle of an item,
    unless it is too faint. *)
Definition circleOf (it : drawItem) : option Circle :=
  let a := uint8 (int_of_float64 (255 * it.(alpha))) in
  if a <? 10 then None
  else Some {| ccx := f32 it.(ix); ccy := f32 it.(iy); cr := f32 it.(size);
               cclr := color.mkRGBA it.(col).(color.R) it.(col).(color.G)
                                    it.(col).(color.B) a |}.

(** [Game.Draw]: the circles handed to the renderer, in order. *)
Definition Draw (g : Game) : list Circle := omap circleOf (sortedItems g).

End WithLibraries.

End Bubbles.

(** * Cloud: a projected cloud of sprites, sorted by depth

    The demo whose window title is "3D-like Particles - Depth-sorted". *)
Module Cloud.

Definition screenWidth : Z := 1024.
Definition screenHeight : Z := 768.
Definition maxParticles : Z := 1200.
Definition spawnPerTick : Z := 8.
Definition focalLength : float := 450.0.
Definition worldRadius : float := 220.0.

(** [*ebiten.Image]: the handle of a texture; [smokeImage] is the one
    [init] decodes. *)
Definition Image : Type := nat.
Definition smokeImage : Image := 0%nat.

Record Particle := mkParticle {
  x : float; y : float; z : float;
  vx : float; vy : float; vz : float;
  angle : float;
  spin : float;
  baseScale : float;
  life : Z;
  maxLife : Z;
  colorMix : color.RGBA;
  img : Image
}.

(** [Particle.update]: the particle moved, and whether it lives on. *)
Definition update (p : Particle) : Particle * bool :=
  let life' := int_sub p.(life) 1 in
  ({| x := p.(x) + p.(vx); y := p.(y) + p.(vy); z := p.(z) + p.(vz);
      vx := p.(vx) * 0.995; vy := p.(vy) * 0.995; vz := p.(vz) * 0.995;
      angle := p.(angle) + p.(spin); spin := p.(spin);
      baseScale := p.(baseScale);
      life := life'; maxLife := p.(maxLife);
      colorMix := p.(colorMix); img := p.(img) |},
   0 <? life').

(** The results [sx, sy, scale, depth, visible] of [projected]. *)
Record Projection := mkProjection {
  sx : float; sy : float; scale : float; depth : float; visible : bool
}.

(** The entry [Game.Draw] keeps of a visible particle; [ip] is the
    particle the pointer [p] leads to. *)
Record drawItem := mkDrawItem {
  ip : Particle;
  isx : float; isy : float;
  iscale : float;
  idepth : float;
  alphaMult : float
}.

(** A call of [screen.DrawImage]: the image, the transform and the four
    factors of the colour scale. *)
Record Sprite `{GeoMLib} := mkSprite {
  simg : Image;
  sgeo : GeoM;
  srf : float; sgf : float; sbf : float; sa : float
}.

Record Game := mkGame {
  particles : list Particle;
  tick : Z;
  cameraYaw : float;
  cameraPitch : float
}.

(** The zero value [Game{}] that [main] runs. *)
Definition zeroGame : Game :=
  {| particles := []; tick := 0; cameraYaw := 0; cameraPitch := 0 |}.

(** [less] of the [sort.Slice] call: [items[i].depth > items[j].depth]. *)
Definition farther (a b : drawItem) : bool := (b.(idepth) <? a.(idepth))%float.

(** The depth fade of [Game.Draw], with its floor. *)
Definition depthFade (d : float) : float :=
  let f := (1.0 - (d - 200.0) / 1200.0)%float in
  if (f <? 0.25)%float then 0.25%float else f.

Section WithLibraries.
Context `{MathLib} `{Float32} `{Rand} `{SortLib} `{GeoMLib}.
(** The width and the height of the image, [Bounds().Dx()] and [Dy()]. *)
Context (imageW imageH : Z).

Definition NewParticle (image : Image) : Gen Particle :=
  a <- Float64 ;;
  let phi := (a * 2 * Pi)%float in
  c <- Float64 ;;
  let costheta := (c * 2 - 1)%float in
  u <- Float64 ;;
  let r := (worldRadius * Cbrt u)%float in
  let x0 := (r * Cos phi * Sqrt (1 - costheta * costheta))%float in
  let y0 := (r * Sin phi * Sqrt (1 - costheta * costheta))%float in
  let z0 := (r * costheta)%float in
  s <- Float64 ;;
  let speed := (s * 0.6 + 0.1)%float in
  n <- Intn 160 ;;
  let maxLife0 := int_add 80 n in
  r1 <- Float64 ;; r2 <- Float64 ;; r3 <- Float64 ;;
  c1 <- Intn 60 ;; c2 <- Intn 60 ;;
  gret {| x := x0; y := y0; z := z0;
          vx := x0 / 221 * speed * 0.8;
          vy := y0 / 221 * speed * 0.8;
          vz := z0 / 221 * speed * 0.8;
          angle := r1 * 2 * Pi;
          spin := (r2 * 2 - 1) * 0.05;
          baseScale := r3 * 0.18 + 0.12;
          life := maxLife0; maxLife := maxLife0;
          colorMix := color.mkRGBA (uint8 (180 + c1)) (uint8 (180 + c2)) 255 255;
          img := image |}.

(** The first half of [projected]: the position turned by the yaw about
    the vertical axis, then by the pitch, and moved 600 away from the
    camera: [x1], [y1] and [z2]. *)
Definition cameraSpace (p : Particle) (cameraYaw0 cameraPitch0 : float)
    : float * float * float :=
  let siny := Sin cameraYaw0 in
  let cosy := Cos cameraYaw0 in
  let x1 := (p.(x) * cosy + p.(z) * siny)%float in
  let z1 := (- p.(x) * siny + p.(z) * cosy)%float in
  let sinp := Sin cameraPitch0 in
  let cosp := Cos cameraPitch0 in
  let y1 := (p.(y) * cosp - z1 * sinp)%float in
  let z2 := (p.(y) * sinp + z1 * cosp + 600)%float in
  (x1, y1, z2).

Definition projected (p : Particle) (cameraYaw0 cameraPitch0 : float)
    : Projection :=
  let '(x1, y1, z2) := cameraSpace p cameraYaw0 cameraPitch0 in
  if (z2 <=? 10)%float then
    {| sx := 0; sy := 0; scale := 0; depth := z2; visible := false |}
  else
    let f := (focalLength / z2)%float in
    {| sx := x1 * f + 512; sy := y1 * f + 384;
       scale := p.(baseScale) * f * 2.0; depth := z2; visible := true |}.

(** [Game.spawn]: [for i := 0; i < n && len(g.particles) < maxParticles; i++]. *)
Fixpoint spawn (n : nat) (ps : list Particle) : Gen (list Particle) :=
  match n with
  | O => gret ps
  | S n' =>
      if Z.of_nat (length ps) <? maxParticles then
        p <- NewParticle smokeImage ;; spawn n' (ps ++ [p])
      else gret ps
  end.

(** The compaction of [Game.Update]. *)
Definition compact (ps : list Particle) : list Particle :=
  fst <$> List.filter snd (update <$> ps).

Definition Update (g : Game) : Gen Game :=
  let tick' := int_add g.(tick) 1 in
  ps1 <- (if Z.rem tick' 2 =? 0 then spawn (Z.to_nat spawnPerTick) g.(particles)
          else gret g.(particles)) ;;
  let ps2 := compact ps1 in
  ps3 <- (if Z.of_nat (length ps2) <? maxParticles / 3 then spawn 40 ps2
          else gret ps2) ;;
  gret {| particles := ps3;
          tick := tick';
          cameraYaw := g.(cameraYaw) + 0.004;
          cameraPitch := Sin (float64_of_int tick' * 0.002) * 0.15 |}.

(** The body of the first loop of [Game.Draw]. *)
Definition itemOf (yaw0 pitch0 : float) (p : Particle) : option drawItem :=
  let pr := projected p yaw0 pitch0 in
  if negb pr.(visible) then None
  else
    let lifeRatio := (float64_of_int p.(life) / float64_of_int p.(maxLife))%float in
    Some {| ip := p; isx := pr.(sx); isy := pr.(sy);
            iscale := pr.(scale); idepth := pr.(depth);
            alphaMult := lifeRatio * depthFade pr.(depth) |}.

(** [items], before and after [sort.Slice]. *)
Definition collectItems (g : Game) : list drawItem :=
  omap (itemOf g.(cameraYaw) g.(cameraPitch)) g.(particles).

Definition sortedItems (g : Game) : list drawItem :=
  sortSlice farther (collectItems g).

(** The body of the second loop of [Game.Draw]. *)
Definition spriteOf (it : drawItem) : Sprite :=
  let geo :=
    geoTranslate
      (geoScale
         (geoRotate
            (geoTranslate geoZero (- float64_of_int imageW / 2)
                                  (- float64_of_int imageH / 2))
            it.(ip).(angle))
         it.(iscale) it.(iscale))
      it.(isx) it.(isy) in
  let a0 := it.(alphaMult) in
  let a := if (a0 <? 0)%float then 0%float
           else if (1 <? a0)%float then 1%float else a0 in
  {| simg := it.(ip).(img); sgeo := geo;
     srf := float64_of_int it.(ip).(colorMix).(color.R) / 255.0;
     sgf := float64_of_int it.(ip).(colorMix).(color.G) / 255.0;
     sbf := float64_of_int it.(ip).(colorMix).(color.B) / 255.0;
     sa := a |}.

(** [Game.Draw]: the sprites handed to the renderer, in order. *)
Definition Draw (g : Game) : list Sprite := spriteOf <$> sortedItems g.

End WithLibraries.

End Cloud.

(** * Kinetic: the vectors of the ball pit

    The demo whose window title is "Kinetic Energy Visualizer"; of it,
    the vector arithmetic. *)
Module Kinetic.

Record Vector := mkVector { X : float; Y : float }.

(** The zero value [Vector{}]. *)
Definition zeroVector : Vector := {| X := 0; Y := 0 |}.

Definition Add (v o : Vector) : Vector :=
  {| X := v.(X) + o.(X); Y := v.(Y) + o.(Y) |}.

Definition Scale (v : Vector) (s : float) : Vector :=
  {| X := v.(X) * s; Y := v.(Y) * s |}.

Definition LengthSq (v : Vector) : float :=
  (v.(X) * v.(X) + v.(Y) * v.(Y))%float.

Definition Length (v : Vector) : float := Sqrt (LengthSq v).

Definition Normalized (v : Vector) : Vector :=
  let l := Length v in
  if (l =? 0)%float then zeroVector
  else {| X := v.(X) / l; Y := v.(Y) / l |}.

End Kinetic.

(** * Kinetic: the ball pit

    The rest of the demo "Kinetic Energy Visualizer": the balls, the
    walls, the physics and the game loop.  The package variables [balls]
    and [walls] are the fields of [World]; [dt], [e], [gravity],
    [screenW] and [screenH] are never assigned to. *)
Module KineticGame.

(** [Color] holds a [color.RGBA] wherever it is set. *)
Record Ball := mkBall {
  Pos : Kinetic.Vector;
  Vel : Kinetic.Vector;
  Radius : float;
  Mass : float;
  Color : color.RGBA
}.

Record Wall := mkWall {
  X : float; Y : float; W : float; H : float;
  wallColor : color.RGBA
}.

Record World := mkWorld {
  balls : list Ball;
  walls : list Wall
}.

Definition dt : float := 0.016.
Definition e : float := 0.8.
Definition gravity : Kinetic.Vector := {| Kinetic.X := 0; Kinetic.Y := 9.8 |}.
Definition screenW : Z := 800.
Definition screenH : Z := 800.
Definition BallRadius : float := 10.0.

(** The conversion [uint8(f)] of a [float64]: the fraction is dropped;
    Go leaves the result open when the value does not fit. *)
Definition uint8_of_float64 (f : float) : Z := uint8 (int_of_float64 f).

Definition applyForce (b : Ball) (f : Kinetic.Vector) : Ball :=
  let a := {| Kinetic.X := f.(Kinetic.X) / b.(Mass);
              Kinetic.Y := f.(Kinetic.Y) / b.(Mass) |} in
  {| Pos := b.(Pos);
     Vel := Kinetic.Add b.(Vel) {| Kinetic.X := a.(Kinetic.X) * dt;
                                   Kinetic.Y := a.(Kinetic.Y) * dt |};
     Radius := b.(Radius); Mass := b.(Mass); Color := b.(Color) |}.

Definition updatePosition (b : Ball) : Ball :=
  {| Pos := Kinetic.Add b.(Pos) {| Kinetic.X := b.(Vel).(Kinetic.X) * dt;
                                   Kinetic.Y := b.(Vel).(Kinetic.Y) * dt |};
     Vel := b.(Vel);
     Radius := b.(Radius); Mass := b.(Mass); Color := b.(Color) |}.

Definition circlesCollided (b1 b2 : Ball) : bool :=
  let dx := (b2.(Pos).(Kinetic.X) - b1.(Pos).(Kinetic.X))%float in
  let dy := (b2.(Pos).(Kinetic.Y) - b1.(Pos).(Kinetic.Y))%float in
  let dist := Sqrt (dx * dx + dy * dy) in
  (dist <? b1.(Radius) + b2.(Radius))%float.

(** [bounceBalls]: the two balls after the call. *)
Definition bounceBalls (b1 b2 : Ball) : Ball * Ball :=
  let normal := {| Kinetic.X := b2.(Pos).(Kinetic.X) - b1.(Pos).(Kinetic.X);
                   Kinetic.Y := b2.(Pos).(Kinetic.Y) - b1.(Pos).(Kinetic.Y) |} in
  let dist := Kinetic.Length normal in
  if (dist =? 0)%float then (b1, b2)
  else
    let n := Kinetic.Normalized normal in
    let rv := {| Kinetic.X := b2.(Vel).(Kinetic.X) - b1.(Vel).(Kinetic.X);
                 Kinetic.Y := b2.(Vel).(Kinetic.Y) - b1.(Vel).(Kinetic.Y) |} in
    let velAlongNormal :=
      (rv.(Kinetic.X) * n.(Kinetic.X) + rv.(Kinetic.Y) * n.(Kinetic.Y))%float in
    if (0 <? velAlongNormal)%float then (b1, b2)
    else
      let impulse0 := (- (1 + e) * velAlongNormal)%float in
      let impulse := (impulse0 / (1 / b1.(Mass) + 1 / b2.(Mass)))%float in
      let impulseVec := {| Kinetic.X := n.(Kinetic.X) * impulse;
                           Kinetic.Y := n.(Kinetic.Y) * impulse |} in
      let penetration := (b1.(Radius) + b2.(Radius) - dist)%float in
      let correction :=
        {| Kinetic.X := n.(Kinetic.X) * penetration / 2;
           Kinetic.Y := n.(Kinetic.Y) * penetration / 2 |} in
      ({| Pos := {| Kinetic.X := b1.(Pos).(Kinetic.X) - correction.(Kinetic.X);
                    Kinetic.Y := b1.(Pos).(Kinetic.Y) - correction.(Kinetic.Y) |};
          Vel := {| Kinetic.X := b1.(Vel).(Kinetic.X)
                                 - impulseVec.(Kinetic.X) / b1.(Mass);
                    Kinetic.Y := b1.(Vel).(Kinetic.Y)
                                 - impulseVec.(Kinetic.Y) / b1.(Mass) |};
          Radius := b1.(Radius); Mass := b1.(Mass); Color := b1.(Color) |},
       {| Pos := {| Kinetic.X := b2.(Pos).(Kinetic.X) + correction.(Kinetic.X);
                    Kinetic.Y := b2.(Pos).(Kinetic.Y) + correction.(Kinetic.Y) |};
          Vel := {| Kinetic.X := b2.(Vel).(Kinetic.X)
                                 + impulseVec.(Kinetic.X) / b2.(Mass);
                    Kinetic.Y := b2.(Vel).(Kinetic.Y)
                                 + impulseVec.(Kinetic.Y) / b2.(Mass) |};
          Radius := b2.(Radius); Mass := b2.(Mass); Color := b2.(Color) |}).

(** The four tests of [bounceWall], in the order it makes them. *)
Definition hitsTop (b : Ball) (w : Wall) : bool :=
  (w.(Y) <? b.(Pos).(Kinetic.Y) + b.(Radius))%float
  && (b.(Pos).(Kinetic.Y) + b.(Radius) <? w.(Y) + w.(H))%float
  && (w.(X) <? b.(Pos).(Kinetic.X))%float
  && (b.(Pos).(Kinetic.X) <? w.(X) + w.(W))%float
  && (0 <? b.(Vel).(Kinetic.Y))%float.

Definition hitsBottom (b : Ball) (w : Wall) : bool :=
  (b.(Pos).(Kinetic.Y) - b.(Radius) <? w.(Y) + w.(H))%float
  && (w.(Y) <? b.(Pos).(Kinetic.Y) - b.(Radius))%float
  && (w.(X) <? b.(Pos).(Kinetic.X))%float
  && (b.(Pos).(Kinetic.X) <? w.(X) + w.(W))%float
  && (b.(Vel).(Kinetic.Y) <? 0)%float.

Definition hitsLeft (b : Ball) (w : Wall) : bool :=
  (w.(X) <? b.(Pos).(Kinetic.X) + b.(Radius))%float
  && (b.(Pos).(Kinetic.X) + b.(Radius) <? w.(X) + w.(W))%float
  && (w.(Y) <? b.(Pos).(Kinetic.Y))%float
  && (b.(Pos).(Kinetic.Y) <? w.(Y) + w.(H))%float
  && (0 <? b.(Vel).(Kinetic.X))%float.

Definition hitsRight (b : Ball) (w : Wall) : bool :=
  (b.(Pos).(Kinetic.X) - b.(Radius) <? w.(X) + w.(W))%float
  && (w.(X) <? b.(Pos).(Kinetic.X) - b.(Radius))%float
  && (w.(Y) <? b.(Pos).(Kinetic.Y))%float
  && (b.(Pos).(Kinetic.Y) <? w.(Y) + w.(H))%float
  && (b.(Vel).(Kinetic.X) <? 0)%float.

(** [b.Pos.Y = y; b.Vel.Y *= -e] and [b.Pos.X = x; b.Vel.X *= -e]. *)
Definition reboundY (b : Ball) (y : float) : Ball :=
  {| Pos := {| Kinetic.X := b.(Pos).(Kinetic.X); Kinetic.Y := y |};
     Vel := {| Kinetic.X := b.(Vel).(Kinetic.X);
               Kinetic.Y := b.(Vel).(Kinetic.Y) * - e |};
     Radius := b.(Radius); Mass := b.(Mass); Color := b.(Color) |}.

Definition reboundX (b : Ball) (x : float) : Ball :=
  {| Pos := {| Kinetic.X := x; Kinetic.Y := b.(Pos).(Kinetic.Y) |};
     Vel := {| Kinetic.X := b.(Vel).(Kinetic.X) * - e;
               Kinetic.Y := b.(Vel).(Kinetic.Y) |};
     Radius := b.(Radius); Mass := b.(Mass); Color := b.(Color) |}.

Definition bounceWall (b : Ball) (w : Wall) : Ball :=
  if hitsTop b w then reboundY b (w.(Y) - b.(Radius))
  else if hitsBottom b w then reboundY b (w.(Y) + w.(H) + b.(Radius))
  else if hitsLeft b w then reboundX b (w.(X) - b.(Radius))
  else if hitsRight b w then reboundX b (w.(X) + w.(W) + b.(Radius))
  else b.

Definition getColorBySpeed (b : Ball) : color.RGBA :=
  let maxSpeedSq := 500.0%float in
  let speedSq := Min (Kinetic.LengthSq b.(Vel)) maxSpeedSq in
  let ratio := (speedSq / maxSpeedSq)%float in
  let r := uint8_of_float64 (Min (ratio * 2 * 255) 255) in
  let g := uint8_of_float64 (Min ((1 - Abs (ratio - 0.5)) * 2 * 255) 255) in
  let bVal := uint8_of_float64 (Min ((1 - ratio) * 2 * 255) 255) in
  color.mkRGBA r g bVal 255.

(** [b.Color = c] through the pointer. *)
Definition setColor (b : Ball) (c : color.RGBA) : Ball :=
  {| Pos := b.(Pos); Vel := b.(Vel);
     Radius := b.(Radius); Mass := b.(Mass); Color := c |}.

(** The body of the first loop of [Game.Update]. *)
Definition integrate (b : Ball) : Ball :=
  let b1 := updatePosition (applyForce b gravity) in
  setColor b1 (getColorBySpeed b1).

(** The body of the second loop: the walls, one after the other. *)
Definition bounceWalls (ws : list Wall) (b : Ball) : Ball :=
  foldl bounceWall b ws.

(** [for j := i + 1; j < len(balls); j++]; [n] is the number of turns
    left.  The two balls are distinct slots of the slice. *)
Fixpoint collideInner (n i j : nat) (bs : list Ball) : list Ball :=
  match n with
  | O => bs
  | S n' =>
      let bs' :=
        match bs !! i, bs !! j with
        | Some b1, Some b2 =>
            if circlesCollided b1 b2 then
              let '(b1', b2') := bounceBalls b1 b2 in
              <[j := b2']> (<[i := b1']> bs)
            else bs
        | _, _ => bs
        end in
      collideInner n' i (S j) bs'
  end.

(** [for i := 0; i < len(balls); i++]; [n] is the number of turns left. *)
Fixpoint collideOuter (n i : nat) (bs : list Ball) : list Ball :=
  match n with
  | O => bs
  | S n' => collideOuter n' (S i) (collideInner (length bs - S i) i (S i) bs)
  end.

Definition collideAll (bs : list Ball) : list Ball :=
  collideOuter (length bs) 0 bs.

Section WithLibraries.
Context `{Rand}.

(** [handleInput].  [click] is the cursor position when the left button
    was just pressed; [touch] is the position of the first touch that was
    just pressed.  A touch overrides the click. *)
Definition handleInput (click touch : option (Z * Z)) (bs : list Ball)
    : Gen (list Ball) :=
  let at_click :=
    match click with
    | Some (mx, my) => Some (float64_of_int mx, float64_of_int my)
    | None => None
    end in
  let at_spawn :=
    match touch with
    | Some (tx, ty) => Some (float64_of_int tx, float64_of_int ty)
    | None => at_click
    end in
  match at_spawn with
  | None => gret bs
  | Some (x0, y0) =>
      let x := Max BallRadius (Min x0 (float64_of_int screenW - BallRadius)) in
      let y := Max BallRadius (Min y0 (float64_of_int screenH - BallRadius)) in
      vx <- Intn 500 ;;
      vy <- Intn 500 ;;
      gret (bs ++ [ {| Pos := {| Kinetic.X := x; Kinetic.Y := y |};
                       Vel := {| Kinetic.X := float64_of_int (int_sub vx 250) / 100.0;
                                 Kinetic.Y := float64_of_int (int_sub vy 250) / 100.0 |};
                       Radius := 10; Mass := 1.0;
                       Color := color.mkRGBA 255 255 255 255 |} ])
  end.

(** [Game.Update]: input, integration, walls, pairs. *)
Definition Update (click touch : option (Z * Z)) (w : World) : Gen World :=
  bs0 <- handleInput click touch w.(balls) ;;
  let bs1 := integrate <$> bs0 in
  let bs2 := bounceWalls w.(walls) <$> bs1 in
  gret {| balls := collideAll bs2; walls := w.(walls) |}.

(** The loop of [initGame] that creates the balls. *)
Fixpoint initBalls (n : nat) (bs : list Ball) : Gen (list Ball) :=
  match n with
  | O => gret bs
  | S n' =>
      px <- Intn (screenW - 40) ;;
      py <- Intn (screenH / 4) ;;
      vx <- Intn 10 ;;
      vy <- Intn 10 ;;
      initBalls n'
        (bs ++ [ {| Pos := {| Kinetic.X := float64_of_int (int_add px 20);
                              Kinetic.Y := float64_of_int (int_add py 20) |};
                    Vel := {| Kinetic.X := float64_of_int (int_sub vx 5);
                              Kinetic.Y := float64_of_int (int_sub vy 5) |};
                    Radius := BallRadius; Mass := 1.0;
                    Color := color.mkRGBA 255 255 255 255 |} ])
  end.

(** The walls [initGame] defines: the four boundaries, the shelf and the
    pillar. *)
Definition initWalls : list Wall :=
  let wallColor0 := color.mkRGBA 100 100 100 255 in
  let wallThickness := 20.0%float in
  let gold := color.mkRGBA 200 150 0 255 in
  [ mkWall 0 0 (float64_of_int screenW) wallThickness wallColor0;
    mkWall 0 (float64_of_int screenH - wallThickness) (float64_of_int screenW)
           wallThickness wallColor0;
    mkWall 0 0 wallThickness (float64_of_int screenH) wallColor0;
    mkWall (float64_of_int screenW - wallThickness) 0 wallThickness
           (float64_of_int screenH) wallColor0;
    mkWall 100 650 350 30 gold;
    mkWall 450 500 50 180 gold ].

(** [initGame]: [make([]*Ball, 0, n)] panics on a negative capacity,
    which is [None].  The slice is a list: the limit that memory puts on
    [n] is not modelled. *)
Definition initGame (n : Z) : Gen (option World) :=
  if n <? 0 then gret None
  else bs <- initBalls (Z.to_nat n) [] ;;
       gret (Some {| balls := bs; walls := initWalls |}).

(** The states the game goes through: [main] starts it with 20 balls. *)
Inductive Reachable : World → Prop :=
  | reach_init r w : (initGame 20 r).1 = Some w → Reachable w
  | reach_update w click touch r :
      Reachable w → Reachable (Update click touch w r).1.

End WithLibraries.

End KineticGame.

(** * The runs of the demos that keep no pool

    The bubbles and the cloud are driven by [Update] alone: [Draw] reads
    the game and leaves it as it is. *)

(** The states the bubbles go through: the host calls [Update]; [Draw]
    leaves the game as it is. *)
Inductive bb_Reachable `{MathLib} `{Rand} : Bubbles.Game → Prop :=
  | bb_reach_zero : bb_Reachable Bubbles.zeroGame
  | bb_reach_update g r : bb_Reachable g → bb_Reachable (Bubbles.GameUpdate g r).1.

(** The states the cloud goes through. *)
Inductive cl_Reachable `{MathLib} `{Rand} : Cloud.Game → Prop :=
  | cl_reach_zero : cl_Reachable Cloud.zeroGame
  | cl_reach_update g r : cl_Reachable g → cl_Reachable (Cloud.Update g r).1.

(** * Sample libraries

    Instances of the library interfaces, to run the embedding on concrete
    inputs.  Nothing proved of the demos depends on them: every fact
    quantifies over the interfaces. *)
Module Sample.

(** A linear congruential source on 64 bits. *)
Definition next (s : Z) : Z :=
  (s * 6364136223846793005 + 1442695040888963407) mod 2 ^ 64.

Definition sampleFloat64 (s : Z) : float * Z :=
  ((of_uint63 (Uint63Axioms.of_Z ((s mod 2 ^ 64) / 2 ^ 11)) / 0x1p53)%float, next s).

Definition sampleIntn (n s : Z) : Z * Z := ((s / 2 ^ 33) mod n, next s).

Lemma sampleIntn_range n s : 0 < n → 0 ≤ (sampleIntn n s).1 < n.
Proof. intros Hn. simpl. now apply Z.mod_pos_bound. Qed.

Definition rand : Rand :=
  {| rng := Z; Float64 := sampleFloat64; Intn := sampleIntn;
     Intn_range := sampleIntn_range |}.

(** Truncated power series for the sine and the cosine; the three
    exponents the demos raise to for the power. *)
Definition sampleSin (t : float) : float :=
  (t - t * t * t / 6 + t * t * t * t * t / 120
   - t * t * t * t * t * t * t / 5040)%float.

Definition sampleCos (t : float) : float :=
  (1 - t * t / 2 + t * t * t * t / 24 - t * t * t * t * t * t / 720)%float.

Definition samplePow (b e : float) : float :=
  if (e =? 2)%float then (b * b)%float
  else if (e =? 1.5)%float then (b * PrimFloat.sqrt b)%float
  else (b * PrimFloat.sqrt (PrimFloat.sqrt b))%float.

(** Newton's iteration for the cube root, from [1]. *)
Fixpoint newtonCbrt (n : nat) (a t : float) : float :=
  match n with
  | O => t
  | S n' => newtonCbrt n' a ((2 * t + a / (t * t)) / 3)%float
  end.

Definition sampleCbrt (a : float) : float :=
  if (a =? 0)%float then a else newtonCbrt 60 a 1.

Definition math : MathLib :=
  {| Sin := sampleSin; Cos := sampleCos; Pow := samplePow; Cbrt := sampleCbrt |}.

(** Rounding to 24 significant bits by Veltkamp's splitting; values past
    the binary32 range go to infinity, values under it to a multiple of
    the least binary32 subnormal. *)
Definition sampleF32 (v : float) : float :=
  let a := PrimFloat.abs v in
  if (a <? 0x1p-126)%float then (v + 0x1.8p-97 - 0x1.8p-97)%float
  else if (0x1.fffffefp127 <=? a)%float then (v * infinity)%float
  else if (a <=? 0x1.fffffefp127)%float then
    let c := (v * 0x1.0000002p29)%float in (c - (c - v))%float
  else v.

Definition float32 : Float32 := {| f32 := sampleF32 |}.

(** The affine map [(a b tx; c d ty)], transformed as [ebiten.GeoM] is. *)
Record Affine := mkAffine {
  ma : float; mb : float; mc : float; md : float; mtx : float; mty : float
}.

Definition geom : GeoMLib :=
  {| GeoM := Affine;
     geoZero := mkAffine 1 0 0 1 0 0;
     geoTranslate m dx dy :=
       mkAffine m.(ma) m.(mb) m.(mc) m.(md) (m.(mtx) + dx) (m.(mty) + dy);
     geoRotate m t :=
       let s := sampleSin t in
       let c := sampleCos t in
       mkAffine (c * m.(ma) - s * m.(mc)) (c * m.(mb) - s * m.(md))
                (s * m.(ma) + c * m.(mc)) (s * m.(mb) + c * m.(md))
                (c * m.(mtx) - s * m.(mty)) (s * m.(mtx) + c * m.(mty));
     geoScale m sx sy :=
       mkAffine (m.(ma) * sx) (m.(mb) * sx) (m.(mc) * sy) (m.(md) * sy)
                (m.(mtx) * sx) (m.(mty) * sy);
     geoApply m px py :=
       ((m.(ma) * px + m.(mb) * py + m.(mtx))%float,
        (m.(mc) * px + m.(md) * py + m.(mty))%float) |}.











End Sample.

(* ===================================================================== *)
(** * Facts *)
(* ===================================================================== *)

(** ** Machine integers *)

Lemma int_wrap_small z : - 2 ^ 63 ≤ z < 2 ^ 63 → int_wrap z = z.
Proof.
  intros Hz. unfold int_wrap.
  rewrite Z.mod_small by lia. lia.
Qed.

Lemma int_add_small a b : - 2 ^ 63 ≤ a + b < 2 ^ 63 → int_add a b = a + b.
Proof. apply int_wrap_small. Qed.

Lemma uint16_small z : 0 ≤ z < 65536 → uint16 z = z.
Proof. intros Hz. unfold uint16. now rewrite Z.mod_small. Qed.

Lemma uint16_add_small a b : 0 ≤ a + b < 65536 → uint16_add a b = a + b.
Proof. apply uint16_small. Qed.

(** ** The pool: a linear scan over slots with an [active] flag *)

Section PoolFacts.
Context {P : Type} (isActive : P → bool).
Implicit Types (ps : list P) (p q : P) (i : nat).

Lemma activeCount_cons p ps :
  activeCount isActive (p :: ps)
  = ((if isActive p then 1 else 0) + activeCount isActive ps)%nat.
Proof. unfold activeCount. simpl. now destruct (isActive p). Qed.

Lemma activeCount_le ps : (activeCount isActive ps ≤ length ps)%nat.
Proof.
  induction ps as [|p ps IH]; [reflexivity|].
  rewrite activeCount_cons. simpl. destruct (isActive p); lia.
Qed.

Lemma activeCount_full ps :
  activeCount isActive ps = length ps ↔ Forall (λ p, isActive p = true) ps.
Proof.
  induction ps as [|p ps IH].
  - split; [constructor | reflexivity].
  - rewrite activeCount_cons, Forall_cons. simpl.
    pose proof (activeCount_le ps) as Hle.
    destruct (isActive p); split.
    + intros Hc. split; [reflexivity | apply IH; lia].
    + intros [_ Hall]. apply IH in Hall. lia.
    + lia.
    + intros [Hp _]. discriminate.
Qed.

Lemma firstInactive_Some ps i :
  firstInactive isActive ps = Some i →
  ∃ p, ps !! i = Some p ∧ isActive p = false
       ∧ ∀ j q, ps !! j = Some q → (j < i)%nat → isActive q = true.
Proof.
  unfold firstInactive. intros Hf.
  destruct (list_find _ ps) as [[j p]|] eqn:E; simplify_eq/=.
  apply list_find_Some in E as (Hl & Hp & Hbefore).
  exists p. split_and!; [done..|].
  intros j q Hq Hlt. specialize (Hbefore j q Hq Hlt).
  now destruct (isActive q).
Qed.

Lemma firstInactive_None ps :
  firstInactive isActive ps = None ↔ activeCount isActive ps = length ps.
Proof.
  rewrite activeCount_full. unfold firstInactive.
  rewrite fmap_None, list_find_None.
  apply Forall_iff. intros p. now destruct (isActive p).
Qed.

Lemma firstInactive_is_Some ps :
  (activeCount isActive ps < length ps)%nat →
  is_Some (firstInactive isActive ps).
Proof.
  intros Hlt. destruct (firstInactive isActive ps) eqn:E; [by eexists|].
  apply firstInactive_None in E. lia.
Qed.

Lemma activeCount_app ps1 ps2 :
  activeCount isActive (ps1 ++ ps2)
  = (activeCount isActive ps1 + activeCount isActive ps2)%nat.
Proof. unfold activeCount. now rewrite List.filter_app, length_app. Qed.

(** Overwriting a slot changes the count by the flags of the old and the
    new content. *)
Lemma activeCount_insert ps i p q :
  ps !! i = Some p →
  (activeCount isActive (<[i := q]> ps) + (if isActive p then 1 else 0)
   = activeCount isActive ps + (if isActive q then 1 else 0))%nat.
Proof.
  revert i. induction ps as [|p0 ps IH]; intros [|i] Hl; simplify_eq/=.
  - rewrite !activeCount_cons. lia.
  - rewrite !activeCount_cons. specialize (IH i Hl). lia.
Qed.

Lemma activeCount_occupy ps i p q :
  ps !! i = Some p → isActive p = false → isActive q = true →
  activeCount isActive (<[i := q]> ps) = S (activeCount isActive ps).
Proof.
  intros Hl Hp Hq. pose proof (activeCount_insert ps i p q Hl) as E.
  rewrite Hp, Hq in E. lia.
Qed.

End PoolFacts.

(** ** Random draws *)

(** Runs the draws of a computation one after the other. *)
Ltac gen_run :=
  unfold gbind, gret in *;
  repeat match goal with
         | |- context [let '(_, _) := ?e in _] => destruct e eqn:?
         end.

Lemma Intn_fst `{Rand} n r z r' : 0 < n → Intn n r = (z, r') → 0 ≤ z < n.
Proof. intros Hn E. pose proof (Intn_range n r Hn) as Hr. now rewrite E in Hr. Qed.

(** ** Smoke and fire *)

Section SmokeFireFacts.
Import SmokeFire.
Context `{MathLib} `{Float32} `{Rand} `{GeoMLib}.
Context (smokeImageW smokeImageH : float).
Implicit Types (p q : Particle) (ps : list Particle) (g : Game).

(** What the life-cycle invariant says of one slot: a slot in use is
    younger than its life span. *)
Definition sf_aged (p : Particle) : Prop :=
  p.(active) = true → 0 ≤ p.(lifetime) < p.(maxLife) ∧ p.(maxLife) < 2 ^ 63.

Lemma sf_newParticle_fresh ex0 ey0 t r :
  let p := (newParticle ex0 ey0 t r).1 in
  p.(active) = true ∧ p.(lifetime) = 0 ∧ 45 ≤ p.(maxLife) < 300.
Proof.
  unfold newParticle. destruct t; gen_run; simpl.
  - match goal with E : Intn 60 _ = _ |- _ => apply Intn_fst in E; [|lia] end.
    rewrite int_add_small by lia. lia.
  - match goal with E : Intn 30 _ = _ |- _ => apply Intn_fst in E; [|lia] end.
    rewrite int_add_small by lia. lia.
Qed.

Lemma sf_newParticle_aged ex0 ey0 t r : sf_aged (newParticle ex0 ey0 t r).1.
Proof.
  pose proof (sf_newParticle_fresh ex0 ey0 t r) as (_ & Hl & Hm).
  intros _. simpl in *. lia.
Qed.

Lemma sf_setVelocity_aged p a b : sf_aged p → sf_aged (setVelocity p a b).
Proof. exact id. Qed.

(** One tick of a slot in use: the age goes up by one, without wrapping. *)
Lemma sf_update_lifetime p :
  p.(active) = true → 0 ≤ p.(lifetime) < p.(maxLife) → p.(maxLife) < 2 ^ 63 →
  (update p).(lifetime) = p.(lifetime) + 1 ∧ (update p).(maxLife) = p.(maxLife)
  ∧ (update p).(active) = negb (p.(maxLife) <=? p.(lifetime) + 1).
Proof.
  intros Ha Hl Hm. unfold update. rewrite Ha. simpl.
  rewrite int_add_small by lia.
  destruct (p.(lifetime) + 1 >=? p.(maxLife)) eqn:E; simpl;
    (split; [reflexivity|split; [reflexivity|]]); symmetry.
  - apply negb_false_iff. lia.
  - apply negb_true_iff. lia.
Qed.

Lemma sf_tick_fields p :
  (tick p).(lifetime) = (update p).(lifetime)
  ∧ (tick p).(maxLife) = (update p).(maxLife)
  ∧ (tick p).(active)
    = p.(active) && (update p).(active) && negb (offScreen (update p)).
Proof.
  unfold tick. destruct p.(active) eqn:Ha.
  - destruct (offScreen (update p)); simpl; rewrite ?andb_true_r, ?andb_false_r; done.
  - unfold update. rewrite Ha. simpl. done.
Qed.

Lemma sf_tick_aged p : sf_aged p → sf_aged (tick p).
Proof.
  intros Hp Ha. destruct (sf_tick_fields p) as (El & Em & Eact).
  rewrite Eact in Ha. apply andb_true_iff in Ha as [Ha Hoff].
  apply andb_true_iff in Ha as [Ha Hup].
  destruct (Hp Ha) as [Hl Hm].
  destruct (sf_update_lifetime p Ha Hl Hm) as (El' & Em' & Eact').
  rewrite El, Em, El', Em'. rewrite Eact' in Hup.
  apply negb_true_iff in Hup. lia.
Qed.

(** The invariant of the pool: its length is fixed and every slot in use
    is younger than its life span. *)
Definition sf_pool_inv (n : nat) ps : Prop :=
  length ps = n ∧ Forall sf_aged ps.

Lemma sf_pool_inv_occupy n ps i p :
  sf_pool_inv n ps → sf_aged p → sf_pool_inv n (<[i := p]> ps).
Proof.
  intros [Hlen Hall] Hp. split.
  - now rewrite length_insert.
  - now apply Forall_insert.
Qed.

Lemma sf_spawnLoop_inv k n e ps r :
  sf_pool_inv n ps → sf_pool_inv n (spawnLoop k e ps r).1.
Proof.
  revert ps r. induction k as [|k IH]; intros ps r Hinv; simpl; [done|].
  destruct (allocateParticle ps) as [i|]; [|now apply IH].
  unfold gbind.
  destruct (newParticle _ _ _ r) as [p r'] eqn:E.
  apply IH, sf_pool_inv_occupy; [done|].
  change p with (p, r').1. rewrite <- E. apply sf_newParticle_aged.
Qed.

Lemma sf_explosionLoop_inv k n ex0 ey0 ps r :
  sf_pool_inv n ps → sf_pool_inv n (explosionLoop k ex0 ey0 ps r).1.
Proof.
  revert ps r. induction k as [|k IH]; intros ps r Hinv; simpl; [done|].
  destruct (allocateParticle ps) as [i|]; [|done].
  unfold gbind.
  destruct (newParticle _ _ _ r) as [p r1] eqn:E.
  destruct (Float64 r1) as [ba r2]. destruct (Float64 r2) as [bsp r3].
  apply IH, sf_pool_inv_occupy; [done|].
  apply sf_setVelocity_aged.
  change p with (p, r1).1. rewrite <- E. apply sf_newParticle_aged.
Qed.

Lemma sf_spawn_inv n e ps r :
  sf_pool_inv n ps → sf_pool_inv n (spawn e ps r).1.2.
Proof.
  intros Hinv. unfold spawn.
  destruct (negb _); [done|].
  unfold gbind, gret.
  match goal with |- context [spawnLoop 2 ?e' ps r] =>
    pose proof (sf_spawnLoop_inv 2 n e' ps r Hinv) as Hl;
    destruct (spawnLoop 2 e' ps r) end.
  done.
Qed.

Lemma sf_spawnAll_inv n es ps r :
  sf_pool_inv n ps → sf_pool_inv n (spawnAll es ps r).1.2.
Proof.
  revert ps r. induction es as [|e es IH]; intros ps r Hinv; simpl; [done|].
  unfold gbind, gret.
  pose proof (sf_spawn_inv n e ps r Hinv) as Hs.
  destruct (spawn e ps r) as [eps r1]. simpl in Hs.
  specialize (IH eps.2 r1 Hs).
  destruct (spawnAll es eps.2 r1) as [rest r2]. done.
Qed.

Lemma sf_spawnPhase_inv n click g r :
  sf_pool_inv n g.(particles) → sf_pool_inv n (spawnPhase click g r).1.2.
Proof.
  intros Hinv. unfold spawnPhase, gbind.
  destruct click as [[mx my]|].
  - pose proof (sf_explosionLoop_inv 500 n (float64_of_int mx)
                  (float64_of_int my) g.(particles) r Hinv) as He.
    unfold spawnExplosion.
    destruct (explosionLoop _ _ _ _ r) as [ps1 r1]. now apply sf_spawnAll_inv.
  - now apply sf_spawnAll_inv.
Qed.

Lemma sf_tick_inv n ps : sf_pool_inv n ps → sf_pool_inv n (tick <$> ps).
Proof.
  intros [Hlen Hall]. split.
  - now rewrite length_fmap.
  - apply Forall_fmap. eapply Forall_impl; [exact Hall|].
    intros p. apply sf_tick_aged.
Qed.

Lemma sf_Update_particles click g r :
  (Update click g r).1.(particles) = tick <$> (spawnPhase click g r).1.2.
Proof. unfold Update, gbind, gret. now destruct (spawnPhase click g r). Qed.

Lemma sf_reachable_inv g :
  Reachable smokeImageW smokeImageH g →
  sf_pool_inv (Z.to_nat maxParticles) g.(particles).
Proof.
  induction 1 as [|g click r _ IH|g _ IH].
  - split; [apply length_replicate|].
    apply Forall_replicate. intros Ha. discriminate.
  - rewrite sf_Update_particles. now apply sf_tick_inv, sf_spawnPhase_inv.
  - exact IH.
Qed.

End SmokeFireFacts.

(** A burst creates as many particles as it was asked for or as there are
    free slots, whichever is less, and leaves the slots in use alone. *)
Lemma sf_explosionLoop_count `{MathLib} `{Rand} k ex0 ey0
    (ps : list SmokeFire.Particle) r :
  let ps' := (SmokeFire.explosionLoop k ex0 ey0 ps r).1 in
  length ps' = length ps
  ∧ activeCount SmokeFire.active ps'
    = (activeCount SmokeFire.active ps
       + k `min` (length ps - activeCount SmokeFire.active ps))%nat
  ∧ ∀ i p, ps !! i = Some p → SmokeFire.active p = true → ps' !! i = Some p.
Proof.
  revert ps r. induction k as [|k IH]; intros ps r ps'; subst ps';
    cbn [SmokeFire.explosionLoop].
  { split_and!; [done|simpl; lia|done]. }
  pose proof (activeCount_le SmokeFire.active ps) as Hle.
  unfold SmokeFire.allocateParticle.
  destruct (firstInactive SmokeFire.active ps) as [i|] eqn:Ea.
  - apply firstInactive_Some in Ea as (p0 & Hi & Hp0 & _).
    unfold gbind.
    destruct (SmokeFire.newParticle _ _ _ r) as [p r1] eqn:E.
    destruct (Float64 r1) as [ba r2]. destruct (Float64 r2) as [bsp r3].
    set (q := SmokeFire.setVelocity p _ _).
    assert (SmokeFire.active q = true) as Hq.
    { pose proof (sf_newParticle_fresh ex0 ey0 SmokeFire.TypeFire r) as Hf.
      rewrite E in Hf. simpl in Hf. apply Hf. }
    destruct (IH (<[i := q]> ps) r3) as (Hlen & Hcnt & Hkeep).
    pose proof (activeCount_occupy SmokeFire.active ps i p0 q Hi Hp0 Hq) as Hc.
    pose proof (activeCount_le SmokeFire.active (<[i := q]> ps)) as Hle'.
    rewrite length_insert in Hlen, Hcnt, Hle'.
    split_and!; [done|lia|].
    intros j p' Hj Hact. apply Hkeep; [|done].
    rewrite list_lookup_insert_ne; [done|]. intros ->. congruence.
  - apply firstInactive_None in Ea. unfold gret. cbn [fst].
    split_and!; [done|lia|done].
Qed.

(** ** Depth fire *)

Section ConcertFacts.
Import Concert.
Context `{MathLib} `{Float32} `{Rand} `{GeoMLib}.
Context (fireImageW fireImageH : float).
Implicit Types (p q : Particle) (ps : list Particle) (g : Game).

Lemma cc_newFireParticle_fresh x0 y0 r :
  let p := (newFireParticle x0 y0 r).1 in
  p.(active) = true ∧ p.(lifetime) = 0 ∧ 40 ≤ p.(maxLife) < 80.
Proof.
  unfold newFireParticle. gen_run. simpl.
  match goal with E : Intn 40 _ = _ |- _ => apply Intn_fst in E; [|lia] end.
  rewrite int_add_small by lia. lia.
Qed.

Lemma cc_explosionLoop_count k x0 y0 ps r :
  let ps' := (explosionLoop k x0 y0 ps r).1 in
  length ps' = length ps
  ∧ activeCount active ps'
    = (activeCount active ps + k `min` (length ps - activeCount active ps))%nat
  ∧ ∀ i p, ps !! i = Some p → active p = true → ps' !! i = Some p.
Proof.
  revert ps r. induction k as [|k IH]; intros ps r ps'; subst ps';
    cbn [explosionLoop].
  { split_and!; [done|simpl; lia|done]. }
  pose proof (activeCount_le active ps) as Hle.
  unfold allocateParticle.
  destruct (firstInactive active ps) as [i|] eqn:Ea.
  - apply firstInactive_Some in Ea as (p0 & Hi & Hp0 & _).
    unfold gbind.
    destruct (newFireParticle _ _ r) as [q r1] eqn:E.
    assert (active q = true) as Hq.
    { pose proof (cc_newFireParticle_fresh x0 y0 r) as Hf.
      rewrite E in Hf. simpl in Hf. apply Hf. }
    destruct (IH (<[i := q]> ps) r1) as (Hlen & Hcnt & Hkeep).
    pose proof (activeCount_occupy active ps i p0 q Hi Hp0 Hq) as Hc.
    pose proof (activeCount_le active (<[i := q]> ps)) as Hle'.
    rewrite length_insert in Hlen, Hcnt, Hle'.
    split_and!; [done|lia|].
    intros j p' Hj Hact. apply Hkeep; [|done].
    rewrite list_lookup_insert_ne; [done|]. intros ->. congruence.
  - apply firstInactive_None in Ea. unfold gret. cbn [fst].
    split_and!; [done|lia|done].
Qed.

Lemma cc_Update_particles click g r :
  (Update click g r).1.(particles) = tick <$> (spawnPhase click g r).1.
Proof. unfold Update, gbind, gret. now destruct (spawnPhase click g r). Qed.

Lemma cc_spawnPhase_length click g r :
  length (spawnPhase click g r).1 = length g.(particles).
Proof.
  unfold spawnPhase. destruct click as [[mx my]|]; [|done].
  apply cc_explosionLoop_count.
Qed.

Lemma cc_reachable_length g :
  Reachable fireImageW fireImageH g →
  length g.(particles) = Z.to_nat maxParticles.
Proof.
  induction 1 as [|g click r _ IH|g _ IH].
  - apply length_replicate.
  - now rewrite cc_Update_particles, length_fmap, cc_spawnPhase_length.
  - exact IH.
Qed.

End ConcertFacts.

(** ** The pool contract *)

(** What the linear scan guarantees on a pool of any content. *)
Lemma pool_allocate_facts {P} (isActive : P → bool) (ps : list P) :
  (activeCount isActive ps ≤ length ps)%nat
  ∧ (∀ i, firstInactive isActive ps = Some i →
          ∃ p, ps !! i = Some p ∧ isActive p = false)
  ∧ ((activeCount isActive ps < length ps)%nat →
     is_Some (firstInactive isActive ps))
  ∧ (firstInactive isActive ps = None ↔ activeCount isActive ps = length ps).
Proof.
  split_and!.
  - apply activeCount_le.
  - intros i Hi. apply firstInactive_Some in Hi as (p & Hp & Hf & _). eauto.
  - apply firstInactive_is_Some.
  - apply firstInactive_None.
Qed.

(** C1.  In every state the smoke-and-fire and the depth-fire games reach,
    the pool holds exactly [maxParticles] slots, so the count of active
    particles never exceeds the capacity; [allocateParticle] returns an
    inactive slot whenever one exists, and [nil] exactly when the active
    count equals the capacity. *)
Theorem pool_capacity_and_allocation
    `{MathLib} `{Float32} `{Rand} `{GeoMLib} (texW texH : float) :
  (∀ g, SmokeFire.Reachable texW texH g →
     let ps := g.(SmokeFire.particles) in
     let n := Z.of_nat (activeCount SmokeFire.active ps) in
     Z.of_nat (length ps) = SmokeFire.maxParticles
     ∧ n ≤ SmokeFire.maxParticles
     ∧ (∀ i, SmokeFire.allocateParticle ps = Some i →
             ∃ p, ps !! i = Some p ∧ SmokeFire.active p = false)
     ∧ (n < SmokeFire.maxParticles → is_Some (SmokeFire.allocateParticle ps))
     ∧ (SmokeFire.allocateParticle ps = None ↔ n = SmokeFire.maxParticles))
  ∧ (∀ g, Concert.Reachable texW texH g →
     let ps := g.(Concert.particles) in
     let n := Z.of_nat (activeCount Concert.active ps) in
     Z.of_nat (length ps) = Concert.maxParticles
     ∧ n ≤ Concert.maxParticles
     ∧ (∀ i, Concert.allocateParticle ps = Some i →
             ∃ p, ps !! i = Some p ∧ Concert.active p = false)
     ∧ (n < Concert.maxParticles → is_Some (Concert.allocateParticle ps))
     ∧ (Concert.allocateParticle ps = None ↔ n = Concert.maxParticles)).
Proof.
  split; intros g Hg ps n; subst ps n.
  - apply sf_reachable_inv in Hg as [Hlen _].
    pose proof (pool_allocate_facts SmokeFire.active g.(SmokeFire.particles))
      as (Hle & Hsome & Hfree & Hnone).
    unfold SmokeFire.allocateParticle. rewrite Hnone.
    assert (Z.of_nat (length g.(SmokeFire.particles)) = SmokeFire.maxParticles)
      as Hcap by (rewrite Hlen; reflexivity).
    split_and!; [done|lia|done|intros; apply Hfree; lia|lia].
  - apply cc_reachable_length in Hg as Hlen.
    pose proof (pool_allocate_facts Concert.active g.(Concert.particles))
      as (Hle & Hsome & Hfree & Hnone).
    unfold Concert.allocateParticle. rewrite Hnone.
    assert (Z.of_nat (length g.(Concert.particles)) = Concert.maxParticles)
      as Hcap by (rewrite Hlen; reflexivity).
    split_and!; [done|lia|done|intros; apply Hfree; lia|lia].
Qed.

(** C4.  A burst of [k] particles against a pool with [F] free slots
    creates exactly [min k F] of them, in slots that were free, and stops
    there: the loop returns the pool, it has no error to report.
    [spawnExplosion] is the loop at [k = 500] (smoke and fire) and at
    [k = 600] (depth fire). *)
Theorem burst_creates_min_requested_free `{MathLib} `{Rand} :
  (∀ (k : nat) px py (ps : list SmokeFire.Particle) r,
     let ps' := (SmokeFire.explosionLoop k px py ps r).1 in
     let free := (length ps - activeCount SmokeFire.active ps)%nat in
     length ps' = length ps
     ∧ activeCount SmokeFire.active ps'
       = (activeCount SmokeFire.active ps + k `min` free)%nat
     ∧ (∀ i p, ps !! i = Some p → SmokeFire.active p = true → ps' !! i = Some p)
     ∧ SmokeFire.spawnExplosion px py ps = SmokeFire.explosionLoop 500 px py ps)
  ∧ (∀ (k : nat) px py (ps : list Concert.Particle) r,
     let ps' := (Concert.explosionLoop k px py ps r).1 in
     let free := (length ps - activeCount Concert.active ps)%nat in
     length ps' = length ps
     ∧ activeCount Concert.active ps'
       = (activeCount Concert.active ps + k `min` free)%nat
     ∧ (∀ i p, ps !! i = Some p → Concert.active p = true → ps' !! i = Some p)
     ∧ Concert.spawnExplosion px py ps = Concert.explosionLoop 600 px py ps).
Proof.
  split; intros k px py ps r ps' free; subst ps' free.
  - destruct (sf_explosionLoop_count k px py ps r) as (Hlen & Hcnt & Hkeep).
    split_and!; [done..|reflexivity].
  - destruct (cc_explosionLoop_count k px py ps r) as (Hlen & Hcnt & Hkeep).
    split_and!; [done..|reflexivity].
Qed.

(** C2.  On every tick of the smoke-and-fire game, a particle that is
    active when the particle loop of [Update] reaches it has
    [0 ≤ lifetime < maxLife]; the loop raises its age by one, and it leaves
    the particle inactive exactly when the raised age equals the life span
    or the position it was moved to is outside the margin. *)
Theorem active_age_below_lifespan
    `{MathLib} `{Float32} `{Rand} `{GeoMLib} (texW texH : float)
    (g : SmokeFire.Game) (click : option (Z * Z)) (r : rng)
    (p : SmokeFire.Particle) :
  SmokeFire.Reachable texW texH g →
  p ∈ (SmokeFire.spawnPhase click g r).1.2 →
  SmokeFire.active p = true →
  0 ≤ SmokeFire.lifetime p < SmokeFire.maxLife p
  ∧ SmokeFire.lifetime (SmokeFire.tick p) = SmokeFire.lifetime p + 1
  ∧ SmokeFire.maxLife (SmokeFire.tick p) = SmokeFire.maxLife p
  ∧ (SmokeFire.active (SmokeFire.tick p) = false
     ↔ SmokeFire.lifetime (SmokeFire.tick p) = SmokeFire.maxLife p
       ∨ SmokeFire.offScreen (SmokeFire.update p) = true)
  ∧ (SmokeFire.Update click g r).1.(SmokeFire.particles)
    = SmokeFire.tick <$> (SmokeFire.spawnPhase click g r).1.2.
Proof.
  intros Hg Hp Ha.
  apply (sf_reachable_inv texW texH) in Hg.
  apply (sf_spawnPhase_inv _ click g r) in Hg as [_ Hall].
  rewrite Forall_forall in Hall. destruct (Hall p Hp Ha) as [Hl Hm].
  destruct (sf_update_lifetime p Ha Hl Hm) as (El & Em & Eact).
  destruct (sf_tick_fields p) as (Tl & Tm & Tact).
  rewrite Tl, Tm, El, Em, Tact, Ha, Eact.
  split_and!; [lia..| |apply sf_Update_particles].
  destruct (SmokeFire.maxLife p <=? SmokeFire.lifetime p + 1) eqn:E;
    destruct (SmokeFire.offScreen (SmokeFire.update p)); simpl;
    (split; [intros Hoff | intros [Heq|Hoff]]); try done; try lia; auto;
    left; lia.
Qed.

(** The invariant at work: a click at (100, 100) on the fresh
    smoke-and-fire game, and the first slot of the pool the particle loop
    then finds. *)
Lemma active_age_below_lifespan_witness :
  let lib := (Sample.math, Sample.float32, Sample.rand, Sample.geom) in
  let ps := (@SmokeFire.spawnPhase Sample.math Sample.rand
               (Some (100, 100)) SmokeFire.NewGame (42 : Z)).1.2 in
  let p := default SmokeFire.zeroParticle (ps !! 0%nat) in
  SmokeFire.active p = true
  ∧ 0 ≤ SmokeFire.lifetime p < SmokeFire.maxLife p
  ∧ SmokeFire.lifetime (SmokeFire.tick p) = SmokeFire.lifetime p + 1.
Proof.
  cbv zeta.
  assert (SmokeFire.active
            (default SmokeFire.zeroParticle
               ((@SmokeFire.spawnPhase Sample.math Sample.rand
                   (Some (100, 100)) SmokeFire.NewGame (42 : Z)).1.2 !! 0%nat))
          = true) as Ha by (vm_compute; reflexivity).
  split; [exact Ha|].
  pose proof (@active_age_below_lifespan Sample.math Sample.float32
                Sample.rand Sample.geom 32 32 SmokeFire.NewGame
                (Some (100, 100)) (42 : Z) _
                (SmokeFire.reach_new 32 32)
                ltac:(apply (list_elem_of_lookup_2 _ 0%nat); vm_compute; reflexivity)
                Ha) as (Hage & Hnext & _).
  exact (conj Hage Hnext).
Defined.

(** ** The order of binary64 values

    [<] and [<=] on [float64] are the kernel's [ltb] and [leb]; their
    specification compares sign, exponent and mantissa.  Away from NaN the
    comparison is a total preorder. *)

Section FloatOrder.
Local Open Scope float_scope.

(** A rank that orders the values as the comparison does. *)
Definition SFrank (s : spec_float) : option (Z * Z * Z) :=
  match s with
  | S754_nan => None
  | S754_infinity true => Some (-2, 0, 0)%Z
  | S754_finite true m e => Some (-1, - e, - Z.pos m)%Z
  | S754_zero _ => Some (0, 0, 0)%Z
  | S754_finite false m e => Some (1, e, Z.pos m)%Z
  | S754_infinity false => Some (2, 0, 0)%Z
  end.

Definition lex3 (a b : Z * Z * Z) : comparison :=
  match (a.1.1 ?= b.1.1)%Z with
  | Eq => match (a.1.2 ?= b.1.2)%Z with
          | Eq => (a.2 ?= b.2)%Z
          | c => c
          end
  | c => c
  end.

Lemma lex3_Lt a b :
  lex3 a b = Lt ↔
  (a.1.1 < b.1.1 ∨ a.1.1 = b.1.1 ∧ (a.1.2 < b.1.2 ∨ a.1.2 = b.1.2 ∧ a.2 < b.2))%Z.
Proof.
  unfold lex3.
  destruct (Z.compare_spec a.1.1 b.1.1), (Z.compare_spec a.1.2 b.1.2),
    (Z.compare_spec a.2 b.2); split; intros; try done; lia.
Qed.

Lemma lex3_Gt a b :
  lex3 a b = Gt ↔
  (b.1.1 < a.1.1 ∨ a.1.1 = b.1.1 ∧ (b.1.2 < a.1.2 ∨ a.1.2 = b.1.2 ∧ b.2 < a.2))%Z.
Proof.
  unfold lex3.
  destruct (Z.compare_spec a.1.1 b.1.1), (Z.compare_spec a.1.2 b.1.2),
    (Z.compare_spec a.2 b.2); split; intros; try done; lia.
Qed.

Lemma SFcompare_rank x y :
  SFcompare x y
  = match SFrank x, SFrank y with
    | Some a, Some b => Some (lex3 a b)
    | _, _ => None
    end.
Proof.
  destruct x as [[]|[]| |[] mx ex], y as [[]|[]| |[] my ey]; try reflexivity;
    cbn [SFcompare SFrank]; f_equal; unfold lex3; cbn [fst snd];
    change (Pos.compare_cont Eq mx my) with (Z.pos mx ?= Z.pos my)%Z.
  rewrite Z.compare_refl, (Z.compare_opp ex ey), (Z.compare_opp (Z.pos mx)).
    rewrite (Z.compare_antisym ex ey), (Z.compare_antisym (Z.pos mx) (Z.pos my)).
    now destruct (ex ?= ey)%Z.
Qed.

Definition notNaN (f : float) : Prop := is_nan f = false.

Lemma notNaN_rank f : notNaN f → ∃ a, SFrank (Prim2SF f) = Some a.
Proof.
  unfold notNaN, is_nan. rewrite FloatAxioms.eqb_spec. unfold SFeqb.
  rewrite SFcompare_rank.
  destruct (SFrank (Prim2SF f)) as [a|]; [by eexists | done].
Qed.

Lemma ltb_rank a b :
  (a <? b) = true ↔
  ∃ ra rb, SFrank (Prim2SF a) = Some ra ∧ SFrank (Prim2SF b) = Some rb
           ∧ lex3 ra rb = Lt.
Proof.
  rewrite ltb_spec. unfold SFltb. rewrite SFcompare_rank.
  destruct (SFrank (Prim2SF a)) as [ra|], (SFrank (Prim2SF b)) as [rb|];
    split; try done; try (intros (? & ? & ? & ? & ?); done).
  - destruct (lex3 ra rb) eqn:E; try done. intros _. by exists ra, rb.
  - intros (ra' & rb' & Ha & Hb & Hlt). simplify_eq. by rewrite Hlt.
Qed.

Lemma leb_rank a b :
  (a <=? b) = true ↔
  ∃ ra rb, SFrank (Prim2SF a) = Some ra ∧ SFrank (Prim2SF b) = Some rb
           ∧ lex3 ra rb ≠ Gt.
Proof.
  rewrite leb_spec. unfold SFleb. rewrite SFcompare_rank.
  destruct (SFrank (Prim2SF a)) as [ra|], (SFrank (Prim2SF b)) as [rb|];
    split; try done; try (intros (? & ? & ? & ? & ?); done).
  - destruct (lex3 ra rb) eqn:E; try done; intros _; exists ra, rb;
      rewrite E; done.
  - intros (ra' & rb' & Ha & Hb & Hne). simplify_eq. by destruct (lex3 ra' rb').
Qed.

(** [a < b] excludes [b <= a]. *)
Lemma ltb_not_leb a b : (a <? b) = true → (b <=? a) = false.
Proof.
  intros (ra & rb & Ha & Hb & Hlt)%ltb_rank.
  destruct (b <=? a) eqn:E; [|done].
  apply leb_rank in E as (rb' & ra' & Hb' & Ha' & Hne). simplify_eq.
  apply lex3_Lt in Hlt. exfalso. apply Hne, lex3_Gt. lia.
Qed.

(** Away from NaN, [not (a < b)] is [b <= a]. *)
Lemma not_ltb_leb a b : notNaN a → notNaN b → (a <? b) = false → (b <=? a) = true.
Proof.
  intros [ra Ha]%notNaN_rank [rb Hb]%notNaN_rank Hlt.
  apply leb_rank. exists rb, ra. split_and!; [done..|].
  intros Hgt%lex3_Gt. rewrite <- not_true_iff_false in Hlt. apply Hlt.
  apply ltb_rank. exists ra, rb. split_and!; [done..|]. apply lex3_Lt. lia.
Qed.

Lemma ltb_irrefl a : (a <? a) = false.
Proof.
  destruct (a <? a) eqn:E; [|done].
  apply ltb_rank in E as (ra & rb & Ha & Hb & Hlt%lex3_Lt). simplify_eq. lia.
Qed.

Lemma ltb_trans a b c : (a <? b) = true → (b <? c) = true → (a <? c) = true.
Proof.
  intros (ra & rb & Ha & Hb & Hab%lex3_Lt)%ltb_rank
         (rb' & rc & Hb' & Hc & Hbc%lex3_Lt)%ltb_rank.
  simplify_eq. apply ltb_rank. exists ra, rc. split_and!; [done..|].
  apply lex3_Lt. lia.
Qed.

Lemma not_ltb_trans a b c :
  notNaN a → notNaN b → notNaN c →
  (a <? b) = false → (b <? c) = false → (a <? c) = false.
Proof.
  intros [ra Ha]%notNaN_rank [rb Hb]%notNaN_rank [rc Hc]%notNaN_rank Hab Hbc.
  destruct (a <? c) eqn:E; [|done].
  apply ltb_rank in E as (ra' & rc' & Ha' & Hc' & Hac%lex3_Lt). simplify_eq.
  rewrite <- not_true_iff_false in Hab, Hbc.
  destruct (decide (lex3 ra rb = Lt)) as [Hl|Hl].
  { exfalso. apply Hab, ltb_rank. by exists ra, rb. }
  destruct (decide (lex3 rb rc = Lt)) as [Hl'|Hl'].
  { exfalso. apply Hbc, ltb_rank. by exists rb, rc. }
  rewrite lex3_Lt in Hl, Hl'. lia.
Qed.

(** A comparison that holds has no NaN on either side. *)
Lemma ltb_notNaN a b : (a <? b) = true → notNaN a ∧ notNaN b.
Proof.
  intros (ra & rb & Ha & Hb & _)%ltb_rank.
  unfold notNaN, is_nan. rewrite !FloatAxioms.eqb_spec. unfold SFeqb.
  rewrite !SFcompare_rank, Ha, Hb.
  assert (∀ r, lex3 r r = Eq) as Hrefl.
  { intros r. unfold lex3. now rewrite !Z.compare_refl. }
  now rewrite !Hrefl.
Qed.

Lemma leb_notNaN a b : (a <=? b)%float = true → notNaN a ∧ notNaN b.
Proof.
  intros (ra & rb & Ha & Hb & _)%leb_rank.
  unfold notNaN, is_nan. rewrite !FloatAxioms.eqb_spec. unfold SFeqb.
  rewrite !SFcompare_rank, Ha, Hb.
  assert (∀ r, lex3 r r = Eq) as Hrefl.
  { intros r. unfold lex3. now rewrite !Z.compare_refl. }
  now rewrite !Hrefl.
Qed.

End FloatOrder.

(** ** Rounding to binary64: when a quotient is finite *)

Section Rounding.

Lemma digits2_pos_bounds m :
  2 ^ (Z.pos (digits2_pos m) - 1) ≤ Z.pos m < 2 ^ Z.pos (digits2_pos m).
Proof.
  induction m as [m IH|m IH|]; cbn [digits2_pos].
  - rewrite Pos2Z.inj_succ, Z.pow_succ_r by lia.
    replace (Z.succ (Z.pos (digits2_pos m)) - 1) with (Z.succ (Z.pos (digits2_pos m) - 1)) by lia.
    rewrite Z.pow_succ_r by lia. lia.
  - rewrite Pos2Z.inj_succ, Z.pow_succ_r by lia.
    replace (Z.succ (Z.pos (digits2_pos m)) - 1) with (Z.succ (Z.pos (digits2_pos m) - 1)) by lia.
    rewrite Z.pow_succ_r by lia. lia.
  - simpl. lia.
Qed.

Lemma Zdigits2_bounds m :
  0 < m → 2 ^ (Zdigits2 m - 1) ≤ m < 2 ^ Zdigits2 m ∧ 0 < Zdigits2 m.
Proof.
  destruct m as [|m|m]; try lia. intros _. split; [apply digits2_pos_bounds|].
  simpl. lia.
Qed.

Lemma Zdigits2_le m d : 0 < m → m < 2 ^ d → 0 ≤ d → Zdigits2 m ≤ d.
Proof.
  intros Hm Hlt Hd. destruct (Zdigits2_bounds m Hm) as [[Hlo _] Hpos].
  destruct (Z.le_gt_cases (Zdigits2 m) d) as [|Hgt]; [done|].
  assert (2 ^ d ≤ 2 ^ (Zdigits2 m - 1)) by (apply Z.pow_le_mono_r; lia). lia.
Qed.

Lemma shr_1_m mrs : 0 ≤ shr_m mrs → shr_m (shr_1 mrs) = shr_m mrs / 2.
Proof.
  destruct mrs as [m r s]. cbn [shr_m]. intros Hm.
  destruct m as [|[p|p|]|p]; cbn [shr_1 shr_m]; try lia.
  all: try reflexivity.
  - change (Z.pos p~1) with (2 * Z.pos p + 1).
    apply (Z.div_unique_pos _ 2 _ 1); lia.
  - change (Z.pos p~0) with (2 * Z.pos p).
    apply (Z.div_unique_pos _ 2 _ 0); lia.
Qed.

Lemma iter_pos_shr_m p mrs :
  0 ≤ shr_m mrs → shr_m (SpecFloat.iter_pos shr_1 p mrs) = shr_m mrs / 2 ^ Z.pos p.
Proof.
  revert mrs. induction p as [p IH|p IH|]; intros mrs Hm; cbn [SpecFloat.iter_pos].
  - assert (0 ≤ shr_m (shr_1 mrs)) by (rewrite shr_1_m by done; apply Z.div_pos; lia).
    rewrite IH.
    2:{ rewrite IH by done. apply Z.div_pos; [done|]. apply Z.pow_pos_nonneg; lia. }
    rewrite IH by done. rewrite shr_1_m by done.
    rewrite !Z.div_div by (try apply Z.pow_pos_nonneg; lia).
    f_equal. change (Z.pos p~1) with (2 * Z.pos p + 1).
    replace (2 * Z.pos p + 1) with (1 + Z.pos p + Z.pos p) by lia.
    rewrite !Z.pow_add_r by lia. lia.
  - rewrite IH.
    2:{ rewrite IH by done. apply Z.div_pos; [done|]. apply Z.pow_pos_nonneg; lia. }
    rewrite IH by done.
    rewrite !Z.div_div by (try apply Z.pow_pos_nonneg; lia).
    f_equal. change (Z.pos p~0) with (2 * Z.pos p).
    replace (2 * Z.pos p) with (Z.pos p + Z.pos p) by lia.
    rewrite !Z.pow_add_r by lia. lia.
  - rewrite shr_1_m by done. reflexivity.
Qed.

Lemma shr_record_of_loc_m m l : shr_m (shr_record_of_loc m l) = m.
Proof. destruct l as [|[]]; reflexivity. Qed.

(** The mantissa and the exponent after a shift. *)
Lemma shr_spec mrs e n :
  0 ≤ shr_m mrs →
  shr_m (shr mrs e n).1 = shr_m mrs / 2 ^ Z.max 0 n
  ∧ (shr mrs e n).2 = e + Z.max 0 n.
Proof.
  intros Hm. destruct n as [|p|p]; cbn [shr fst snd].
  - simpl. rewrite Z.div_1_r. lia.
  - rewrite iter_pos_shr_m by done. rewrite Z.max_r by lia. done.
  - rewrite Z.max_l by lia. simpl. rewrite Z.div_1_r. lia.
Qed.

Lemma round_nearest_even_bounds m l :
  m ≤ round_nearest_even m l ≤ m + 1.
Proof. destruct l as [|[]]; cbn; try lia. destruct (Z.even m); lia. Qed.

Lemma Zdigits2_nonneg_bound m : 0 ≤ m → m < 2 ^ Zdigits2 m ∧ 0 ≤ Zdigits2 m.
Proof.
  intros Hm. destruct (Z.eq_dec m 0) as [->|Hne]; [simpl; lia|].
  destruct (Zdigits2_bounds m) as [[_ Hhi] Hpos]; lia.
Qed.

Definition SFfinite (s : spec_float) : Prop :=
  match s with
  | S754_zero _ | S754_finite _ _ _ => True
  | _ => False
  end.

(** Rounding a mantissa that is not negative and not too large gives a
    zero or a finite value. *)
Lemma binary_round_aux_finite sx mx ex lx :
  0 ≤ mx → ex ≤ 970 → Zdigits2 mx + ex ≤ 1023 →
  SFfinite (binary_round_aux 53 1024 sx mx ex lx).
Proof.
  intros Hmx Hex Hmag. unfold binary_round_aux, shr_fexp.
  destruct (Zdigits2_nonneg_bound mx Hmx) as [Hd Hd0].
  set (d := Zdigits2 mx) in *.
  set (k1 := fexp 53 1024 (d + ex) - ex).
  pose proof (shr_spec (shr_record_of_loc mx lx) ex k1) as Hs1.
  rewrite shr_record_of_loc_m in Hs1. specialize (Hs1 Hmx).
  destruct (shr (shr_record_of_loc mx lx) ex k1) as [mrs1 e1].
  cbn [fst snd] in Hs1. destruct Hs1 as [Hm1 He1].
  set (n := Z.max 0 k1) in *.
  assert (d - 53 ≤ n ∧ 0 ≤ n ∧ -1074 ≤ ex + n ∧ ex + n ≤ 970) as (Hn1 & Hn0 & Hn2 & Hn3).
  { subst n k1. unfold fexp, emin. lia. }
  assert (0 < 2 ^ n) as Hpow by (apply Z.pow_pos_nonneg; lia).
  assert (0 ≤ shr_m mrs1 < 2 ^ 53) as Hm1b.
  { rewrite Hm1. split; [apply Z.div_pos; lia|].
    apply Z.div_lt_upper_bound; [done|].
    rewrite <- Z.pow_add_r by lia.
    eapply Z.lt_le_trans; [exact Hd|]. apply Z.pow_le_mono_r; lia. }
  pose proof (round_nearest_even_bounds (shr_m mrs1) (loc_of_shr_record mrs1)) as Hr.
  set (m2 := round_nearest_even (shr_m mrs1) (loc_of_shr_record mrs1)) in *.
  assert (0 ≤ m2) as Hm2 by lia.
  destruct (Zdigits2_nonneg_bound m2 Hm2) as [_ Hd2].
  assert (Zdigits2 m2 ≤ 54) as Hd54.
  { destruct (Z.eq_dec m2 0) as [->|Hne]; [simpl; lia|].
    apply Zdigits2_le; lia. }
  set (k2 := fexp 53 1024 (Zdigits2 m2 + e1) - e1).
  pose proof (shr_spec (shr_record_of_loc m2 loc_Exact) e1 k2) as Hs2.
  rewrite shr_record_of_loc_m in Hs2. specialize (Hs2 Hm2).
  destruct (shr (shr_record_of_loc m2 loc_Exact) e1 k2) as [mrs2 e2].
  cbn [fst snd] in Hs2. destruct Hs2 as [Hm2' He2].
  assert (0 ≤ shr_m mrs2) as Hpos2.
  { rewrite Hm2'. apply Z.div_pos; [done|]. apply Z.pow_pos_nonneg; lia. }
  assert (e2 ≤ 971) as He2b.
  { subst e2 e1 k2. unfold fexp, emin. lia. }
  destruct (shr_m mrs2) as [|p|p]; [exact I| |lia].
  assert ((e2 <=? 1024 - 53) = true) as -> by lia. exact I.
Qed.

(** The quotient and the exponent a division hands to the rounding. *)
Lemma SFdiv_core_binary_bounds mx ex my ey :
  0 < mx → 0 < my →
  (Zdigits2 mx + ex) - (Zdigits2 my + ey) ≤ 1022 →
  let '(q, e', _) := SFdiv_core_binary 53 1024 mx ex my ey in
  0 ≤ q ∧ e' ≤ 970 ∧ Zdigits2 q + e' ≤ 1023.
Proof.
  intros Hmx Hmy Hmag. unfold SFdiv_core_binary.
  destruct (Zdigits2_bounds mx Hmx) as [[_ Hdx] Hdx0].
  destruct (Zdigits2_bounds my Hmy) as [[Hdy _] Hdy0].
  set (dx := Zdigits2 mx) in *. set (dy := Zdigits2 my) in *.
  set (e' := Z.min (fexp 53 1024 (dx + ex - (dy + ey))) (ex - ey)).
  set (s := ex - ey - e').
  assert (0 ≤ s) as Hs by (subst s e'; lia).
  assert (e' ≤ 969) as He' by (subst e'; unfold fexp, emin; lia).
  set (m' := match s with Z.pos _ => Z.shiftl mx s | 0 => mx | Z.neg _ => 0 end).
  assert (m' = mx * 2 ^ s) as Em'.
  { subst m'. destruct s as [|p|p]; [simpl; lia| |lia].
    apply Z.shiftl_mul_pow2. lia. }
  clearbody m'.
  pose proof (Z_div_mod m' my ltac:(lia)) as Hdiv.
  destruct (Z.div_eucl m' my) as [q r]. destruct Hdiv as [Eq Hr].
  assert (0 < 2 ^ s) as Hps by (apply Z.pow_pos_nonneg; lia).
  assert (0 ≤ q) as Hq by nia.
  split_and!; [done|lia|].
  destruct (Z.eq_dec q 0) as [->|Hq0]; [simpl; lia|].
  assert (Zdigits2 q ≤ dx + s - dy + 1); [|lia].
  assert (0 < 2 ^ (dy - 1)) as Hpy by (apply Z.pow_pos_nonneg; lia).
  assert (q * 2 ^ (dy - 1) < 2 ^ (dx + s)) as Hlt.
  { rewrite Z.pow_add_r by lia. nia. }
  destruct (Z.le_gt_cases 0 (dx + s - dy + 1)) as [Ht|Ht].
  - apply Zdigits2_le; [lia| |done].
    replace (dx + s) with ((dx + s - dy + 1) + (dy - 1)) in Hlt by lia.
    rewrite Z.pow_add_r in Hlt by lia. nia.
  - exfalso.
    assert (2 ^ (dx + s) ≤ 2 ^ (dy - 1)) by (apply Z.pow_le_mono_r; lia). nia.
Qed.

End Rounding.

Lemma is_finite_spec x : is_finite x = true ↔ SFfinite (Prim2SF x).
Proof.
  unfold is_finite, is_nan, is_infinity.
  rewrite !FloatAxioms.eqb_spec, abs_spec.
  change (Prim2SF infinity) with (S754_infinity false).
  destruct (Prim2SF x) as [s|s| |s m e]; cbn [SFfinite SFabs].
  - cbn. tauto.
  - destruct s; cbn; intuition discriminate.
  - cbn. intuition discriminate.
  - unfold SFeqb. destruct s; cbn [SFcompare];
      rewrite Z.compare_refl, Pos.compare_cont_refl; cbn; tauto.
Qed.

(** A quotient of finite values is finite when the magnitudes are not too
    far apart. *)
Lemma SFdiv_finite sx mx ex sy my ey :
  (Zdigits2 (Z.pos mx) + ex) - (Zdigits2 (Z.pos my) + ey) ≤ 1022 →
  SFfinite (SFdiv 53 1024 (S754_finite sx mx ex) (S754_finite sy my ey)).
Proof.
  intros Hmag. cbn [SFdiv].
  pose proof (SFdiv_core_binary_bounds (Z.pos mx) ex (Z.pos my) ey
                ltac:(lia) ltac:(lia) Hmag) as Hb.
  destruct (SFdiv_core_binary 53 1024 (Z.pos mx) ex (Z.pos my) ey) as [[q e'] l].
  destruct Hb as (Hq & He & Hd). now apply binary_round_aux_finite.
Qed.

(** The perspective division: the focal length over a depth past the
    near-clip threshold is a finite value. *)
Lemma focal_div_finite z : (10 <? z)%float = true → is_finite (450 / z) = true.
Proof.
  intros Hlt. apply is_finite_spec. rewrite div_spec. unfold SF64div.
  rewrite ltb_spec in Hlt. unfold SFltb in Hlt.
  change (Prim2SF 450) with (S754_finite false 7916483719987200 (-44)).
  change (Prim2SF 10) with (S754_finite false 5629499534213120 (-49)) in Hlt.
  destruct (Prim2SF z) as [s|s| |s m e]; cbn [SFcompare] in Hlt.
  - discriminate.
  - exact I.
  - discriminate.
  - apply SFdiv_finite.
    change (Zdigits2 (Z.pos 7916483719987200)) with 53.
    assert (-49 ≤ e).
    { destruct s; [discriminate|].
      destruct (Z.compare_spec (-49) e); try lia; discriminate. }
    cbn [Zdigits2]. lia.
Qed.

(** ** The depth fade and its floor *)

Lemma bb_depthFade_floor d : (Bubbles.depthFade d <? 0.2)%float = false.
Proof.
  unfold Bubbles.depthFade.
  destruct (1.0 - (d - 200) / 1200 <? 0.2)%float eqn:E; [reflexivity | exact E].
Qed.

Lemma cl_depthFade_floor d : (Cloud.depthFade d <? 0.25)%float = false.
Proof.
  unfold Cloud.depthFade.
  destruct (1.0 - (d - 200.0) / 1200.0 <? 0.25)%float eqn:E;
    [reflexivity | exact E].
Qed.

Lemma bb_itemOf_alpha `{MathLib} yaw0 pitch0 p it :
  Bubbles.itemOf yaw0 pitch0 p = Some it →
  it.(Bubbles.idepth) = (Bubbles.Project p yaw0 pitch0).(Bubbles.depth)
  ∧ it.(Bubbles.alpha)
    = (float64_of_int p.(Bubbles.life) / float64_of_int p.(Bubbles.maxLife)
       * Bubbles.depthFade it.(Bubbles.idepth))%float.
Proof.
  unfold Bubbles.itemOf. destruct (negb _); [done|].
  intros [= <-]. done.
Qed.

Lemma cl_itemOf_alpha `{MathLib} yaw0 pitch0 p it :
  Cloud.itemOf yaw0 pitch0 p = Some it →
  it.(Cloud.idepth) = (Cloud.projected p yaw0 pitch0).(Cloud.depth)
  ∧ it.(Cloud.alphaMult)
    = (float64_of_int p.(Cloud.life) / float64_of_int p.(Cloud.maxLife)
       * Cloud.depthFade it.(Cloud.idepth))%float.
Proof.
  unfold Cloud.itemOf. destruct (negb _); [done|].
  intros [= <-]. done.
Qed.

(** C7, as the code has it.  The floor bounds the depth fade, one of the
    two factors: it never drops below 0.2 (bubbles) or 0.25 (cloud),
    whatever the depth.  The fade multiplier of a visible particle is the
    product of the life ratio [life / maxLife] and this depth fade. *)
Theorem depth_fade_floor `{MathLib} :
  (∀ d, (Bubbles.depthFade d <? 0.2)%float = false
        ∧ (notNaN (Bubbles.depthFade d) →
           (0.2 <=? Bubbles.depthFade d)%float = true))
  ∧ (∀ d, (Cloud.depthFade d <? 0.25)%float = false
          ∧ (notNaN (Cloud.depthFade d) →
             (0.25 <=? Cloud.depthFade d)%float = true))
  ∧ (∀ yaw0 pitch0 p it, Bubbles.itemOf yaw0 pitch0 p = Some it →
       it.(Bubbles.alpha)
       = (float64_of_int p.(Bubbles.life) / float64_of_int p.(Bubbles.maxLife)
          * Bubbles.depthFade it.(Bubbles.idepth))%float)
  ∧ (∀ yaw0 pitch0 p it, Cloud.itemOf yaw0 pitch0 p = Some it →
       it.(Cloud.alphaMult)
       = (float64_of_int p.(Cloud.life) / float64_of_int p.(Cloud.maxLife)
          * Cloud.depthFade it.(Cloud.idepth))%float).
Proof.
  split_and!.
  - intros d. split; [apply bb_depthFade_floor|].
    intros Hn. apply not_ltb_leb; [done|reflexivity|apply bb_depthFade_floor].
  - intros d. split; [apply cl_depthFade_floor|].
    intros Hn. apply not_ltb_leb; [done|reflexivity|apply cl_depthFade_floor].
  - intros yaw0 pitch0 p it Hit. now apply bb_itemOf_alpha in Hit.
  - intros yaw0 pitch0 p it Hit. now apply cl_itemOf_alpha in Hit.
Qed.

(** A bubble with one tick left of a hundred, 600 away from the camera:
    it is visible, its depth fade is two thirds, and its fade multiplier,
    a hundredth of that, is under the floor of 0.2. *)
Lemma fade_multiplier_below_floor :
  let p := {| Bubbles.x := 10; Bubbles.y := 20; Bubbles.z := 0;
              Bubbles.vx := 0; Bubbles.vy := 0; Bubbles.vz := 0;
              Bubbles.life := 1; Bubbles.maxLife := 100;
              Bubbles.baseSize := 3;
              Bubbles.color := color.mkRGBA 200 200 255 255 |} in
  ∃ it, @Bubbles.itemOf Sample.math 0 0 p = Some it
        ∧ (0.2 <=? Bubbles.depthFade it.(Bubbles.idepth))%float = true
        ∧ (it.(Bubbles.alpha) <? 0.2)%float = true.
Proof. eexists. split; [vm_compute; reflexivity|]. split; vm_compute; reflexivity. Qed.

(** ** Normalizing a vector *)

Lemma kn_Normalized_zero_length v :
  (Kinetic.Length v =? 0)%float = true → Kinetic.Normalized v = Kinetic.zeroVector.
Proof. intros E. unfold Kinetic.Normalized. now rewrite E. Qed.

Lemma kn_Normalized_by_length v :
  (Kinetic.Length v =? 0)%float = false →
  Kinetic.Normalized v
  = {| Kinetic.X := v.(Kinetic.X) / Kinetic.Length v;
       Kinetic.Y := v.(Kinetic.Y) / Kinetic.Length v |}.
Proof. intros E. unfold Kinetic.Normalized. now rewrite E. Qed.

(** The emitter's remainder [e.counter % e.rate] never divides by zero:
    the rate [spawn] divides by, which it stores, is positive. *)
Lemma sf_spawn_rate_positive `{MathLib} `{Rand} e ps r :
  0 < (SmokeFire.spawn e ps r).1.1.(SmokeFire.rate).
Proof.
  unfold SmokeFire.spawn. destruct (negb _).
  - simpl. destruct (SmokeFire.rate e <=? 0) eqn:E; lia.
  - unfold gbind, gret. destruct (SmokeFire.spawnLoop 2 _ ps r). simpl.
    destruct (SmokeFire.rate e <=? 0) eqn:E; lia.
Qed.

(** C9, as the code has it.  [Normalized] divides by the length it
    computed: a vector whose computed length is zero, the zero vector among
    them, yields the zero vector, never a NaN; any other vector yields its
    components divided by that length.  The one division of integers a
    tick performs, the remainder by the emitter's rate, is by a positive
    rate. *)
Theorem normalized_by_computed_length `{MathLib} `{Rand} :
  Kinetic.Normalized Kinetic.zeroVector = Kinetic.zeroVector
  ∧ (∀ v, (Kinetic.Length v =? 0)%float = true →
          Kinetic.Normalized v = Kinetic.zeroVector
          ∧ notNaN (Kinetic.Normalized v).(Kinetic.X)
          ∧ notNaN (Kinetic.Normalized v).(Kinetic.Y))
  ∧ (∀ v, (Kinetic.Length v =? 0)%float = false →
          Kinetic.Normalized v
          = {| Kinetic.X := v.(Kinetic.X) / Kinetic.Length v;
               Kinetic.Y := v.(Kinetic.Y) / Kinetic.Length v |})
  ∧ (∀ e ps r, 0 < (SmokeFire.spawn e ps r).1.1.(SmokeFire.rate)).
Proof.
  split_and!.
  - reflexivity.
  - intros v E. rewrite (kn_Normalized_zero_length v E). done.
  - apply kn_Normalized_by_length.
  - apply sf_spawn_rate_positive.
Qed.

(** A vector that is not zero and whose squared length underflows: its
    computed length is zero, so [Normalized] returns the zero vector, which
    is not the vector divided by its length. *)
Lemma normalized_underflow :
  let v := {| Kinetic.X := 0x1p-600; Kinetic.Y := 0 |} in
  (v.(Kinetic.X) =? 0)%float = false
  ∧ Kinetic.Normalized v = Kinetic.zeroVector
  ∧ Kinetic.Normalized v
    ≠ {| Kinetic.X := v.(Kinetic.X) / Kinetic.Length v;
         Kinetic.Y := v.(Kinetic.Y) / Kinetic.Length v |}.
Proof.
  cbv zeta. split_and!; [reflexivity..|].
  intros E. apply (f_equal (λ w, is_infinity w.(Kinetic.X))) in E.
  vm_compute in E. discriminate.
Qed.

(** ** The projection *)

(** A depth past the near-clip threshold is not zero. *)
Lemma past_clip_nonzero z : (10 <? z)%float = true → (z =? 0)%float = false.
Proof.
  intros Hlt. rewrite FloatAxioms.eqb_spec. rewrite ltb_spec in Hlt.
  unfold SFltb in Hlt. unfold SFeqb.
  change (Prim2SF 10) with (S754_finite false 5629499534213120 (-49)) in Hlt.
  change (Prim2SF 0) with (S754_zero false).
  destruct (Prim2SF z) as [s|s| |s m e]; cbn [SFcompare] in *; try discriminate.
  - now destruct s.
  - now destruct s.
Qed.

Lemma bb_Project_spec `{MathLib} p yaw0 pitch0 x1 y1 z2 :
  Bubbles.cameraSpace p yaw0 pitch0 = (x1, y1, z2) →
  let pr := Bubbles.Project p yaw0 pitch0 in
  pr.(Bubbles.depth) = z2
  ∧ pr.(Bubbles.visible) = negb (z2 <=? 10)%float
  ∧ ((z2 <=? 10)%float = false →
     pr.(Bubbles.scale) = (Bubbles.focalLength / z2)%float
     ∧ pr.(Bubbles.sx) = (x1 * pr.(Bubbles.scale) + 512)%float
     ∧ pr.(Bubbles.sy) = (y1 * pr.(Bubbles.scale) + 384)%float).
Proof.
  intros E pr. subst pr. unfold Bubbles.Project. rewrite E.
  destruct (z2 <=? 10)%float; cbn; done.
Qed.

Lemma cl_projected_spec `{MathLib} p yaw0 pitch0 x1 y1 z2 :
  Cloud.cameraSpace p yaw0 pitch0 = (x1, y1, z2) →
  let pr := Cloud.projected p yaw0 pitch0 in
  pr.(Cloud.depth) = z2
  ∧ pr.(Cloud.visible) = negb (z2 <=? 10)%float
  ∧ ((z2 <=? 10)%float = false →
     pr.(Cloud.scale) = (p.(Cloud.baseScale) * (Cloud.focalLength / z2) * 2.0)%float
     ∧ pr.(Cloud.sx) = (x1 * (Cloud.focalLength / z2) + 512)%float
     ∧ pr.(Cloud.sy) = (y1 * (Cloud.focalLength / z2) + 384)%float).
Proof.
  intros E pr. subst pr. unfold Cloud.projected. rewrite E.
  destruct (z2 <=? 10)%float; cbn; done.
Qed.

(** C6, as the code has it.  With [(x1, y1, z2)] the position in camera
    space, [z2] is the depth; the particle is marked not visible exactly
    when [z2 <= 10]; when [10 < z2] it is visible, the divisor [z2] is
    neither zero nor a NaN, the perspective factor [focalLength / z2] is a
    finite value and the screen coordinates are the lateral components
    times that factor plus the centre (512, 384).  The scale returned is
    the factor itself in [Project] (bubbles) and [baseScale * factor * 2]
    in [projected] (cloud). *)
Theorem projection_clip_and_scale `{MathLib} :
  (∀ p yaw0 pitch0 x1 y1 z2,
     Bubbles.cameraSpace p yaw0 pitch0 = (x1, y1, z2) →
     let pr := Bubbles.Project p yaw0 pitch0 in
     pr.(Bubbles.depth) = z2
     ∧ (pr.(Bubbles.visible) = false ↔ (z2 <=? 10)%float = true)
     ∧ ((10 <? z2)%float = true →
        pr.(Bubbles.visible) = true
        ∧ (z2 =? 0)%float = false ∧ notNaN z2
        ∧ pr.(Bubbles.scale) = (Bubbles.focalLength / z2)%float
        ∧ is_finite pr.(Bubbles.scale) = true
        ∧ pr.(Bubbles.sx) = (x1 * pr.(Bubbles.scale) + 512)%float
        ∧ pr.(Bubbles.sy) = (y1 * pr.(Bubbles.scale) + 384)%float))
  ∧ (∀ p yaw0 pitch0 x1 y1 z2,
     Cloud.cameraSpace p yaw0 pitch0 = (x1, y1, z2) →
     let pr := Cloud.projected p yaw0 pitch0 in
     let f := (Cloud.focalLength / z2)%float in
     pr.(Cloud.depth) = z2
     ∧ (pr.(Cloud.visible) = false ↔ (z2 <=? 10)%float = true)
     ∧ ((10 <? z2)%float = true →
        pr.(Cloud.visible) = true
        ∧ (z2 =? 0)%float = false ∧ notNaN z2
        ∧ is_finite f = true
        ∧ pr.(Cloud.scale) = (p.(Cloud.baseScale) * f * 2.0)%float
        ∧ pr.(Cloud.sx) = (x1 * f + 512)%float
        ∧ pr.(Cloud.sy) = (y1 * f + 384)%float)).
Proof.
  split; intros p yaw0 pitch0 x1 y1 z2 E.
  - destruct (bb_Project_spec p yaw0 pitch0 x1 y1 z2 E) as (Hd & Hv & Hs).
    cbv zeta. rewrite Hv. split_and!; [done|by destruct (z2 <=? 10)%float|].
    intros Hlt. pose proof (ltb_not_leb _ _ Hlt) as Hle.
    destruct (Hs Hle) as (Hsc & Hsx & Hsy). rewrite Hle, Hsc.
    split_and!; try done.
    + now apply past_clip_nonzero.
    + now apply ltb_notNaN in Hlt.
    + now apply focal_div_finite.
    + now rewrite Hsx, Hsc.
    + now rewrite Hsy, Hsc.
  - destruct (cl_projected_spec p yaw0 pitch0 x1 y1 z2 E) as (Hd & Hv & Hs).
    cbv zeta. rewrite Hv. split_and!; [done|by destruct (z2 <=? 10)%float|].
    intros Hlt. pose proof (ltb_not_leb _ _ Hlt) as Hle.
    destruct (Hs Hle) as (Hsc & Hsx & Hsy). rewrite Hle.
    split_and!; try done.
    + now apply past_clip_nonzero.
    + now apply ltb_notNaN in Hlt.
    + now apply focal_div_finite.
Qed.

(** Scenario 4 on the bubbles, the camera at rest (the sine and the cosine
    of the sample library are exact at 0): a particle at depth 10 is not
    visible, nor is one at depth 9, nearer the camera; at depth 11 it is,
    with the finite scale 450 / 11. *)
Lemma projection_clip_and_scale_witness :
  let at_z z0 :=
    {| Bubbles.x := 3; Bubbles.y := 4; Bubbles.z := z0;
       Bubbles.vx := 0; Bubbles.vy := 0; Bubbles.vz := 0;
       Bubbles.life := 50; Bubbles.maxLife := 100; Bubbles.baseSize := 3;
       Bubbles.color := color.mkRGBA 200 200 255 255 |} in
  let on_clip := @Bubbles.Project Sample.math (at_z (-590)%float) 0 0 in
  let past_clip := @Bubbles.Project Sample.math (at_z (-589)%float) 0 0 in
  (on_clip.(Bubbles.depth) = 10%float ∧ on_clip.(Bubbles.visible) = false)
  ∧ (@Bubbles.Project Sample.math (at_z (-591)%float) 0 0).(Bubbles.visible) = false
  ∧ (past_clip.(Bubbles.depth) = 11%float
     ∧ past_clip.(Bubbles.visible) = true
     ∧ past_clip.(Bubbles.scale) = (450 / 11)%float
     ∧ is_finite past_clip.(Bubbles.scale) = true).
Proof.
  cbv zeta. split.
  - destruct (proj1 (@projection_clip_and_scale Sample.math) _ 0%float 0%float
                3%float 4%float 10%float
                (eq_refl : @Bubbles.cameraSpace Sample.math
                   {| Bubbles.x := 3; Bubbles.y := 4; Bubbles.z := -590;
                      Bubbles.vx := 0; Bubbles.vy := 0; Bubbles.vz := 0;
                      Bubbles.life := 50; Bubbles.maxLife := 100;
                      Bubbles.baseSize := 3;
                      Bubbles.color := color.mkRGBA 200 200 255 255 |} 0 0
                   = (3, 4, 10)%float)) as (Hd & Hv & _).
    split; [exact Hd | apply Hv; reflexivity].
  - split; [reflexivity|].
    destruct (proj1 (@projection_clip_and_scale Sample.math) _ 0%float 0%float
                3%float 4%float 11%float
                (eq_refl : @Bubbles.cameraSpace Sample.math
                   {| Bubbles.x := 3; Bubbles.y := 4; Bubbles.z := -589;
                      Bubbles.vx := 0; Bubbles.vy := 0; Bubbles.vz := 0;
                      Bubbles.life := 50; Bubbles.maxLife := 100;
                      Bubbles.baseSize := 3;
                      Bubbles.color := color.mkRGBA 200 200 255 255 |} 0 0
                   = (3, 4, 11)%float)) as (Hd & _ & Hp).
    destruct (Hp eq_refl) as (Hv & _ & _ & Hs & Hf & _).
    split_and!; [exact Hd | exact Hv | exact Hs | exact Hf].
Defined.

(** A sprite of the cloud 600 away from the camera, of base scale 0.2:
    it is past the clip and its scale is 0.3, not 450 / 600. *)
Lemma cloud_scale_is_not_the_factor :
  let p := {| Cloud.x := 0; Cloud.y := 0; Cloud.z := 0;
              Cloud.vx := 0; Cloud.vy := 0; Cloud.vz := 0;
              Cloud.angle := 0; Cloud.spin := 0; Cloud.baseScale := 0.2;
              Cloud.life := 50; Cloud.maxLife := 100;
              Cloud.colorMix := color.mkRGBA 200 200 255 255;
              Cloud.img := Cloud.smokeImage |} in
  let pr := @Cloud.projected Sample.math p 0 0 in
  (10 <? pr.(Cloud.depth))%float = true
  ∧ pr.(Cloud.visible) = true
  ∧ (pr.(Cloud.scale) =? Cloud.focalLength / pr.(Cloud.depth))%float = false.
Proof. cbv zeta. split_and!; vm_compute; reflexivity. Qed.

(** ** The depth order *)










(** ** The batch: four vertices and six indices a quad *)

(** Following the specification's words: the six indices of the [k]-th quad of a
    batch, each the position of one of its four vertices, and the indices
    of a batch of [n] quads. *)
Definition exactQuad (k : nat) : list Z :=
  let v := 4 * Z.of_nat k in [v; v + 1; v + 2; v + 1; v + 3; v + 2].

Definition exactIndices (n : nat) : list Z := concat (exactQuad <$> seq 0 n).

Lemma quadIndices_exact k :
  4 * Z.of_nat k + 3 < 65536 → quadIndices (uint16 (4 * Z.of_nat k)) = exactQuad k.
Proof.
  intros Hk. unfold quadIndices, exactQuad.
  rewrite uint16_small by lia. rewrite !uint16_add_small by lia. reflexivity.
Qed.

Lemma concat_exactQuad_length n k0 :
  length (concat (exactQuad <$> seq k0 n)) = (6 * n)%nat.
Proof.
  revert k0. induction n as [|n IH]; intros k0; [reflexivity|].
  cbn [seq fmap list_fmap concat]. rewrite length_app, IH. simpl. lia.
Qed.

Lemma exactIndices_length n : length (exactIndices n) = (6 * n)%nat.
Proof. apply concat_exactQuad_length. Qed.

Lemma concat_exactQuad_lookup n k0 k j i :
  (j < 6)%nat →
  concat (exactQuad <$> seq k0 n) !! (6 * k + j)%nat = Some i →
  (k < n)%nat ∧ 4 * Z.of_nat (k0 + k) ≤ i ≤ 4 * Z.of_nat (k0 + k) + 3.
Proof.
  intros Hj. revert k0 k. induction n as [|n IH]; intros k0 k Hl.
  { cbn in Hl. done. }
  cbn [seq fmap list_fmap concat] in Hl.
  destruct k as [|k].
  - rewrite lookup_app_l in Hl by (simpl; lia).
    split; [lia|]. rewrite Nat.add_0_r.
    unfold exactQuad in Hl. simpl in Hl.
    destruct j as [|[|[|[|[|[|j]]]]]]; simplify_eq/=; lia.
  - rewrite lookup_app_r in Hl by (simpl; lia).
    replace (6 * S k + j - length (exactQuad k0))%nat with (6 * k + j)%nat in Hl
      by (simpl; lia).
    apply IH in Hl as [Hk Hi]. split; [lia|].
    replace (k0 + S k)%nat with (S k0 + k)%nat by lia. exact Hi.
Qed.

(** Every index of the [k]-th quad refers to one of its own vertices. *)
Lemma exactIndices_lookup n k j i :
  (j < 6)%nat → exactIndices n !! (6 * k + j)%nat = Some i →
  (k < n)%nat ∧ 4 * Z.of_nat k ≤ i ≤ 4 * Z.of_nat k + 3.
Proof. intros Hj Hl. exact (concat_exactQuad_lookup n 0 k j i Hj Hl). Qed.

(** A run of [pushQuad]: the vertices are appended in order, and, as long
    as neither the count nor the [uint16] index wraps, the indices are the
    exact ones. *)
Lemma foldl_pushQuad (qs : list (list Vertex)) (b : Batch) (k0 : nat) :
  b.(bCount) = 4 * Z.of_nat k0 →
  4 * Z.of_nat (k0 + length qs) ≤ 65536 →
  let b' := foldl pushQuad b qs in
  b'.(bVertices) = b.(bVertices) ++ concat qs
  ∧ b'.(bIndices) = b.(bIndices) ++ concat (exactQuad <$> seq k0 (length qs))
  ∧ b'.(bCount) = 4 * Z.of_nat (k0 + length qs).
Proof.
  revert b k0. induction qs as [|q qs IH]; intros b k0 Hc Hn; cbn [foldl length].
  { cbn. rewrite !app_nil_r, Nat.add_0_r. done. }
  cbn [length] in Hn.
  destruct (IH (pushQuad b q) (S k0)) as (Hv & Hi & Hc').
  - cbn. rewrite Hc, int_add_small by lia. lia.
  - replace (S k0 + length qs)%nat with (k0 + S (length qs))%nat by lia. exact Hn.
  - cbv zeta. rewrite Hv, Hi, Hc'. cbn [pushQuad bVertices bIndices].
    rewrite Hc, quadIndices_exact by lia.
    cbn [seq fmap list_fmap concat]. rewrite <- !app_assoc.
    split_and!; [done..|]. f_equal. lia.
Qed.

Lemma foldl_pushQuad_empty (qs : list (list Vertex)) :
  4 * Z.of_nat (length qs) ≤ 65536 →
  let b' := foldl pushQuad emptyBatch qs in
  b'.(bVertices) = concat qs ∧ b'.(bIndices) = exactIndices (length qs).
Proof.
  intros Hn. destruct (foldl_pushQuad qs emptyBatch 0 eq_refl Hn) as (Hv & Hi & _).
  split; [exact Hv | exact Hi].
Qed.

(** The loop of a batch builder that emits the quads of some particles. *)
Lemma foldl_emit {P} (emit : P → bool) (quad : P → list Vertex) ps b :
  foldl (λ b p, if negb (emit p) then b else pushQuad b (quad p)) b ps
  = foldl pushQuad b (quad <$> List.filter emit ps).
Proof.
  revert b. induction ps as [|p ps IH]; intros b; [reflexivity|].
  cbn [foldl List.filter]. rewrite IH. now destruct (emit p).
Qed.

Lemma concat_length_quads (qs : list (list Vertex)) :
  Forall (λ q, length q = 4%nat) qs → length (concat qs) = (4 * length qs)%nat.
Proof.
  induction 1 as [|q qs Hq _ IH]; [reflexivity|].
  cbn [concat length]. rewrite length_app, Hq, IH. lia.
Qed.

Lemma filter_length_le {P} (f : P → bool) (ps : list P) :
  (length (List.filter f ps) ≤ length ps)%nat.
Proof.
  induction ps as [|p ps IH]; [reflexivity|]. simpl. destruct (f p); simpl; lia.
Qed.

(** ** Smoke *)

Section SmokeFacts.
Import Smoke.
Context `{MathLib} `{Float32} `{Rand} `{GeoMLib}.
Context (smokeImageW smokeImageH : float).
Implicit Types (p q : Particle) (ps : list Particle) (g : Game).

(** A slot in use has a colour to read. *)
Definition sm_coloured (p : Particle) : Prop :=
  p.(active) = true → is_Some p.(color).

Definition sm_pool_inv ps : Prop :=
  Z.of_nat (length ps) ≤ maxParticles ∧ Forall sm_coloured ps.

Lemma sm_newParticle_coloured image ex0 ey0 r :
  sm_coloured (newParticle image ex0 ey0 r).1.
Proof. unfold newParticle. gen_run. intros _. by eexists. Qed.

Lemma sm_update_coloured p : sm_coloured p → sm_coloured (tick p).
Proof.
  unfold sm_coloured, tick, update. intros Hp.
  destruct p.(active) eqn:Ha; [|by rewrite Ha].
  cbn. destruct (int_add _ 1 >=? _); cbn; [done|]. intros _. by apply Hp.
Qed.

Lemma sm_allocateParticle_inv ps :
  sm_pool_inv ps → sm_pool_inv (allocateParticle ps).2.
Proof.
  intros [Hlen Hall]. unfold allocateParticle.
  destruct (firstInactive active ps); [done|].
  destruct (Z.of_nat (length ps) <? maxParticles) eqn:E; [|done].
  split; cbn.
  - rewrite length_app. simpl. lia.
  - apply Forall_app. split; [done|]. repeat constructor. intros Ha. discriminate.
Qed.

Lemma sm_emit_inv ex0 ey0 ps r : sm_pool_inv ps → sm_pool_inv (emit ex0 ey0 ps r).1.
Proof.
  intros Hinv. unfold emit.
  destruct (Z.of_nat (length ps) <? maxParticles); [|done].
  unfold gbind. destruct (Intn 3 r) as [k r1].
  destruct (k <? 2); [|done].
  pose proof (sm_allocateParticle_inv ps Hinv) as Ha.
  destruct (allocateParticle ps) as [[i|] ps']; [|done].
  unfold gbind, gret.
  pose proof (sm_newParticle_coloured smokeImage ex0 ey0 r1) as Hc.
  destruct (newParticle smokeImage ex0 ey0 r1) as [p r2].
  cbn in *. destruct Ha as [Hlen Hall]. split.
  - now rewrite length_insert.
  - now apply Forall_insert.
Qed.

Lemma sm_tick_inv ps : sm_pool_inv ps → sm_pool_inv (tick <$> ps).
Proof.
  intros [Hlen Hall]. split; [now rewrite length_fmap|].
  apply Forall_fmap. eapply Forall_impl; [exact Hall|].
  intros p. apply sm_update_coloured.
Qed.

Lemma sm_Update_slots g r :
  ∃ ex0 ey0 r', slots (Update g r).1
                = tick <$> (emit ex0 ey0 (slots g) r').1.
Proof.
  unfold Update, slots.
  destruct g.(particles) as [ps|]; cbn [default]; unfold gbind, gret.
  - exists g.(emitterX), g.(emitterY), r. change (id ps) with ps.
    destruct (emit _ _ ps r) as [ps1 r1]. now destruct (Float64 r1).
  - exists 320%float, 240%float, r.
    destruct (emit _ _ [] r) as [ps1 r1]. now destruct (Float64 r1).
Qed.

(** The quads [Game.Draw] emits, in order. *)
Definition sm_quads ps : list (list Vertex) :=
  omap (λ p, if p.(active)
             then particleQuad smokeImageW smokeImageH p <$> p.(color)
             else None) ps.

Lemma sm_quads_length ps :
  Forall sm_coloured ps → length (sm_quads ps) = activeCount active ps.
Proof.
  induction 1 as [|p ps Hp _ IH]; [reflexivity|].
  rewrite activeCount_cons. cbn [sm_quads omap list_omap].
  destruct p.(active) eqn:Ha.
  - destruct (Hp Ha) as [c ->]. cbn. fold (sm_quads ps). now rewrite IH.
  - fold (sm_quads ps). now rewrite IH.
Qed.

Lemma sm_quads_four ps : Forall (λ vs, length vs = 4%nat) (sm_quads ps).
Proof.
  induction ps as [|p ps IH]; [constructor|].
  cbn [sm_quads omap list_omap].
  destruct p.(active); [|exact IH].
  destruct p.(color) as [c|]; [|exact IH].
  constructor; [|exact IH]. unfold particleQuad. now rewrite length_fmap.
Qed.

(** The particle loop of [Game.Draw] does not panic on a pool whose slots
    in use are coloured; it appends their quads and, short of a wrap, the
    exact indices. *)
Lemma sm_drawLoop_spec ps buf (k0 : nat) :
  Forall sm_coloured ps →
  length buf.1 = (4 * k0)%nat →
  4 * Z.of_nat (k0 + activeCount active ps) ≤ 65536 →
  drawLoop smokeImageW smokeImageH buf ps
  = Some (buf.1 ++ concat (sm_quads ps),
          buf.2 ++ concat (exactQuad <$> seq k0 (activeCount active ps))).
Proof.
  intros Hall. revert buf k0.
  induction Hall as [|p ps Hp Hall IH]; intros [vs ixs] k0 Hlen Hn.
  { cbn. now rewrite !app_nil_r. }
  rewrite activeCount_cons in *. cbn [drawLoop sm_quads omap list_omap].
  unfold drawStep. cbn [fst snd] in *.
  destruct p.(active) eqn:Ha; cbn [negb].
  - destruct (Hp Ha) as [c Hc]. rewrite Hc. cbn [fmap option_fmap option_map].
    rewrite (IH _ (S k0)).
    + cbn [fst snd]. fold (sm_quads ps).
      replace (Z.of_nat (length vs)) with (4 * Z.of_nat k0) by lia.
      rewrite quadIndices_exact by lia.
      cbn [seq fmap list_fmap concat Nat.add]. now rewrite <- !app_assoc.
    + cbn [fst]. rewrite length_app, Hlen.
      unfold particleQuad. rewrite length_fmap. simpl. lia.
    + lia.
  - fold (sm_quads ps). apply (IH (vs, ixs) k0); [done|lia].
Qed.

Lemma sm_reachable_inv g :
  Reachable smokeImageW smokeImageH g → sm_pool_inv (slots g).
Proof.
  induction 1 as [|g r _ IH|g g' _ IH Hd].
  - split; [cbn; unfold maxParticles; lia | constructor].
  - destruct (sm_Update_slots g r) as (ex0 & ey0 & r' & ->).
    now apply sm_tick_inv, sm_emit_inv.
  - unfold Draw in Hd. destruct (drawLoop _ _ _ _); simplify_eq. exact IH.
Qed.

End SmokeFacts.

(** ** The batches of smoke and fire *)

Section SmokeFireBatch.
Import SmokeFire.
Context `{MathLib} `{Float32} `{Rand} `{GeoMLib}.
Context (smokeImageW smokeImageH : float).

(** The particles of the fire group and of the smoke group of a frame. *)
Definition sf_fire (ps : list Particle) : list Particle :=
  List.filter (λ p, p.(active) && match p.(pType) with
                                  | TypeFire => true | TypeSmoke => false end) ps.

Definition sf_smoke (ps : list Particle) : list Particle :=
  List.filter (λ p, p.(active) && match p.(pType) with
                                  | TypeFire => false | TypeSmoke => true end) ps.

Lemma sf_foldl_drawStep ps st :
  let st' := foldl (drawStep smokeImageW smokeImageH) st ps in
  st'.(dFire) = foldl pushQuad st.(dFire)
                  (particleQuad smokeImageW smokeImageH <$> sf_fire ps)
  ∧ st'.(dSmoke) = foldl pushQuad st.(dSmoke)
                     (particleQuad smokeImageW smokeImageH <$> sf_smoke ps).
Proof.
  revert st. induction ps as [|p ps IH]; intros st; [done|].
  cbn [foldl]. cbv zeta. destruct (IH (drawStep smokeImageW smokeImageH st p))
    as [Hf Hs].
  rewrite Hf, Hs. unfold drawStep, sf_fire, sf_smoke. cbn [List.filter].
  destruct p.(active); cbn [negb andb]; [|done].
  destruct p.(pType); done.
Qed.

Lemma sf_particleQuad_four (ps : list Particle) :
  Forall (λ vs, length vs = 4%nat) (particleQuad smokeImageW smokeImageH <$> ps).
Proof.
  apply Forall_fmap, Forall_forall. intros p _. reflexivity.
Qed.

(** What [Game.Draw] leaves in the four buffers of a pool of at most
    16384 slots. *)
Lemma sf_Draw_spec g :
  Z.of_nat (length g.(particles)) ≤ 16384 →
  let g' := Draw smokeImageW smokeImageH g in
  g'.(fireVertices)
  = concat (particleQuad smokeImageW smokeImageH <$> sf_fire g.(particles))
  ∧ g'.(fireIndices) = exactIndices (length (sf_fire g.(particles)))
  ∧ g'.(smokeVertices)
    = concat (particleQuad smokeImageW smokeImageH <$> sf_smoke g.(particles))
  ∧ g'.(smokeIndices) = exactIndices (length (sf_smoke g.(particles))).
Proof.
  intros Hlen. cbv zeta. unfold Draw, drawLoop. cbn [fireVertices fireIndices
    smokeVertices smokeIndices].
  destruct (sf_foldl_drawStep g.(particles) (mkDrawState emptyBatch emptyBatch 0))
    as [Hf Hs].
  rewrite Hf, Hs. cbn [dFire dSmoke].
  pose proof (filter_length_le
    (λ p, p.(active) && match p.(pType) with
                        | TypeFire => true | TypeSmoke => false end)
    g.(particles)) as Hlf.
  pose proof (filter_length_le
    (λ p, p.(active) && match p.(pType) with
                        | TypeFire => false | TypeSmoke => true end)
    g.(particles)) as Hls.
  fold (sf_fire g.(particles)) in Hlf. fold (sf_smoke g.(particles)) in Hls.
  destruct (foldl_pushQuad_empty
              (particleQuad smokeImageW smokeImageH <$> sf_fire g.(particles)))
    as [Hfv Hfi]; [rewrite length_fmap; lia|].
  destruct (foldl_pushQuad_empty
              (particleQuad smokeImageW smokeImageH <$> sf_smoke g.(particles)))
    as [Hsv Hsi]; [rewrite length_fmap; lia|].
  rewrite length_fmap in Hfi, Hsi. done.
Qed.

End SmokeFireBatch.

(** Following the specification's words: the buffers [vs] and [ixs] hold the
    batch of the quads [quads] when [vs] is their vertices in order, four a
    quad, and [ixs] has six indices a quad, each referring to one of the
    quad's own four vertices. *)
Definition batchOf (quads : list (list Vertex)) (vs : list Vertex)
    (ixs : list Z) : Prop :=
  vs = concat quads
  ∧ length vs = (4 * length quads)%nat
  ∧ length ixs = (6 * length quads)%nat
  ∧ ∀ k j i, (j < 6)%nat → ixs !! (6 * k + j)%nat = Some i →
             (k < length quads)%nat ∧ 4 * Z.of_nat k ≤ i ≤ 4 * Z.of_nat k + 3.

Lemma batchOf_exact (quads : list (list Vertex)) :
  Forall (λ vs, length vs = 4%nat) quads →
  batchOf quads (concat quads) (exactIndices (length quads)).
Proof.
  intros Hq. split_and!; [done|by apply concat_length_quads|
                          apply exactIndices_length|apply exactIndices_lookup].
Qed.

(** C8.  Every frame of the smoke-and-fire game and of the smoke game
    rebuilds its buffers from nothing: after [Draw] they hold the batch of
    the quads of the active particles of the frame (of each blend group,
    for smoke and fire), four vertices and six indices a particle, every
    index referring to one of the particle's own vertices; what the
    buffers held before has no part in it, and a game with the same pool
    gets the same buffers.  The smoke game's [Draw] does not panic. *)
Theorem batch_rebuilt_each_frame
    `{MathLib} `{Float32} `{Rand} `{GeoMLib} (texW texH : float) :
  (∀ g, SmokeFire.Reachable texW texH g →
     let g' := SmokeFire.Draw texW texH g in
     batchOf (SmokeFire.particleQuad texW texH <$> sf_fire g.(SmokeFire.particles))
             g'.(SmokeFire.fireVertices) g'.(SmokeFire.fireIndices)
     ∧ batchOf (SmokeFire.particleQuad texW texH <$> sf_smoke g.(SmokeFire.particles))
               g'.(SmokeFire.smokeVertices) g'.(SmokeFire.smokeIndices)
     ∧ g'.(SmokeFire.particles) = g.(SmokeFire.particles)
     ∧ ∀ h, h.(SmokeFire.particles) = g.(SmokeFire.particles) →
            let h' := SmokeFire.Draw texW texH h in
            h'.(SmokeFire.fireVertices) = g'.(SmokeFire.fireVertices)
            ∧ h'.(SmokeFire.fireIndices) = g'.(SmokeFire.fireIndices)
            ∧ h'.(SmokeFire.smokeVertices) = g'.(SmokeFire.smokeVertices)
            ∧ h'.(SmokeFire.smokeIndices) = g'.(SmokeFire.smokeIndices))
  ∧ (∀ g, Smoke.Reachable texW texH g →
     ∃ g', Smoke.Draw texW texH g = Some g'
           ∧ batchOf (sm_quads texW texH (Smoke.slots g))
                     g'.(Smoke.vertices) g'.(Smoke.indices)
           ∧ length (sm_quads texW texH (Smoke.slots g))
             = activeCount Smoke.active (Smoke.slots g)
           ∧ g'.(Smoke.particles) = g.(Smoke.particles)
           ∧ ∀ h, Smoke.slots h = Smoke.slots g →
                  ∃ h', Smoke.Draw texW texH h = Some h'
                        ∧ h'.(Smoke.vertices) = g'.(Smoke.vertices)
                        ∧ h'.(Smoke.indices) = g'.(Smoke.indices)).
Proof.
  split.
  - intros g Hg g'. subst g'.
    apply (sf_reachable_inv texW texH) in Hg as [Hlen _].
    assert (Z.of_nat (length g.(SmokeFire.particles)) ≤ 16384) as Hcap.
    { rewrite Hlen. unfold SmokeFire.maxParticles. lia. }
    destruct (sf_Draw_spec texW texH g Hcap) as (Hfv & Hfi & Hsv & Hsi).
    rewrite Hfv, Hfi, Hsv, Hsi.
    split_and!.
    + rewrite <- (length_fmap (SmokeFire.particleQuad texW texH)).
      apply batchOf_exact, sf_particleQuad_four.
    + rewrite <- (length_fmap (SmokeFire.particleQuad texW texH)).
      apply batchOf_exact, sf_particleQuad_four.
    + reflexivity.
    + intros h Hh h'. subst h'.
      unfold SmokeFire.Draw. cbn. now rewrite Hh.
  - intros g Hg. apply (sm_reachable_inv texW texH) in Hg as [Hlen Hall].
    assert (4 * Z.of_nat (0 + activeCount Smoke.active (Smoke.slots g)) ≤ 65536)
      as Hcap.
    { pose proof (activeCount_le Smoke.active (Smoke.slots g)).
      unfold Smoke.maxParticles in Hlen. lia. }
    pose proof (sm_drawLoop_spec texW texH (Smoke.slots g) ([], []) 0 Hall
                  eq_refl Hcap) as Hd.
    cbn [fst snd app] in Hd.
    pose proof (sm_quads_length texW texH (Smoke.slots g) Hall) as Hql.
    assert (∀ h, Smoke.slots h = Smoke.slots g →
                 Smoke.Draw texW texH h
                 = Some {| Smoke.particles := h.(Smoke.particles);
                           Smoke.emitterX := h.(Smoke.emitterX);
                           Smoke.emitterY := h.(Smoke.emitterY);
                           Smoke.vertices := concat (sm_quads texW texH (Smoke.slots g));
                           Smoke.indices :=
                             exactIndices (activeCount Smoke.active (Smoke.slots g)) |})
      as Hdraw.
    { intros h Hh. unfold Smoke.Draw. rewrite Hh, Hd. reflexivity. }
    eexists. split; [apply (Hdraw g eq_refl)|]. cbn.
    split_and!.
    + rewrite <- Hql. apply batchOf_exact, sm_quads_four.
    + exact Hql.
    + reflexivity.
    + intros h Hh. eexists. split; [apply (Hdraw h Hh)|]. done.
Qed.

(** ** The batch of the depth fire *)

Lemma foldl_pushQuad_fmap {P} (quad : P → list Vertex) ps b :
  foldl (λ b p, pushQuad b (quad p)) b ps = foldl pushQuad b (quad <$> ps).
Proof. revert b. induction ps as [|p ps IH]; intros b; [done|]. apply IH. Qed.

Lemma cc_Draw_spec `{MathLib} `{Float32} `{GeoMLib} (texW texH : float)
    (g : Concert.Game) :
  Z.of_nat (length g.(Concert.particles)) ≤ 16384 →
  let g' := Concert.Draw texW texH g in
  let quads := Concert.particleQuad texW texH
               <$> List.filter Concert.active g.(Concert.particles) in
  g'.(Concert.vertices) = concat quads
  ∧ g'.(Concert.indices) = exactIndices (activeCount Concert.active g.(Concert.particles))
  ∧ length quads = activeCount Concert.active g.(Concert.particles)
  ∧ Forall (λ vs, length vs = 4%nat) quads.
Proof.
  intros Hlen. cbv zeta. unfold Concert.Draw, Concert.drawLoop.
  cbn [Concert.vertices Concert.indices].
  change (foldl (Concert.drawStep texW texH) emptyBatch g.(Concert.particles))
    with (foldl (λ b p, if negb (Concert.active p) then b
                        else pushQuad b (Concert.particleQuad texW texH p))
            emptyBatch g.(Concert.particles)).
  rewrite foldl_emit.
  pose proof (activeCount_le Concert.active g.(Concert.particles)) as Hle.
  unfold activeCount in *.
  destruct (foldl_pushQuad_empty
              (Concert.particleQuad texW texH
               <$> List.filter Concert.active g.(Concert.particles)))
    as [Hv Hi]; [rewrite length_fmap; lia|].
  rewrite length_fmap in Hi |- *. split_and!; [done..|].
  apply Forall_fmap, Forall_forall. intros p _. reflexivity.
Qed.

(** ** The concert show *)

Section AmazingFacts.
Import Amazing.
Context `{MathLib} `{Float32} `{Rand} `{GeoMLib}.
Context (fireImageW fireImageH : float).
Implicit Types (p : Particle) (ps : list Particle) (g : Game).

Lemma am_spawnAt_length x0 y0 k ps r :
  length (spawnAt x0 y0 k ps r).1 = length ps.
Proof.
  unfold spawnAt. destruct (allocateParticle ps); [|done].
  unfold gbind, gret. destruct (freshParticle x0 y0 k r).
  cbn. apply length_insert.
Qed.

Lemma am_burstLoop_length n x0 y0 ps r :
  length (burstLoop n x0 y0 ps r).1 = length ps.
Proof.
  revert ps r. induction n as [|n IH]; intros ps r; [done|].
  cbn [burstLoop]. unfold gbind.
  pose proof (am_spawnAt_length x0 y0 KindFire ps r) as Hs.
  destruct (spawnAt x0 y0 KindFire ps r) as [ps' r']. cbn in Hs.
  now rewrite IH.
Qed.

Lemma am_emitLoop_length n ex0 ey0 k total ps r :
  length (emitLoop n ex0 ey0 k total ps r).1.2 = length ps.
Proof.
  revert total ps r. induction n as [|n IH]; intros total ps r; [done|].
  cbn [emitLoop]. destruct (total <? spawnPerFrame); [|done].
  unfold gbind. destruct (Float64 r) as [jx r1]. destruct (Float64 r1) as [jy r2].
  match goal with |- context [spawnAt ?a ?b k ps r2] =>
    pose proof (am_spawnAt_length a b k ps r2) as Hs;
    destruct (spawnAt a b k ps r2) as [ps' r3] end.
  cbn in Hs. now rewrite IH.
Qed.

Lemma am_emitterStep_length now e total ps r :
  length (emitterStep now e total ps r).1.2 = length ps.
Proof.
  unfold emitterStep, gbind, gret.
  destruct (Float64 r) as [j r1].
  match goal with |- context [emitLoop ?n ?a ?b ?k total ps r1] =>
    pose proof (am_emitLoop_length n a b k total ps r1) as Hl;
    destruct (emitLoop n a b k total ps r1) as [tp r2] end.
  cbn in Hl. destruct (Float64 r2) as [s r3].
  destruct (s <? 0.003)%float.
  - destruct (Intn 480 r3) as [n r4]. unfold spawnBurst.
    match goal with |- context [burstLoop ?n ?a ?b tp.2 r4] =>
      pose proof (am_burstLoop_length n a b tp.2 r4) as Hb;
      destruct (burstLoop n a b tp.2 r4) as [ps' r5] end.
    cbn in *. congruence.
  - cbn. exact Hl.
Qed.

Lemma am_emitAll_length now es total ps r :
  length (emitAll now es total ps r).1.2 = length ps.
Proof.
  revert total ps r. induction es as [|e es IH]; intros total ps r; [done|].
  cbn [emitAll]. unfold gbind, gret.
  pose proof (am_emitterStep_length now e total ps r) as Hs.
  destruct (emitterStep now e total ps r) as [st r1]. cbn in Hs.
  specialize (IH st.1.2 st.2 r1).
  destruct (emitAll now es st.1.2 st.2 r1) as [rest r2]. cbn in *. congruence.
Qed.

Lemma am_tickAll_length ps r : length (tickAll ps r).1 = length ps.
Proof.
  revert r. induction ps as [|p ps IH]; intros r; [done|].
  cbn [tickAll]. unfold gbind, gret.
  destruct (tickParticle p r) as [p' r1]. specialize (IH r1).
  destruct (tickAll ps r1) as [rest r2]. cbn in *. now rewrite IH.
Qed.

Lemma am_clickBurst_length click ps r :
  length (clickBurst click ps r).1 = length ps.
Proof.
  unfold clickBurst. destruct click as [[mx my]|]; [|done].
  apply am_burstLoop_length.
Qed.

Lemma am_spaceBurst_length space ps r :
  length (spaceBurst space ps r).1 = length ps.
Proof.
  unfold spaceBurst. destruct space; [|done]. unfold gbind.
  destruct (Intn screenWidth r) as [a r']. destruct (Intn _ r') as [b r''].
  apply am_burstLoop_length.
Qed.

Lemma am_Update_length click space g r :
  length (Update click space g r).1.(particles) = length g.(particles).
Proof.
  unfold Update, gbind, gret.
  pose proof (am_clickBurst_length click g.(particles) r) as Hc1.
  destruct (clickBurst click g.(particles) r) as [ps1 r1]. cbn in Hc1.
  pose proof (am_spaceBurst_length space ps1 r1) as Hc2.
  destruct (spaceBurst space ps1 r1) as [ps2 r2]. cbn in Hc2.
  match goal with |- context [emitAll ?now g.(emitters) 0 ps2 r2] =>
    pose proof (am_emitAll_length now g.(emitters) 0 ps2 r2) as Hc3;
    destruct (emitAll now g.(emitters) 0 ps2 r2) as [eps r3] end.
  cbn in Hc3. pose proof (am_tickAll_length eps.2 r3) as Hc4.
  destruct (tickAll eps.2 r3) as [ps3 r4]. cbn in *. congruence.
Qed.

Lemma am_Draw_particles g r : (Draw fireImageW fireImageH g r).1.(particles) = g.(particles).
Proof.
  unfold Draw, gbind, gret. destruct (Z.rem g.(tick) 30 =? 0); [|done].
  destruct (Float64 r) as [sx r1]. now destruct (Float64 r1).
Qed.

Lemma am_NewGame_length r :
  length (NewGame r).1.(particles) = Z.to_nat maxParticles.
Proof.
  unfold NewGame, gbind, gret.
  destruct (fireEmitters 6 r) as [fs r1]. destruct (emberEmitters 3 r1) as [es r2].
  cbn. apply length_replicate.
Qed.

Lemma am_reachable_length g :
  Reachable fireImageW fireImageH g → length g.(particles) = Z.to_nat maxParticles.
Proof.
  induction 1 as [r|g click space r _ IH|g r _ IH].
  - apply am_NewGame_length.
  - now rewrite am_Update_length.
  - now rewrite am_Draw_particles.
Qed.

Lemma am_Draw_spec g r :
  Z.of_nat (length g.(particles)) ≤ 16384 →
  let g' := (Draw fireImageW fireImageH g r).1 in
  let now := (float64_of_int g.(tick) / 60.0)%float in
  let quads := particleQuad fireImageW fireImageH g.(depthOffset) now
               <$> List.filter active g.(particles) in
  g'.(vertices) = concat quads
  ∧ g'.(indices) = exactIndices (activeCount active g.(particles))
  ∧ length quads = activeCount active g.(particles)
  ∧ Forall (λ vs, length vs = 4%nat) quads.
Proof.
  intros Hlen. cbv zeta.
  assert ((Draw fireImageW fireImageH g r).1.(vertices)
          = (drawLoop fireImageW fireImageH g.(depthOffset)
               (float64_of_int g.(tick) / 60.0)%float g.(particles)).(bVertices)
          ∧ (Draw fireImageW fireImageH g r).1.(indices)
            = (drawLoop fireImageW fireImageH g.(depthOffset)
                 (float64_of_int g.(tick) / 60.0)%float g.(particles)).(bIndices))
    as [-> ->].
  { unfold Draw, gbind, gret. destruct (Z.rem g.(tick) 30 =? 0); [|done].
    destruct (Float64 r) as [sx r1]. now destruct (Float64 r1). }
  unfold drawLoop.
  match goal with |- context [foldl (drawStep _ _ ?d ?n) _ _] =>
    change (foldl (drawStep fireImageW fireImageH d n) emptyBatch g.(particles))
      with (foldl (λ b p, if negb (active p) then b
                          else pushQuad b (particleQuad fireImageW fireImageH d n p))
              emptyBatch g.(particles)) end.
  rewrite foldl_emit.
  pose proof (activeCount_le active g.(particles)) as Hle.
  unfold activeCount in *.
  match goal with |- context [foldl pushQuad emptyBatch ?qs] =>
    destruct (foldl_pushQuad_empty qs) as [Hv Hi]; [rewrite length_fmap; lia|] end.
  rewrite length_fmap in Hi |- *. split_and!; [done..|].
  apply Forall_fmap, Forall_forall. intros p _. reflexivity.
Qed.

End AmazingFacts.

(** ** The lifetime colour shift *)

Section AmazingShiftFacts.
Import AmazingShift.
Context `{MathLib} `{Float32} `{Rand} `{GeoMLib}.
Context (fireImageW fireImageH : float).
Implicit Types (a : list Particle) (g : Game).

Lemma as_swapIfNearer_length i j a : length (swapIfNearer i j a) = length a.
Proof.
  unfold swapIfNearer. destruct (a !! i); [|done]. destruct (a !! j); [|done].
  destruct (_ <? _)%float; [|done]. now rewrite !length_insert.
Qed.

Lemma as_sortInner_length n i j a : length (sortInner n i j a) = length a.
Proof.
  revert j a. induction n as [|n IH]; intros j a; [done|].
  cbn [sortInner]. now rewrite IH, as_swapIfNearer_length.
Qed.

Lemma as_sortOuter_length n i a : length (sortOuter n i a) = length a.
Proof.
  revert i a. induction n as [|n IH]; intros i a; [done|].
  cbn [sortOuter]. now rewrite IH, as_sortInner_length.
Qed.

Lemma as_activeParticles_length (ps : list Particle) :
  length (activeParticles ps) = activeCount Concert.active ps.
Proof. unfold activeParticles, sortByDepth. apply as_sortOuter_length. Qed.

Lemma as_Update_length click g r :
  length (Update click g r).1.(particles) = length g.(particles).
Proof.
  unfold Update, gbind, gret. destruct click as [[mx my]|].
  - unfold Concert.spawnExplosion.
    pose proof (cc_explosionLoop_count 600 (float64_of_int mx)
                  (float64_of_int my) g.(particles) r) as (Hl & _).
    destruct (Concert.explosionLoop _ _ _ _ r) as [ps r1]. cbn in *.
    now rewrite length_fmap.
  - cbn. now rewrite length_fmap.
Qed.

Lemma as_reachable_length g :
  Reachable fireImageW fireImageH g → length g.(particles) = Z.to_nat maxParticles.
Proof.
  induction 1 as [|g click r _ IH|g _ IH].
  - apply length_replicate.
  - now rewrite as_Update_length.
  - exact IH.
Qed.

Lemma as_Draw_spec g :
  Z.of_nat (length g.(particles)) ≤ 16384 →
  let g' := Draw fireImageW fireImageH g in
  let quads := particleQuad fireImageW fireImageH <$> activeParticles g.(particles) in
  g'.(vertices) = concat quads
  ∧ g'.(indices) = exactIndices (activeCount Concert.active g.(particles))
  ∧ length quads = activeCount Concert.active g.(particles)
  ∧ Forall (λ vs, length vs = 4%nat) quads.
Proof.
  intros Hlen. cbv zeta. unfold Draw, drawLoop. cbn [vertices indices].
  rewrite foldl_pushQuad_fmap.
  pose proof (activeCount_le Concert.active g.(particles)) as Hle.
  pose proof (as_activeParticles_length g.(particles)) as Hal.
  destruct (foldl_pushQuad_empty
              (particleQuad fireImageW fireImageH <$> activeParticles g.(particles)))
    as [Hv Hi]; [rewrite length_fmap, Hal; unfold Particle in *; lia|].
  rewrite length_fmap, Hal in Hi. rewrite length_fmap.
  split_and!; [done..|].
  apply Forall_fmap, Forall_forall. intros p _. reflexivity.
Qed.

End AmazingShiftFacts.

(** ** The index type is wide enough *)

(** What the index type must allow of a batch of a pool of capacity [cap]: at most
    [4 * cap] vertices, four a quad, and the indices exactly the positions
    of the vertices, none wrapped. *)
Definition exactBatch (cap : Z) (n : nat) (vs : list Vertex) (ixs : list Z) : Prop :=
  Z.of_nat n ≤ cap
  ∧ length vs = (4 * n)%nat
  ∧ Z.of_nat (length vs) ≤ 4 * cap
  ∧ ixs = exactIndices n.

Lemma exactBatch_intro cap n (quads : list (list Vertex)) ixs :
  Z.of_nat n ≤ cap → length quads = n →
  Forall (λ vs, length vs = 4%nat) quads → ixs = exactIndices n →
  exactBatch cap n (concat quads) ixs.
Proof.
  intros Hn Hl Hq ->. unfold exactBatch.
  rewrite (concat_length_quads quads Hq), Hl. split_and!; [done|done|lia|done].
Qed.

(** C10.  In every frame of every demo that batches, a batch has at most
    [4 * maxParticles] vertices, which is at most 65535 (56000 at the
    most, in the concert show), so the conversion of the vertex count to
    [uint16] is the identity on every count a frame reaches and every
    index is the position of its vertex. *)
Theorem vertex_index_fits_uint16
    `{MathLib} `{Float32} `{Rand} `{GeoMLib} (texW texH : float) :
  (4 * SmokeFire.maxParticles ≤ 65535 ∧ 4 * Concert.maxParticles ≤ 65535
   ∧ 4 * Smoke.maxParticles ≤ 65535 ∧ 4 * Amazing.maxParticles = 56000
   ∧ Amazing.maxVertices ≤ 65535 ∧ 4 * AmazingShift.maxParticles ≤ 65535
   ∧ ∀ c, 0 ≤ c ≤ Amazing.maxVertices → uint16 c = c)
  ∧ (∀ g, SmokeFire.Reachable texW texH g →
       let g' := SmokeFire.Draw texW texH g in
       exactBatch SmokeFire.maxParticles (length (sf_fire g.(SmokeFire.particles)))
                  g'.(SmokeFire.fireVertices) g'.(SmokeFire.fireIndices)
       ∧ exactBatch SmokeFire.maxParticles (length (sf_smoke g.(SmokeFire.particles)))
                    g'.(SmokeFire.smokeVertices) g'.(SmokeFire.smokeIndices))
  ∧ (∀ g, Concert.Reachable texW texH g →
       let g' := Concert.Draw texW texH g in
       exactBatch Concert.maxParticles
                  (activeCount Concert.active g.(Concert.particles))
                  g'.(Concert.vertices) g'.(Concert.indices))
  ∧ (∀ g, Smoke.Reachable texW texH g →
       ∃ g', Smoke.Draw texW texH g = Some g'
             ∧ exactBatch Smoke.maxParticles
                          (activeCount Smoke.active (Smoke.slots g))
                          g'.(Smoke.vertices) g'.(Smoke.indices))
  ∧ (∀ g r, Amazing.Reachable texW texH g →
       let g' := (Amazing.Draw texW texH g r).1 in
       exactBatch Amazing.maxParticles
                  (activeCount Amazing.active g.(Amazing.particles))
                  g'.(Amazing.vertices) g'.(Amazing.indices))
  ∧ (∀ g, AmazingShift.Reachable texW texH g →
       let g' := AmazingShift.Draw texW texH g in
       exactBatch AmazingShift.maxParticles
                  (activeCount Concert.active g.(AmazingShift.particles))
                  g'.(AmazingShift.vertices) g'.(AmazingShift.indices)).
Proof.
  split; [|split; [|split; [|split; [|split]]]].
  - unfold SmokeFire.maxParticles, Concert.maxParticles, Smoke.maxParticles,
      Amazing.maxVertices, Amazing.maxParticles, AmazingShift.maxParticles.
    repeat (split; [lia|]). intros c Hc. apply uint16_small. lia.
  - intros g Hg g'. subst g'.
    apply (sf_reachable_inv texW texH) in Hg as [Hlen _].
    assert (Z.of_nat (length g.(SmokeFire.particles)) = SmokeFire.maxParticles)
      as Hcap by (rewrite Hlen; reflexivity).
    destruct (sf_Draw_spec texW texH g) as (Hfv & Hfi & Hsv & Hsi).
    { rewrite Hcap. unfold SmokeFire.maxParticles. lia. }
    rewrite Hfv, Hsv. rewrite <- Hcap. split.
    + apply exactBatch_intro;
        [apply Nat2Z.inj_le, filter_length_le | apply length_fmap
        | apply sf_particleQuad_four | exact Hfi].
    + apply exactBatch_intro;
        [apply Nat2Z.inj_le, filter_length_le | apply length_fmap
        | apply sf_particleQuad_four | exact Hsi].
  - intros g Hg g'. subst g'.
    apply (cc_reachable_length texW texH) in Hg as Hlen.
    assert (Z.of_nat (length g.(Concert.particles)) = Concert.maxParticles)
      as Hcap by (rewrite Hlen; reflexivity).
    destruct (cc_Draw_spec texW texH g) as (Hv & Hi & Hl & Hq).
    { rewrite Hcap. unfold Concert.maxParticles. lia. }
    rewrite Hv. rewrite <- Hcap.
    apply exactBatch_intro; [apply Nat2Z.inj_le, activeCount_le|done..].
  - intros g Hg. apply (sm_reachable_inv texW texH) in Hg as [Hlen Hall].
    pose proof (activeCount_le Smoke.active (Smoke.slots g)) as Hle.
    assert (4 * Z.of_nat (0 + activeCount Smoke.active (Smoke.slots g)) ≤ 65536)
      as Hcap by (unfold Smoke.maxParticles in Hlen; lia).
    pose proof (sm_drawLoop_spec texW texH (Smoke.slots g) ([], []) 0 Hall
                  eq_refl Hcap) as Hd.
    cbn [fst snd app] in Hd. unfold Smoke.Draw. rewrite Hd.
    eexists. split; [reflexivity|]. cbn [Smoke.vertices Smoke.indices fst snd].
    apply exactBatch_intro; [lia|by apply sm_quads_length|apply sm_quads_four|done].
  - intros g r Hg g'. subst g'.
    apply (am_reachable_length texW texH) in Hg as Hlen.
    assert (Z.of_nat (length g.(Amazing.particles)) = Amazing.maxParticles)
      as Hcap by (rewrite Hlen; reflexivity).
    destruct (am_Draw_spec texW texH g r) as (Hv & Hi & Hl & Hq).
    { rewrite Hcap. unfold Amazing.maxParticles. lia. }
    rewrite Hv. rewrite <- Hcap.
    apply exactBatch_intro; [apply Nat2Z.inj_le, activeCount_le|done..].
  - intros g Hg g'. subst g'.
    apply (as_reachable_length texW texH) in Hg as Hlen.
    assert (Z.of_nat (length g.(AmazingShift.particles)) = AmazingShift.maxParticles)
      as Hcap by (rewrite Hlen; reflexivity).
    destruct (as_Draw_spec texW texH g) as (Hv & Hi & Hl & Hq).
    { rewrite Hcap. unfold AmazingShift.maxParticles. lia. }
    rewrite Hv. rewrite <- Hcap.
    apply exactBatch_intro; [apply Nat2Z.inj_le, activeCount_le|done..].
Qed.

(** ** The order of the integrator *)

(** The steps the specification names, on a particle of the smoke game.
    This game has no forces. *)
Module SmokeSteps.
Import Smoke.

Definition advancePosition (p : Particle) : Particle :=
  {| x := p.(x) + p.(vx); y := p.(y) + p.(vy); vx := p.(vx); vy := p.(vy);
     lifetime := p.(lifetime); maxLife := p.(maxLife); img := p.(img);
     baseScale := p.(baseScale); angle := p.(angle);
     angularVelocity := p.(angularVelocity);
     baseAlpha := p.(baseAlpha); color := p.(color); active := p.(active) |}.

Definition advanceRotation (p : Particle) : Particle :=
  {| x := p.(x); y := p.(y); vx := p.(vx); vy := p.(vy);
     lifetime := p.(lifetime); maxLife := p.(maxLife); img := p.(img);
     baseScale := p.(baseScale); angle := p.(angle) + p.(angularVelocity);
     angularVelocity := p.(angularVelocity);
     baseAlpha := p.(baseAlpha); color := p.(color); active := p.(active) |}.

Definition incrementAge (p : Particle) : Particle :=
  {| x := p.(x); y := p.(y); vx := p.(vx); vy := p.(vy);
     lifetime := int_add p.(lifetime) 1; maxLife := p.(maxLife); img := p.(img);
     baseScale := p.(baseScale); angle := p.(angle);
     angularVelocity := p.(angularVelocity);
     baseAlpha := p.(baseAlpha); color := p.(color); active := p.(active) |}.

Definition deactivate (p : Particle) : Particle :=
  {| x := p.(x); y := p.(y); vx := p.(vx); vy := p.(vy);
     lifetime := p.(lifetime); maxLife := p.(maxLife); img := p.(img);
     baseScale := p.(baseScale); angle := p.(angle);
     angularVelocity := p.(angularVelocity);
     baseAlpha := p.(baseAlpha); color := p.(color); active := false |}.

(** [age >= lifespan]. *)
Definition expired (p : Particle) : bool := p.(lifetime) >=? p.(maxLife).

(** Following the specification's words: position, (forces,) rotation,
    then the age, then the deactivation. *)
Definition updateAsSpecified (p : Particle) : Particle :=
  if negb p.(active) then p
  else
    let p' := incrementAge (advanceRotation (advancePosition p)) in
    if expired p' then deactivate p' else p'.

(** The order of [Particle.update]: the age first; an expired particle is
    deactivated and left as it is; else position, then rotation. *)
Definition updateAsCoded (p : Particle) : Particle :=
  if negb p.(active) then p
  else
    let p' := incrementAge p in
    if expired p' then deactivate p'
    else advanceRotation (advancePosition p').

End SmokeSteps.

(** The steps the specification names, on a particle of the concert
    show. *)
Module AmazingSteps.
Import Amazing.

Definition advancePosition (p : Particle) : Particle :=
  {| x := p.(x) + p.(vx); y := p.(y) + p.(vy); z := p.(z) + p.(vz);
     vx := p.(vx); vy := p.(vy); vz := p.(vz);
     lifetime := p.(lifetime); maxLife := p.(maxLife);
     baseScale := p.(baseScale); angle := p.(angle);
     angularVelocity := p.(angularVelocity);
     kind := p.(kind); active := p.(active) |}.

Definition advanceRotation (p : Particle) : Particle :=
  {| x := p.(x); y := p.(y); z := p.(z);
     vx := p.(vx); vy := p.(vy); vz := p.(vz);
     lifetime := p.(lifetime); maxLife := p.(maxLife);
     baseScale := p.(baseScale); angle := p.(angle) + p.(angularVelocity);
     angularVelocity := p.(angularVelocity);
     kind := p.(kind); active := p.(active) |}.

Definition incrementAge (p : Particle) : Particle :=
  {| x := p.(x); y := p.(y); z := p.(z);
     vx := p.(vx); vy := p.(vy); vz := p.(vz);
     lifetime := int_add p.(lifetime) 1; maxLife := p.(maxLife);
     baseScale := p.(baseScale); angle := p.(angle);
     angularVelocity := p.(angularVelocity);
     kind := p.(kind); active := p.(active) |}.

(** The forces of a kind: drag and lift for fire; lift, a random wobble
    and drag in depth for an ember. *)
Definition applyForces `{Rand} (p : Particle) : Gen Particle :=
  match p.(kind) with
  | KindFire =>
      gret {| x := p.(x); y := p.(y); z := p.(z);
              vx := p.(vx) * 0.998; vy := (p.(vy) - 0.015) * 0.999;
              vz := p.(vz) * 0.994;
              lifetime := p.(lifetime); maxLife := p.(maxLife);
              baseScale := p.(baseScale); angle := p.(angle);
              angularVelocity := p.(angularVelocity);
              kind := p.(kind); active := p.(active) |}
  | KindEmber =>
      w <- Float64 ;;
      gret {| x := p.(x); y := p.(y); z := p.(z);
              vx := p.(vx) + (w * 2 - 1) * 0.02; vy := p.(vy) - 0.01;
              vz := p.(vz) * 0.995;
              lifetime := p.(lifetime); maxLife := p.(maxLife);
              baseScale := p.(baseScale); angle := p.(angle);
              angularVelocity := p.(angularVelocity);
              kind := p.(kind); active := p.(active) |}
  end.

(** [age >= lifespan]. *)
Definition expired (p : Particle) : bool := p.(lifetime) >=? p.(maxLife).

(** Following the specification's words: position, forces, rotation, then
    the age, then the deactivation by age or by the margin. *)
Definition tickAsSpecified `{Rand} (p : Particle) : Gen Particle :=
  if p.(active) then
    p2 <- applyForces (advancePosition p) ;;
    let p' := incrementAge (advanceRotation p2) in
    gret (if expired p' || offScreen p' then deactivate p' else p')
  else gret p.

(** The order of [Particle.update] and of the loop of [Game.Update] around
    it: the age first; an expired particle is deactivated and left as it
    is; else position, rotation, then the forces, then the margin. *)
Definition tickAsCoded `{Rand} (p : Particle) : Gen Particle :=
  if p.(active) then
    let p1 := incrementAge p in
    if expired p1 then gret (deactivate p1)
    else
      p' <- applyForces (advanceRotation (advancePosition p1)) ;;
      gret (if offScreen p' then deactivate p' else p')
  else gret p.

End AmazingSteps.

(** Unfolds the steps down to the records they build. *)
Ltac smoke_steps :=
  unfold SmokeSteps.updateAsCoded, SmokeSteps.updateAsSpecified,
    SmokeSteps.expired, SmokeSteps.deactivate, SmokeSteps.advanceRotation,
    SmokeSteps.advancePosition, SmokeSteps.incrementAge in *;
  cbn -[Z.geb int_add] in *.

Ltac amazing_steps :=
  unfold AmazingSteps.tickAsCoded, AmazingSteps.tickAsSpecified,
    AmazingSteps.applyForces, AmazingSteps.expired, Amazing.deactivate,
    AmazingSteps.advanceRotation, AmazingSteps.advancePosition,
    AmazingSteps.incrementAge, gbind, gret in *;
  cbn -[Z.geb int_add] in *.

Lemma sm_update_coded p : Smoke.update p = SmokeSteps.updateAsCoded p.
Proof.
  unfold Smoke.update. smoke_steps.
  destruct (Smoke.active p) eqn:Ha; cbn [negb]; [|done].
  destruct (int_add _ 1 >=? _); now rewrite ?Ha.
Qed.

Lemma am_tick_coded `{MathLib} `{Rand} p r :
  Amazing.tickParticle p r = AmazingSteps.tickAsCoded p r.
Proof.
  unfold Amazing.tickParticle, Amazing.update. amazing_steps.
  destruct (Amazing.active p) eqn:Ha; cbn [negb]; [|done].
  destruct (int_add _ 1 >=? _); cbn -[Z.geb int_add].
  { now destruct (Amazing.offScreen _). }
  destruct (Amazing.kind p); cbn -[Z.geb int_add]; rewrite ?Ha; [done|].
  destruct (Float64 r). cbn. now rewrite ?Ha.
Qed.

(** C3, as the code has it.  The integrator raises the age first; if the
    age has reached the life span it deactivates the particle and updates
    nothing else that tick; otherwise it advances the position by the
    velocity, the rotation by the angular velocity, and then applies the
    forces of the kind (the smoke game has none), and the concert show
    deactivates a particle past the margin (the smoke game has no margin).
    For a particle that lives on, this is the result of the specified
    order (position, forces, rotation, age). *)
Theorem integrator_order `{MathLib} `{Rand} :
  (∀ p, Smoke.update p = SmokeSteps.updateAsCoded p
        ∧ (Smoke.active p = true →
           SmokeSteps.expired (SmokeSteps.incrementAge p) = false →
           Smoke.update p = SmokeSteps.updateAsSpecified p)
        ∧ (Smoke.active p = true →
           SmokeSteps.expired (SmokeSteps.incrementAge p) = true →
           Smoke.update p = SmokeSteps.deactivate (SmokeSteps.incrementAge p)))
  ∧ (∀ p r, Amazing.tickParticle p r = AmazingSteps.tickAsCoded p r
            ∧ (Amazing.active p = true →
               AmazingSteps.expired (AmazingSteps.incrementAge p) = false →
               Amazing.tickParticle p r = AmazingSteps.tickAsSpecified p r)
            ∧ (Amazing.active p = true →
               AmazingSteps.expired (AmazingSteps.incrementAge p) = true →
               Amazing.tickParticle p r
               = (Amazing.deactivate (AmazingSteps.incrementAge p), r))
            ∧ (Amazing.active p = true →
               (Amazing.active (Amazing.tickParticle p r).1 = false
                ↔ AmazingSteps.expired (AmazingSteps.incrementAge p) = true
                  ∨ Amazing.offScreen (Amazing.update p r).1 = true))).
Proof.
  split.
  - intros p. split; [apply sm_update_coded|].
    rewrite sm_update_coded. smoke_steps.
    split; intros Ha He; rewrite Ha; cbn [negb]; rewrite He; done.
  - intros p r. split; [apply am_tick_coded|].
    rewrite am_tick_coded. unfold Amazing.update. amazing_steps.
    split_and!; intros Ha; rewrite ?Ha; cbn [negb].
    + intros He. rewrite He.
      destruct (Amazing.kind p); cbn -[Z.geb int_add].
      * now rewrite ?He.
      * destruct (Float64 r). cbn -[Z.geb int_add]. now rewrite ?He.
    + intros He. now rewrite He.
    + destruct (int_add _ 1 >=? _) eqn:He; cbn -[Z.geb int_add].
      { split; [now left|done]. }
      destruct (Amazing.kind p); cbn -[Z.geb int_add].
      * destruct (Amazing.offScreen _) eqn:Ho; cbn; rewrite ?Ha;
          (split; [intros Hf|intros [Hf|Hf]]); try done; now right.
      * destruct (Float64 r) as [w r']. cbn -[Z.geb int_add].
        destruct (Amazing.offScreen _) eqn:Ho; cbn; rewrite ?Ha;
          (split; [intros Hf|intros [Hf|Hf]]); try done; now right.
Qed.

(** A smoke particle on its last tick, moving right: [update] leaves it
    where it is, the specified order would move it before it expires. *)
Lemma integrator_order_differs :
  let p := {| Smoke.x := 0; Smoke.y := 0; Smoke.vx := 1; Smoke.vy := 0;
              Smoke.lifetime := 9; Smoke.maxLife := 10; Smoke.img := None;
              Smoke.baseScale := 1; Smoke.angle := 0;
              Smoke.angularVelocity := 0; Smoke.baseAlpha := 1;
              Smoke.color := None; Smoke.active := true |} in
  (Smoke.update p).(Smoke.active) = false
  ∧ (Smoke.update p).(Smoke.x) = 0%float
  ∧ (SmokeSteps.updateAsSpecified p).(Smoke.active) = false
  ∧ (SmokeSteps.updateAsSpecified p).(Smoke.x) = 1%float
  ∧ Smoke.update p ≠ SmokeSteps.updateAsSpecified p.
Proof.
  cbv zeta. split_and!; [reflexivity..|].
  intros E. apply (f_equal (λ q, (q.(Smoke.x) =? 0)%float)) in E.
  vm_compute in E. discriminate.
Qed.

(** ** The theorems at work on sample runs *)

(** The smoke-and-fire game after a click at (100, 100) on the fresh
    game, under the sample libraries. *)
Definition clickedSmokeFire : SmokeFire.Game :=
  (@SmokeFire.Update Sample.math Sample.rand (Some (100, 100))
     SmokeFire.NewGame (42 : Z)).1.

Lemma clickedSmokeFire_reachable :
  @SmokeFire.Reachable Sample.math Sample.float32 Sample.rand Sample.geom
    32 32 clickedSmokeFire.
Proof. apply SmokeFire.reach_update, SmokeFire.reach_new. Qed.

(** The pool contract after the click: the pool is not full, so a slot is
    found. *)
Lemma pool_capacity_and_allocation_witness :
  Z.of_nat (length clickedSmokeFire.(SmokeFire.particles)) = SmokeFire.maxParticles
  ∧ Z.of_nat (activeCount SmokeFire.active clickedSmokeFire.(SmokeFire.particles))
    ≤ SmokeFire.maxParticles
  ∧ (SmokeFire.allocateParticle clickedSmokeFire.(SmokeFire.particles) = None
     ↔ Z.of_nat (activeCount SmokeFire.active clickedSmokeFire.(SmokeFire.particles))
       = SmokeFire.maxParticles).
Proof.
  destruct (proj1 (@pool_capacity_and_allocation Sample.math Sample.float32
                     Sample.rand Sample.geom 32 32)
              clickedSmokeFire clickedSmokeFire_reachable)
    as (Hlen & Hle & _ & _ & Hnone).
  exact (conj Hlen (conj Hle Hnone)).
Defined.

(** The two batches of the frame after the click. *)
Lemma batch_rebuilt_each_frame_witness :
  let g' := @SmokeFire.Draw Sample.math Sample.float32 Sample.geom 32 32
              clickedSmokeFire in
  batchOf (@SmokeFire.particleQuad Sample.math Sample.float32 Sample.geom 32 32
           <$> sf_fire clickedSmokeFire.(SmokeFire.particles))
          g'.(SmokeFire.fireVertices) g'.(SmokeFire.fireIndices)
  ∧ batchOf (@SmokeFire.particleQuad Sample.math Sample.float32 Sample.geom 32 32
             <$> sf_smoke clickedSmokeFire.(SmokeFire.particles))
            g'.(SmokeFire.smokeVertices) g'.(SmokeFire.smokeIndices).
Proof.
  destruct (proj1 (@batch_rebuilt_each_frame Sample.math Sample.float32
                     Sample.rand Sample.geom 32 32)
              clickedSmokeFire clickedSmokeFire_reachable)
    as (Hf & Hs & _).
  exact (conj Hf Hs).
Defined.

(** The fire batch of the frame after the click: exact indices. *)
Lemma vertex_index_fits_uint16_witness :
  let g' := @SmokeFire.Draw Sample.math Sample.float32 Sample.geom 32 32
              clickedSmokeFire in
  exactBatch SmokeFire.maxParticles
             (length (sf_fire clickedSmokeFire.(SmokeFire.particles)))
             g'.(SmokeFire.fireVertices) g'.(SmokeFire.fireIndices).
Proof.
  exact (proj1 (proj1 (proj2 (@vertex_index_fits_uint16 Sample.math Sample.float32
                                Sample.rand Sample.geom 32 32))
                  clickedSmokeFire clickedSmokeFire_reachable)).
Defined.

(** A smoke particle in mid-life: [update] and the specified order
    agree on it. *)
Lemma integrator_order_witness :
  let p := {| Smoke.x := 0; Smoke.y := 0; Smoke.vx := 1; Smoke.vy := 0;
              Smoke.lifetime := 3; Smoke.maxLife := 10; Smoke.img := None;
              Smoke.baseScale := 1; Smoke.angle := 0;
              Smoke.angularVelocity := 0; Smoke.baseAlpha := 1;
              Smoke.color := None; Smoke.active := true |} in
  Smoke.update p = SmokeSteps.updateAsSpecified p.
Proof.
  cbv zeta.
  apply (proj1 (@integrator_order Sample.math Sample.rand)); reflexivity.
Defined.

(* ===================================================================== *)
(** * More of the demos: life cycles, quotas, sorts and the ball pit *)
(* ===================================================================== *)

(** ** Pools: what a pass over the slots can do to the count *)

Section PoolPass.
Context {P : Type} (isActive : P → bool).

(** A pass that frees slots and takes none does not raise the count. *)
Lemma activeCount_fmap_le (f : P → P) (ps : list P) :
  (∀ p, isActive (f p) = true → isActive p = true) →
  (activeCount isActive (f <$> ps) ≤ activeCount isActive ps)%nat.
Proof.
  intros Hf. induction ps as [|p ps IH]; [done|].
  rewrite fmap_cons, !activeCount_cons. specialize (Hf p).
  destruct (isActive (f p)); [rewrite Hf by done|destruct (isActive p)]; lia.
Qed.

End PoolPass.

(** ** Smoke and fire: the emitter and the life span *)

Section SmokeFireMore.
Import SmokeFire.
Context `{MathLib} `{Float32} `{Rand} `{GeoMLib}.
Context (smokeImageW smokeImageH : float).
Implicit Types (p q : Particle) (ps : list Particle) (g : Game) (e : Emitter).

(** What holds of every particle [newParticle] makes and every tick keeps
    holds of every slot of every state. *)
Lemma sf_spawnLoop_forall (Q : Particle → Prop) k e ps r :
  (∀ ex0 ey0 t r, Q (newParticle ex0 ey0 t r).1) →
  Forall Q ps → Forall Q (spawnLoop k e ps r).1.
Proof.
  intros Hnew. revert ps r. induction k as [|k IH]; intros ps r Hall; simpl; [done|].
  destruct (allocateParticle ps) as [i|]; [|by apply IH].
  unfold gbind. destruct (newParticle _ _ _ r) as [p r'] eqn:E.
  apply IH, Forall_insert; [done|].
  change p with (p, r').1. rewrite <- E. apply Hnew.
Qed.

Lemma sf_explosionLoop_forall (Q : Particle → Prop) k ex0 ey0 ps r :
  (∀ ex0 ey0 t r, Q (newParticle ex0 ey0 t r).1) →
  (∀ p a b, Q p → Q (setVelocity p a b)) →
  Forall Q ps → Forall Q (explosionLoop k ex0 ey0 ps r).1.
Proof.
  intros Hnew Hvel. revert ps r.
  induction k as [|k IH]; intros ps r Hall; simpl; [done|].
  destruct (allocateParticle ps) as [i|]; [|done].
  unfold gbind. destruct (newParticle _ _ _ r) as [p r1] eqn:E.
  destruct (Float64 r1) as [ba r2]. destruct (Float64 r2) as [bsp r3].
  apply IH, Forall_insert; [done|]. apply Hvel.
  change p with (p, r1).1. rewrite <- E. apply Hnew.
Qed.

Lemma sf_spawn_forall (Q : Particle → Prop) e ps r :
  (∀ ex0 ey0 t r, Q (newParticle ex0 ey0 t r).1) →
  Forall Q ps → Forall Q (spawn e ps r).1.2.
Proof.
  intros Hnew Hall. unfold spawn. destruct (negb _); [done|].
  unfold gbind, gret.
  match goal with |- context [spawnLoop 2 ?e' ps r] =>
    pose proof (sf_spawnLoop_forall Q 2 e' ps r Hnew Hall) as Hl;
    destruct (spawnLoop 2 e' ps r) end.
  done.
Qed.

Lemma sf_spawnAll_forall (Q : Particle → Prop) es ps r :
  (∀ ex0 ey0 t r, Q (newParticle ex0 ey0 t r).1) →
  Forall Q ps → Forall Q (spawnAll es ps r).1.2.
Proof.
  intros Hnew. revert ps r.
  induction es as [|e es IH]; intros ps r Hall; simpl; [done|].
  unfold gbind, gret.
  pose proof (sf_spawn_forall Q e ps r Hnew Hall) as Hs.
  destruct (spawn e ps r) as [eps r1]. simpl in Hs.
  specialize (IH eps.2 r1 Hs).
  destruct (spawnAll es eps.2 r1) as [rest r2]. done.
Qed.

Lemma sf_spawnPhase_forall (Q : Particle → Prop) click g r :
  (∀ ex0 ey0 t r, Q (newParticle ex0 ey0 t r).1) →
  (∀ p a b, Q p → Q (setVelocity p a b)) →
  Forall Q g.(particles) → Forall Q (spawnPhase click g r).1.2.
Proof.
  intros Hnew Hvel Hall. unfold spawnPhase, gbind.
  destruct click as [[mx my]|].
  - pose proof (sf_explosionLoop_forall Q 500 (float64_of_int mx)
                  (float64_of_int my) g.(particles) r Hnew Hvel Hall) as He.
    unfold spawnExplosion.
    destruct (explosionLoop _ _ _ _ r) as [ps1 r1]. by apply sf_spawnAll_forall.
  - by apply sf_spawnAll_forall.
Qed.

Lemma sf_reachable_forall (Q : Particle → Prop) g :
  Q zeroParticle →
  (∀ ex0 ey0 t r, Q (newParticle ex0 ey0 t r).1) →
  (∀ p a b, Q p → Q (setVelocity p a b)) →
  (∀ p, Q p → Q (tick p)) →
  Reachable smokeImageW smokeImageH g → Forall Q g.(particles).
Proof.
  intros Hzero Hnew Hvel Htick.
  induction 1 as [|g click r _ IH|g _ IH].
  - by apply Forall_replicate.
  - rewrite sf_Update_particles. apply Forall_fmap.
    eapply Forall_impl; [by apply sf_spawnPhase_forall|]. exact Htick.
  - exact IH.
Qed.

(** The life cycle with its bounds: a slot in use is younger than its
    life span, which is between 45 and 299 ticks; smoke lives 240 ticks or
    more and is grey, fire lives less than 75 and is orange. *)
Definition sf_kept p : Prop :=
  p.(active) = true →
  0 ≤ p.(lifetime) < p.(maxLife)
  ∧ match p.(pType) with
    | TypeSmoke =>
        240 ≤ p.(maxLife) ≤ 299
        ∧ 192 ≤ p.(col).(color.R) ≤ 254 ∧ 192 ≤ p.(col).(color.G) ≤ 254
        ∧ 192 ≤ p.(col).(color.B) ≤ 254 ∧ p.(col).(color.A) = 255
    | TypeFire =>
        45 ≤ p.(maxLife) ≤ 74 ∧ p.(col) = color.mkRGBA 255 144 0 255
    end.

Lemma sf_newParticle_kept ex0 ey0 t r :
  let p := (newParticle ex0 ey0 t r).1 in
  p.(active) = true ∧ p.(lifetime) = 0 ∧ p.(pType) = t ∧ sf_kept p.
Proof.
  unfold newParticle, sf_kept. destruct t; gen_run; simpl.
  - repeat match goal with
           | E : Intn _ _ = _ |- _ => apply Intn_fst in E; [|lia]
           end.
    rewrite int_add_small by lia. unfold uint8.
    rewrite !Z.mod_small by lia.
    split_and!; try done; try lia; intros _; split_and!; try done; lia.
  - repeat match goal with
           | E : Intn _ _ = _ |- _ => apply Intn_fst in E; [|lia]
           end.
    rewrite int_add_small by lia.
    split_and!; try done; try lia; intros _; split_and!; try done; lia.
Qed.

Lemma sf_tick_frame p :
  (tick p).(pType) = p.(pType) ∧ (tick p).(col) = p.(col).
Proof.
  unfold tick. destruct p.(active) eqn:Ha; [|done].
  destruct (offScreen (update p)); unfold update; rewrite Ha; cbn [negb];
    destruct (_ >=? _); done.
Qed.

Lemma sf_tick_kept p : sf_kept p → sf_kept (tick p).
Proof.
  intros Hp Ha. destruct (sf_tick_fields p) as (El & Em & Eact).
  rewrite Eact in Ha. apply andb_true_iff in Ha as [Ha Hoff].
  apply andb_true_iff in Ha as [Ha Hup].
  destruct (Hp Ha) as [Hl Hrest].
  assert (p.(maxLife) < 2 ^ 63) as Hm by (destruct p.(pType); lia).
  destruct (sf_update_lifetime p Ha Hl Hm) as (El' & Em' & Eact').
  rewrite Eact' in Hup. apply negb_true_iff in Hup.
  destruct (sf_tick_frame p) as [-> ->].
  rewrite El, Em, El', Em'. split; [lia|done].
Qed.

Lemma sf_reachable_kept g :
  Reachable smokeImageW smokeImageH g → Forall sf_kept g.(particles).
Proof.
  apply sf_reachable_forall.
  - intros Ha. discriminate.
  - intros. apply sf_newParticle_kept.
  - intros p a b Hp. exact Hp.
  - apply sf_tick_kept.
Qed.

(** A slot in use, left to the particle loop, is free once its age has
    reached its life span, and stays free. *)
Lemma sf_tick_inactive p : p.(active) = false → tick p = p.
Proof. intros Ha. unfold tick. by rewrite Ha. Qed.

Lemma sf_iter_tick_inactive k p :
  p.(active) = false → Nat.iter k tick p = p.
Proof.
  intros Ha. induction k as [|k IH]; [done|]. simpl. rewrite IH.
  by apply sf_tick_inactive.
Qed.

Lemma sf_iter_tick_expires k p :
  p.(active) = true → 0 ≤ p.(lifetime) < p.(maxLife) → p.(maxLife) < 2 ^ 63 →
  p.(maxLife) - p.(lifetime) ≤ Z.of_nat k →
  (Nat.iter k tick p).(active) = false.
Proof.
  revert p. induction k as [|k IH]; intros p Ha Hl Hm Hk; [lia|].
  rewrite Nat.iter_succ_r.
  destruct (sf_tick_fields p) as (El & Em & Eact).
  destruct (sf_update_lifetime p Ha Hl Hm) as (El' & Em' & Eact').
  destruct (tick p).(active) eqn:Ha'.
  - symmetry in Eact. apply andb_true_iff in Eact as [Eact _].
    apply andb_true_iff in Eact as [_ Hup]. rewrite Eact' in Hup.
    apply negb_true_iff in Hup.
    apply IH; rewrite ?El, ?Em, ?El', ?Em'; try done; lia.
  - by rewrite sf_iter_tick_inactive.
Qed.

(** [Emitter.spawn] on the count of slots in use. *)
Lemma sf_spawnLoop_count k e ps r :
  let ps' := (spawnLoop k e ps r).1 in
  length ps' = length ps
  ∧ activeCount active ps'
    = (activeCount active ps + k `min` (length ps - activeCount active ps))%nat
  ∧ ∀ i p, ps !! i = Some p → active p = true → ps' !! i = Some p.
Proof.
  revert ps r. induction k as [|k IH]; intros ps r ps'; subst ps';
    cbn [spawnLoop].
  { split_and!; [done|simpl; lia|done]. }
  pose proof (activeCount_le active ps) as Hle.
  unfold allocateParticle.
  destruct (firstInactive active ps) as [i|] eqn:Ea.
  - apply firstInactive_Some in Ea as (p0 & Hi & Hp0 & _).
    unfold gbind.
    destruct (newParticle _ _ _ r) as [q r1] eqn:E.
    assert (active q = true) as Hq.
    { pose proof (sf_newParticle_fresh e.(ex) e.(ey) e.(epType) r) as Hf.
      rewrite E in Hf. simpl in Hf. apply Hf. }
    destruct (IH (<[i := q]> ps) r1) as (Hlen & Hcnt & Hkeep).
    pose proof (activeCount_occupy active ps i p0 q Hi Hp0 Hq) as Hc.
    pose proof (activeCount_le active (<[i := q]> ps)) as Hle'.
    rewrite length_insert in Hlen, Hcnt, Hle'.
    split_and!; [done|lia|].
    intros j p' Hj Hact. apply Hkeep; [|done].
    rewrite list_lookup_insert_ne; [done|]. intros ->. congruence.
  - apply firstInactive_None in Ea.
    destruct (IH ps r) as (Hlen & Hcnt & Hkeep).
    split_and!; [done|lia|done].
Qed.

(** With no free slot the loop draws nothing. *)
Lemma sf_spawnLoop_full k e ps r :
  allocateParticle ps = None → spawnLoop k e ps r = (ps, r).
Proof.
  intros Hfull. induction k as [|k IH]; simpl; [done|]. by rewrite Hfull.
Qed.

End SmokeFireMore.

(** [Emitter.spawn], all told. *)
Lemma emitter_spawn_facts `{MathLib} `{Rand}
    (e : SmokeFire.Emitter) (ps : list SmokeFire.Particle) (r : rng) :
  let e' := (SmokeFire.spawn e ps r).1.1 in
  let ps' := (SmokeFire.spawn e ps r).1.2 in
  let free := (length ps - activeCount SmokeFire.active ps)%nat in
  e'.(SmokeFire.counter) = int_add e.(SmokeFire.counter) 1
  ∧ e'.(SmokeFire.rate) = (if e.(SmokeFire.rate) <=? 0 then 1 else e.(SmokeFire.rate))
  ∧ e'.(SmokeFire.ex) = e.(SmokeFire.ex) ∧ e'.(SmokeFire.ey) = e.(SmokeFire.ey)
  ∧ e'.(SmokeFire.epType) = e.(SmokeFire.epType)
  ∧ length ps' = length ps
  ∧ (∀ i p, ps !! i = Some p → SmokeFire.active p = true → ps' !! i = Some p)
  ∧ (Z.rem e'.(SmokeFire.counter) e'.(SmokeFire.rate) ≠ 0 →
     ps' = ps ∧ (SmokeFire.spawn e ps r).2 = r)
  ∧ (Z.rem e'.(SmokeFire.counter) e'.(SmokeFire.rate) = 0 →
     activeCount SmokeFire.active ps'
     = (activeCount SmokeFire.active ps + 2 `min` free)%nat).
Proof.
  intros e' ps' free. subst e' ps' free. unfold SmokeFire.spawn.
  set (c := int_add e.(SmokeFire.counter) 1).
  set (rt := if e.(SmokeFire.rate) <=? 0 then 1 else e.(SmokeFire.rate)).
  set (e1 := SmokeFire.mkEmitter _ _ rt _ c).
  destruct (Z.rem c rt =? 0) eqn:E; cbn [negb].
  - apply Z.eqb_eq in E. unfold gbind, gret.
    destruct (sf_spawnLoop_count 2 e1 ps r) as (Hlen & Hcnt & Hkeep).
    destruct (SmokeFire.spawnLoop 2 e1 ps r) as [ps1 r1]. cbn [fst snd] in *.
    split_and!; try done.
  - apply Z.eqb_neq in E. unfold gret. cbn [fst snd].
    split_and!; try done.
Qed.

(** X1.  [Emitter.spawn] counts its calls and fires when the count is a
    multiple of the rate, a rate of zero or less being taken for 1, so
    that such an emitter fires at every call.  When it fires it takes two
    free slots, or as many as there are; when it does not, it leaves the
    pool alone and draws no random number.  It never touches a slot in
    use, nor the emitter's position and kind. *)
Theorem emitter_fires_on_multiples_of_rate `{MathLib} `{Rand}
    (e : SmokeFire.Emitter) (ps : list SmokeFire.Particle) (r : rng) :
  let e' := (SmokeFire.spawn e ps r).1.1 in
  let ps' := (SmokeFire.spawn e ps r).1.2 in
  let free := (length ps - activeCount SmokeFire.active ps)%nat in
  e'.(SmokeFire.counter) = int_add e.(SmokeFire.counter) 1
  ∧ e'.(SmokeFire.rate) = (if e.(SmokeFire.rate) <=? 0 then 1 else e.(SmokeFire.rate))
  ∧ e'.(SmokeFire.ex) = e.(SmokeFire.ex) ∧ e'.(SmokeFire.ey) = e.(SmokeFire.ey)
  ∧ e'.(SmokeFire.epType) = e.(SmokeFire.epType)
  ∧ length ps' = length ps
  ∧ (∀ i p, ps !! i = Some p → SmokeFire.active p = true → ps' !! i = Some p)
  ∧ (Z.rem e'.(SmokeFire.counter) e'.(SmokeFire.rate) ≠ 0 →
     ps' = ps ∧ (SmokeFire.spawn e ps r).2 = r)
  ∧ (Z.rem e'.(SmokeFire.counter) e'.(SmokeFire.rate) = 0 →
     activeCount SmokeFire.active ps'
     = (activeCount SmokeFire.active ps + 2 `min` free)%nat)
  ∧ (e.(SmokeFire.rate) ≤ 0 →
     activeCount SmokeFire.active ps'
     = (activeCount SmokeFire.active ps + 2 `min` free)%nat).
Proof.
  intros e' ps' free.
  destruct (emitter_spawn_facts e ps r)
    as (Hc & Hrate & Hx & Hy & Ht & Hlen & Hkeep & Hidle & Hfire).
  fold e' ps' free in Hc, Hrate, Hx, Hy, Ht, Hlen, Hkeep, Hidle, Hfire.
  split_and!; try done.
  intros Hr. apply Hfire. rewrite Hrate.
  destruct (Z.leb_spec e.(SmokeFire.rate) 0); [|lia]. apply Z.rem_1_r.
Qed.

Section SmokeFireEmitter.
Import SmokeFire.
Context `{MathLib} `{Float32} `{Rand} `{GeoMLib}.
Context (smokeImageW smokeImageH : float).

Lemma sf_tick_keeps_free (p : Particle) :
  (tick p).(active) = true → p.(active) = true.
Proof.
  destruct (sf_tick_fields p) as (_ & _ & ->).
  intros [[Ha _]%andb_true_iff _]%andb_true_iff. exact Ha.
Qed.

(** The one emitter of the game, at its [c]-th call. *)
Definition sf_smokeEmitter (c : Z) : Emitter :=
  {| ex := 320; ey := 430; rate := 3; epType := TypeSmoke; counter := c |}.

Lemma sf_spawn_smokeEmitter c ps r :
  (spawn (sf_smokeEmitter c) ps r).1.1 = sf_smokeEmitter (int_add c 1).
Proof.
  unfold spawn. destruct (negb _); [reflexivity|].
  unfold gbind, gret.
  match goal with
  | |- context [spawnLoop ?k ?e ?l ?s] => destruct (spawnLoop k e l s)
  end.
  reflexivity.
Qed.

Lemma sf_Update_emitters click g r :
  (Update click g r).1.(emitters) = (spawnPhase click g r).1.1.
Proof. unfold Update, gbind, gret. now destruct (spawnPhase click g r). Qed.

Lemma sf_spawnAll_smokeEmitter c ps r :
  (spawnAll [sf_smokeEmitter c] ps r).1.1 = [sf_smokeEmitter (int_add c 1)].
Proof.
  cbn [spawnAll]. unfold gbind, gret.
  pose proof (sf_spawn_smokeEmitter c ps r) as Hs.
  destruct (spawn _ ps r) as [eps r2]. cbn [fst snd] in *. by rewrite Hs.
Qed.

Lemma sf_Update_smokeEmitter click g r c :
  g.(emitters) = [sf_smokeEmitter c] →
  (Update click g r).1.(emitters) = [sf_smokeEmitter (int_add c 1)].
Proof.
  intros He. rewrite sf_Update_emitters. unfold spawnPhase, gbind. rewrite He.
  destruct click as [[mx my]|].
  - destruct (spawnExplosion _ _ _ r) as [ps1 r1]. apply sf_spawnAll_smokeEmitter.
  - apply sf_spawnAll_smokeEmitter.
Qed.

Lemma sf_reachable_emitter g :
  Reachable smokeImageW smokeImageH g → ∃ c, g.(emitters) = [sf_smokeEmitter c].
Proof.
  induction 1 as [|g click r _ [c IH]|g _ IH].
  - by exists 0.
  - exists (int_add c 1). by apply sf_Update_smokeEmitter.
  - exact IH.
Qed.

End SmokeFireEmitter.

(** X2.  The smoke-and-fire game has one emitter in every state it
    reaches, the smoke emitter [NewGame] places at (320, 430) with rate 3,
    and [Update] counts its calls on it.  An [Update] without a click puts
    at most two more particles in use, and none, drawing no random number,
    unless the count reaches a multiple of 3: the pool is then only
    aged. *)
Theorem smoke_emitter_every_third_tick
    `{MathLib} `{Float32} `{Rand} `{GeoMLib} (texW texH : float)
    (g : SmokeFire.Game) :
  SmokeFire.Reachable texW texH g →
  ∃ c, g.(SmokeFire.emitters) = [SmokeFire.mkEmitter 320 430 3 SmokeFire.TypeSmoke c]
       ∧ ∀ click r,
           let g' := (SmokeFire.Update click g r).1 in
           g'.(SmokeFire.emitters)
           = [SmokeFire.mkEmitter 320 430 3 SmokeFire.TypeSmoke (int_add c 1)]
           ∧ (click = None →
              (activeCount SmokeFire.active g'.(SmokeFire.particles)
               ≤ activeCount SmokeFire.active g.(SmokeFire.particles) + 2)%nat
              ∧ (Z.rem (int_add c 1) 3 ≠ 0 →
                 g'.(SmokeFire.particles) = SmokeFire.tick <$> g.(SmokeFire.particles)
                 ∧ (SmokeFire.Update click g r).2 = r)).
Proof.
  intros Hr. destruct (sf_reachable_emitter texW texH g Hr) as [c He].
  exists c. split; [exact He|]. intros click r g'. subst g'.
  split; [by apply sf_Update_smokeEmitter|]. intros ->.
  pose proof (emitter_spawn_facts (sf_smokeEmitter c) g.(SmokeFire.particles) r)
    as Hs.
  unfold SmokeFire.Update, SmokeFire.spawnPhase, gbind, gret. rewrite He.
  cbn [SmokeFire.spawnAll]. unfold gbind, gret.
  destruct (SmokeFire.spawn _ _ r) as [[e1 ps1] r1].
  cbn [fst snd SmokeFire.particles] in *.
  destruct Hs as (Hc & Hrate & _ & _ & _ & Hlen & _ & Hidle & Hfire).
  cbn in Hrate. rewrite Hc, Hrate in Hidle, Hfire.
  pose proof (activeCount_fmap_le SmokeFire.active SmokeFire.tick ps1
                sf_tick_keeps_free) as Hle.
  split.
  - destruct (Z.eq_dec (Z.rem (int_add c 1) 3) 0) as [E|E].
    + apply Hfire in E. lia.
    + apply Hidle in E as [-> _]. lia.
  - intros E. by apply Hidle in E as [-> ->].
Qed.

(** X3.  A particle in use in a state the smoke-and-fire game reaches is
    younger than its life span; it is smoke made to live 240 to 299 ticks,
    grey with every channel between 192 and 254 and opaque, or fire made to
    live 45 to 74 ticks, orange.  The particle loop frees it when its age
    reaches its life span, if not sooner, and leaves it free: no slot is
    held for 300 ticks. *)
Theorem particle_freed_within_life_span
    `{MathLib} `{Float32} `{Rand} `{GeoMLib} (texW texH : float)
    (g : SmokeFire.Game) (p : SmokeFire.Particle) :
  SmokeFire.Reachable texW texH g →
  p ∈ g.(SmokeFire.particles) →
  SmokeFire.active p = true →
  0 ≤ SmokeFire.lifetime p < SmokeFire.maxLife p
  ∧ match SmokeFire.pType p with
    | SmokeFire.TypeSmoke =>
        240 ≤ SmokeFire.maxLife p ≤ 299
        ∧ 192 ≤ (SmokeFire.col p).(color.R) ≤ 254
        ∧ 192 ≤ (SmokeFire.col p).(color.G) ≤ 254
        ∧ 192 ≤ (SmokeFire.col p).(color.B) ≤ 254
        ∧ (SmokeFire.col p).(color.A) = 255
    | SmokeFire.TypeFire =>
        45 ≤ SmokeFire.maxLife p ≤ 74
        ∧ SmokeFire.col p = color.mkRGBA 255 144 0 255
    end
  ∧ (∀ k : nat, SmokeFire.maxLife p - SmokeFire.lifetime p ≤ Z.of_nat k →
       SmokeFire.active (Nat.iter k SmokeFire.tick p) = false)
  ∧ SmokeFire.active (Nat.iter 299 SmokeFire.tick p) = false.
Proof.
  intros Hr Hp Ha.
  pose proof (sf_reachable_kept texW texH g Hr) as Hall.
  rewrite Forall_forall in Hall. destruct (Hall p Hp Ha) as [Hl Hk].
  assert (SmokeFire.maxLife p ≤ 299) as Hm by (destruct (SmokeFire.pType p); lia).
  split_and!; [lia|lia|done| |].
  - intros k Hle. apply sf_iter_tick_expires; [done|lia|lia|done].
  - apply sf_iter_tick_expires; [done|lia|lia|lia].
Qed.

(** The state after the click, already in the file as [clickedSmokeFire]:
    its first slot holds a fire particle of the explosion. *)
Lemma particle_freed_within_life_span_witness :
  let p := default SmokeFire.zeroParticle
                   (clickedSmokeFire.(SmokeFire.particles) !! 0%nat) in
  SmokeFire.active p = true
  ∧ SmokeFire.pType p = SmokeFire.TypeFire
  ∧ 45 ≤ SmokeFire.maxLife p ≤ 74
  ∧ SmokeFire.active (Nat.iter 299 SmokeFire.tick p) = false.
Proof.
  intros p.
  assert (clickedSmokeFire.(SmokeFire.particles) !! 0%nat = Some p) as Hl
    by (vm_compute; reflexivity).
  assert (SmokeFire.active p = true) as Ha by (vm_compute; reflexivity).
  assert (SmokeFire.pType p = SmokeFire.TypeFire) as Ht by (vm_compute; reflexivity).
  pose proof (@particle_freed_within_life_span Sample.math Sample.float32
                Sample.rand Sample.geom 32 32 clickedSmokeFire p
                clickedSmokeFire_reachable
                (list_elem_of_lookup_2 _ _ _ Hl) Ha) as (_ & Hk & _ & Hfree).
  rewrite Ht in Hk. exact (conj Ha (conj Ht (conj (proj1 Hk) Hfree))).
Defined.

Lemma smoke_emitter_every_third_tick_witness :
  ∃ c, clickedSmokeFire.(SmokeFire.emitters)
       = [SmokeFire.mkEmitter 320 430 3 SmokeFire.TypeSmoke c].
Proof.
  destruct (@smoke_emitter_every_third_tick Sample.math Sample.float32
              Sample.rand Sample.geom 32 32 clickedSmokeFire
              clickedSmokeFire_reachable) as (c & He & _).
  exists c. exact He.
Defined.

(** ** Depth fire: an explosion burns out *)

Section ConcertMore.
Import Concert.
Context `{MathLib} `{Float32} `{Rand} `{GeoMLib}.
Context (fireImageW fireImageH : float).
Implicit Types (p q : Particle) (ps : list Particle) (g : Game).

(** A slot in use is younger than its life span, which is under 80
    ticks. *)
Definition cc_kept p : Prop :=
  p.(active) = true → 0 ≤ p.(lifetime) < p.(maxLife) ∧ 40 ≤ p.(maxLife) ≤ 79.

Lemma cc_newFireParticle_kept x0 y0 r : cc_kept (newFireParticle x0 y0 r).1.
Proof.
  pose proof (cc_newFireParticle_fresh x0 y0 r) as (_ & Hl & Hm).
  intros _. simpl in *. lia.
Qed.

Lemma cc_tick_inactive p : p.(active) = false → tick p = p.
Proof. intros Ha. unfold tick. by rewrite Ha. Qed.

(** One tick of a slot in use. *)
Lemma cc_tick_active p :
  p.(active) = true → 0 ≤ p.(lifetime) < p.(maxLife) → p.(maxLife) < 2 ^ 63 →
  (tick p).(lifetime) = p.(lifetime) + 1 ∧ (tick p).(maxLife) = p.(maxLife)
  ∧ (tick p).(active) = negb (p.(maxLife) <=? p.(lifetime) + 1).
Proof.
  intros Ha Hl Hm. unfold tick, update. rewrite Ha. cbn [negb].
  rewrite int_add_small by lia.
  destruct (p.(lifetime) + 1 >=? p.(maxLife)) eqn:E; cbn;
    (split; [reflexivity|split; [reflexivity|]]); symmetry.
  - apply negb_false_iff. lia.
  - apply negb_true_iff. lia.
Qed.

Lemma cc_tick_kept p : cc_kept p → cc_kept (tick p).
Proof.
  intros Hp Ha'. destruct p.(active) eqn:Ha;
    [|by rewrite cc_tick_inactive, Ha in Ha'].
  destruct (Hp Ha) as [Hl Hm].
  destruct (cc_tick_active p Ha Hl ltac:(lia)) as (El & Em & Eact).
  rewrite Eact in Ha'. apply negb_true_iff in Ha'. rewrite El, Em. lia.
Qed.

Lemma cc_tick_keeps_free p : (tick p).(active) = true → p.(active) = true.
Proof.
  destruct p.(active) eqn:Ha; [done|]. by rewrite cc_tick_inactive, Ha.
Qed.

Lemma cc_explosionLoop_kept k x0 y0 ps r :
  Forall cc_kept ps → Forall cc_kept (explosionLoop k x0 y0 ps r).1.
Proof.
  revert ps r. induction k as [|k IH]; intros ps r Hall; simpl; [done|].
  destruct (allocateParticle ps) as [i|]; [|done].
  unfold gbind. destruct (newFireParticle _ _ r) as [p r1] eqn:E.
  apply IH, Forall_insert; [done|].
  change p with (p, r1).1. rewrite <- E. apply cc_newFireParticle_kept.
Qed.

Lemma cc_spawnPhase_kept click g r :
  Forall cc_kept g.(particles) → Forall cc_kept (spawnPhase click g r).1.
Proof.
  intros Hall. unfold spawnPhase. destruct click as [[mx my]|]; [|done].
  by apply cc_explosionLoop_kept.
Qed.

Lemma cc_reachable_kept g :
  Reachable fireImageW fireImageH g → Forall cc_kept g.(particles).
Proof.
  induction 1 as [|g click r _ IH|g _ IH].
  - apply Forall_replicate. intros Ha. discriminate.
  - rewrite cc_Update_particles. apply Forall_fmap.
    eapply Forall_impl; [by apply cc_spawnPhase_kept|]. apply cc_tick_kept.
  - exact IH.
Qed.

Lemma cc_iter_tick_inactive k p : p.(active) = false → Nat.iter k tick p = p.
Proof.
  intros Ha. induction k as [|k IH]; [done|]. simpl. rewrite IH.
  by apply cc_tick_inactive.
Qed.

Lemma cc_iter_tick_expires k p :
  p.(active) = true → 0 ≤ p.(lifetime) < p.(maxLife) → p.(maxLife) < 2 ^ 63 →
  ((Nat.iter k tick p).(active) = true ↔ p.(lifetime) + Z.of_nat k < p.(maxLife)).
Proof.
  revert p. induction k as [|k IH]; intros p Ha Hl Hm.
  { simpl. rewrite Ha. split; [lia|done]. }
  rewrite Nat.iter_succ_r.
  destruct (cc_tick_active p Ha Hl Hm) as (El & Em & Eact).
  destruct (tick p).(active) eqn:Ha'.
  - symmetry in Eact. apply negb_true_iff in Eact.
    rewrite IH; rewrite ?El, ?Em; try done; lia.
  - rewrite cc_iter_tick_inactive, Ha' by done.
    symmetry in Eact. apply negb_false_iff in Eact. split; [done|lia].
Qed.

(** [n] calls of [Update] with no click between them. *)
Fixpoint cc_idle (n : nat) (g : Game) : Gen Game :=
  match n with
  | O => gret g
  | S n' => g' <- Update None g ;; cc_idle n' g'
  end.

Lemma cc_Update_idle g r :
  Update None g r
  = ({| particles := tick <$> g.(particles);
        vertices := g.(vertices); indices := g.(indices) |}, r).
Proof. reflexivity. Qed.

Lemma cc_idle_spec n g r :
  (cc_idle n g r).1.(particles) = Nat.iter n tick <$> g.(particles)
  ∧ (cc_idle n g r).2 = r.
Proof.
  revert g. induction n as [|n IH]; intros g.
  { simpl. by rewrite list_fmap_id. }
  cbn [cc_idle]. unfold gbind. rewrite cc_Update_idle.
  destruct (IH {| particles := tick <$> g.(particles);
                  vertices := g.(vertices); indices := g.(indices) |})
    as [Hp Hr].
  rewrite Hp, Hr. cbn [particles]. split; [|done].
  rewrite <- list_fmap_compose. apply list_fmap_ext. intros i p _.
  unfold compose. symmetry. apply Nat.iter_succ_r.
Qed.

End ConcertMore.

(** X4.  In the depth fire a click is the only source of particles, and
    what it lights burns out: a particle in use in a state the game reaches
    is younger than its life span, of 40 to 79 ticks, and stays in use for
    exactly the ticks it has left.  [n] calls of [Update] without a click
    draw no random number and age every slot [n] times; after 79 of them no
    slot is in use. *)
Theorem explosion_burns_out
    `{MathLib} `{Float32} `{Rand} `{GeoMLib} (texW texH : float)
    (g : Concert.Game) :
  Concert.Reachable texW texH g →
  (∀ p, p ∈ g.(Concert.particles) → Concert.active p = true →
        0 ≤ Concert.lifetime p < Concert.maxLife p
        ∧ 40 ≤ Concert.maxLife p ≤ 79
        ∧ ∀ k : nat, Concert.active (Nat.iter k Concert.tick p) = true
                     ↔ Concert.lifetime p + Z.of_nat k < Concert.maxLife p)
  ∧ (∀ n r, (cc_idle n g r).1.(Concert.particles)
            = Nat.iter n Concert.tick <$> g.(Concert.particles)
            ∧ (cc_idle n g r).2 = r
            ∧ (activeCount Concert.active (cc_idle n g r).1.(Concert.particles)
               ≤ activeCount Concert.active g.(Concert.particles))%nat)
  ∧ (∀ r, activeCount Concert.active (cc_idle 79 g r).1.(Concert.particles) = 0%nat).
Proof.
  intros Hr. pose proof (cc_reachable_kept texW texH g Hr) as Hall.
  rewrite Forall_forall in Hall. split_and!.
  - intros p Hp Ha. destruct (Hall p Hp Ha) as [Hl Hm].
    split_and!; [lia..|]. intros k. apply cc_iter_tick_expires; [done|lia|lia].
  - intros n r. destruct (cc_idle_spec n g r) as [-> ->].
    split_and!; [done..|].
    apply activeCount_fmap_le. clear. intros p.
    induction n as [|n IH]; [done|]. simpl. intros Ha.
    by apply IH, cc_tick_keeps_free.
  - intros r. destruct (cc_idle_spec 79 g r) as [-> _].
    pose proof (activeCount_le Concert.active
                  (Nat.iter 79 Concert.tick <$> g.(Concert.particles))) as Hle.
    destruct (decide (activeCount Concert.active
                        (Nat.iter 79 Concert.tick <$> g.(Concert.particles))
                      = 0%nat)) as [E|E]; [done|exfalso].
    assert (∃ q, q ∈ Nat.iter 79 Concert.tick <$> g.(Concert.particles)
                 ∧ Concert.active q = true) as (q & Hq & Ha).
    { unfold activeCount in E.
      destruct (List.filter _ _) as [|q l] eqn:Ef; [done|].
      assert (List.In q (List.filter Concert.active
                (Nat.iter 79 Concert.tick <$> g.(Concert.particles)))) as Hin
        by (rewrite Ef; by left).
      apply List.filter_In in Hin as [Hin Ha]. exists q.
      split; [by apply list_elem_of_In|done]. }
    apply list_elem_of_fmap in Hq as (p & -> & Hp).
    destruct (Concert.active p) eqn:Hap.
    + destruct (Hall p Hp Hap) as [Hl Hm].
      apply cc_iter_tick_expires in Ha; [lia|done|lia|lia].
    + rewrite cc_iter_tick_inactive in Ha by done. congruence.
Qed.

(** The depth fire after a click at (100, 100) on the fresh game, under
    the sample libraries. *)
Definition clickedConcert : Concert.Game :=
  (@Concert.Update Sample.math Sample.rand (Some (100, 100))
     Concert.NewGame (42 : Z)).1.

Lemma clickedConcert_reachable :
  @Concert.Reachable Sample.math Sample.float32 Sample.rand Sample.geom
    32 32 clickedConcert.
Proof. apply Concert.reach_update, Concert.reach_new. Qed.

(** The 600 particles of the click are gone 79 ticks later. *)
Lemma explosion_burns_out_witness :
  activeCount Concert.active clickedConcert.(Concert.particles) = 600%nat
  ∧ activeCount Concert.active
      (@cc_idle Sample.math Sample.rand 79 clickedConcert (7 : Z)).1.(Concert.particles)
    = 0%nat.
Proof.
  split; [vm_compute; reflexivity|].
  exact (proj2 (proj2 (@explosion_burns_out Sample.math Sample.float32
                         Sample.rand Sample.geom 32 32 clickedConcert
                         clickedConcert_reachable)) (7 : Z)).
Defined.

(** ** The smoke pool stays small *)

(** Distinct integers of a range are no more than the range holds. *)
Lemma NoDup_range_length (l : list Z) (lo n : Z) :
  NoDup l → Forall (λ z, lo ≤ z < lo + n) l → 0 ≤ n → Z.of_nat (length l) ≤ n.
Proof.
  intros Hnd Hall Hn.
  assert (l ⊆+ seqZ lo n) as Hsub.
  { apply NoDup_submseteq; [done|]. rewrite Forall_forall in Hall.
    intros z Hz. apply elem_of_seqZ. by apply Hall. }
  apply submseteq_length in Hsub. rewrite length_seqZ in Hsub. lia.
Qed.

Section PoolFilter.
Context {P : Type} (isActive : P → bool).

(** Taking a free slot adds the new content to the slots in use. *)
Lemma filter_occupy (ps : list P) i p q :
  ps !! i = Some q → isActive q = false → isActive p = true →
  List.filter isActive (<[i := p]> ps) ≡ₚ p :: List.filter isActive ps.
Proof.
  revert i. induction ps as [|h t IH]; intros [|i] Hi Hq Hp; simplify_eq/=.
  - by rewrite Hq, Hp.
  - destruct (isActive h); [|by apply IH].
    rewrite (IH i) by done. apply Permutation_swap.
Qed.

End PoolFilter.

Section SmokeSmall.
Import Smoke.
Context `{MathLib} `{Float32} `{Rand} `{GeoMLib}.
Context (smokeImageW smokeImageH : float).
Implicit Types (p q : Particle) (ps : list Particle) (g : Game).

(** The ages of the slots in use. *)
Definition sm_ages ps : list Z := lifetime <$> List.filter active ps.

(** A slot in use is at least [lo] ticks old and younger than its life
    span, which is under 300 ticks. *)
Definition sm_aged (lo : Z) p : Prop :=
  p.(active) = true → lo ≤ p.(lifetime) < p.(maxLife) ∧ p.(maxLife) ≤ 299.

Definition sm_small_inv (lo : Z) ps : Prop :=
  Forall (sm_aged lo) ps ∧ NoDup (sm_ages ps) ∧ Z.of_nat (length ps) ≤ 299.

Lemma sm_ages_range lo ps :
  Forall (sm_aged lo) ps → Forall (λ z, lo ≤ z < lo + (299 - lo)) (sm_ages ps).
Proof.
  unfold sm_ages. intros Hall. apply Forall_fmap.
  rewrite Forall_forall in Hall |- *.
  intros p [Hp Hact]%list_elem_of_In%List.filter_In.
  apply list_elem_of_In in Hp. specialize (Hall p Hp Hact). simpl. lia.
Qed.

Lemma sm_newParticle_fresh image ex0 ey0 r :
  let p := (newParticle image ex0 ey0 r).1 in
  p.(active) = true ∧ p.(lifetime) = 0 ∧ 240 ≤ p.(maxLife) ≤ 299.
Proof.
  unfold newParticle. gen_run. simpl.
  match goal with E : Intn 60 _ = _ |- _ => apply Intn_fst in E; [|lia] end.
  rewrite int_add_small by lia. lia.
Qed.

Lemma sm_aged_weaken lo p : sm_aged (lo + 1) p → sm_aged lo p.
Proof. intros Hp Ha. specialize (Hp Ha). lia. Qed.

(** The emitter on a pool whose slots in use are a tick old or more. *)
Lemma sm_emit_small ex0 ey0 ps r :
  sm_small_inv 1 ps → sm_small_inv 0 (emit ex0 ey0 ps r).1.
Proof.
  intros (Hall & Hnd & Hlen).
  assert (sm_small_inv 0 ps) as Hweak.
  { split_and!; [|done..]. eapply Forall_impl; [exact Hall|].
    intros p. apply (sm_aged_weaken 0). }
  unfold emit.
  destruct (Z.of_nat (length ps) <? maxParticles); [|done].
  unfold gbind. destruct (Intn 3 r) as [k r1].
  destruct (k <? 2); [|done].
  pose proof (sm_newParticle_fresh smokeImage ex0 ey0 r1) as Hnew.
  assert (∀ ps' i q p, ps' !! i = Some q → active q = false →
            List.filter active ps' = List.filter active ps →
            Forall (sm_aged 1) ps' → Z.of_nat (length ps') ≤ 299 →
            p = (newParticle smokeImage ex0 ey0 r1).1 →
            sm_small_inv 0 (<[i := p]> ps')) as Hput.
  { intros ps' i q p Hi Hq Hf Hall' Hlen' ->.
    destruct Hnew as (Hact & Hlife & Hmax).
    split_and!.
    - apply Forall_insert.
      + eapply Forall_impl; [exact Hall'|]. intros p. apply (sm_aged_weaken 0).
      + intros _. lia.
    - unfold sm_ages. rewrite (filter_occupy active ps' i _ q) by done.
      rewrite Hf. cbn [fmap list_fmap]. rewrite Hlife.
      apply NoDup_cons. split; [|done].
      intros Hin. pose proof (sm_ages_range 1 ps Hall) as Hr.
      rewrite Forall_forall in Hr. specialize (Hr 0 Hin). simpl in Hr. lia.
    - by rewrite length_insert. }
  unfold allocateParticle.
  destruct (firstInactive active ps) as [i|] eqn:Ea.
  - apply firstInactive_Some in Ea as (q & Hi & Hq & _).
    unfold gbind, gret.
    destruct (newParticle smokeImage ex0 ey0 r1) as [p r2] eqn:E. cbn [fst].
    by apply (Hput ps i q p).
  - apply firstInactive_None in Ea.
    assert (Z.of_nat (length ps) ≤ 298) as Hfew.
    { pose proof (NoDup_range_length (sm_ages ps) 1 298 Hnd
                    (sm_ages_range 1 ps Hall) ltac:(lia)) as Hc.
      unfold sm_ages in Hc. rewrite length_fmap in Hc.
      unfold activeCount in Ea. lia. }
    destruct (Z.of_nat (length ps) <? maxParticles) eqn:El;
      [|unfold maxParticles in El; lia].
    unfold gbind, gret.
    destruct (newParticle smokeImage ex0 ey0 r1) as [p r2] eqn:E. cbn [fst].
    apply (Hput (ps ++ [zeroParticle]) (length ps) zeroParticle p).
    + by apply list_lookup_middle.
    + done.
    + rewrite List.filter_app. simpl. by rewrite app_nil_r.
    + apply Forall_app. split; [done|]. apply Forall_singleton. intros Ha. discriminate.
    + rewrite length_app. simpl. lia.
    + done.
Qed.

Lemma sm_tick_step p :
  sm_aged 0 p → p.(active) = true →
  (tick p).(active) = true → (tick p).(lifetime) = p.(lifetime) + 1
                            ∧ (tick p).(maxLife) = p.(maxLife).
Proof.
  intros Hp Ha. destruct (Hp Ha) as [Hl Hm].
  unfold tick, update. rewrite Ha. cbn [negb].
  rewrite int_add_small by lia.
  destruct (_ >=? _); cbn; [discriminate|done].
Qed.

Lemma sm_tick_idle p : p.(active) = false → tick p = p.
Proof. intros Ha. unfold tick. by rewrite Ha. Qed.

Lemma sm_tick_ages ps :
  Forall (sm_aged 0) ps →
  sm_ages (tick <$> ps) `sublist_of` (λ z, z + 1) <$> sm_ages ps.
Proof.
  unfold sm_ages. induction 1 as [|p ps Hp _ IH]; [done|].
  cbn [fmap list_fmap List.filter].
  destruct p.(active) eqn:Ha.
  - cbn [fmap list_fmap]. destruct (tick p).(active) eqn:Ha'.
    + cbn [fmap list_fmap].
      destruct (sm_tick_step p Hp Ha Ha') as [-> _]. by apply sublist_skip.
    + by apply sublist_cons.
  - rewrite sm_tick_idle, Ha by done. exact IH.
Qed.

Lemma sm_tick_small ps : sm_small_inv 0 ps → sm_small_inv 1 (tick <$> ps).
Proof.
  intros (Hall & Hnd & Hlen). split_and!.
  - apply Forall_fmap. eapply Forall_impl; [exact Hall|].
    intros p Hp Ha'. cbn in Ha'.
    destruct p.(active) eqn:Ha; [|by rewrite sm_tick_idle, Ha in Ha'].
    destruct (sm_tick_step p Hp Ha Ha') as [El Em]. cbn.
    rewrite El, Em. specialize (Hp Ha).
    assert ((tick p).(lifetime) < (tick p).(maxLife)) as Hlt.
    { revert Ha'. unfold tick, update. rewrite Ha. cbn [negb].
      destruct (_ >=? _) eqn:E; cbn; [discriminate|]. intros _. lia. }
    rewrite El, Em in Hlt. lia.
  - apply (sublist_NoDup _ ((λ z, z + 1) <$> sm_ages ps)).
    + apply NoDup_fmap_2; [|done]. intros a b E. lia.
    + by apply sm_tick_ages.
  - by rewrite length_fmap.
Qed.

Lemma sm_reachable_small g :
  Reachable smokeImageW smokeImageH g → sm_small_inv 1 (slots g).
Proof.
  induction 1 as [|g r _ IH|g g' _ IH Hd].
  - split_and!; [constructor|constructor|cbn; lia].
  - destruct (sm_Update_slots g r) as (ex0 & ey0 & r' & ->).
    by apply sm_tick_small, sm_emit_small.
  - unfold Draw in Hd. destruct (drawLoop _ _ _ _); simplify_eq. exact IH.
Qed.

End SmokeSmall.

(** X5.  The smoke game never has more than 299 slots, of the 8000 it
    allows itself: at most one particle is emitted a tick and none lives
    300 ticks, so the particles in use have ages apart and a free slot is
    found before the pool has to grow past that.  [allocateParticle] has
    a slot to give in every state the game reaches. *)
Theorem smoke_pool_stays_small
    `{MathLib} `{Float32} `{Rand} `{GeoMLib} (texW texH : float) (g : Smoke.Game) :
  Smoke.Reachable texW texH g →
  let ps := Smoke.slots g in
  Z.of_nat (length ps) ≤ 299
  ∧ (∀ p, p ∈ ps → Smoke.active p = true →
          1 ≤ Smoke.lifetime p < Smoke.maxLife p ∧ Smoke.maxLife p ≤ 299)
  ∧ NoDup (Smoke.lifetime <$> List.filter Smoke.active ps)
  ∧ is_Some (Smoke.allocateParticle ps).1.
Proof.
  intros Hr ps. destruct (sm_reachable_small texW texH g Hr) as (Hall & Hnd & Hlen).
  fold ps in Hall, Hnd, Hlen. split_and!; [done| |done|].
  - rewrite Forall_forall in Hall. intros p Hp Ha. by apply Hall.
  - unfold Smoke.allocateParticle.
    destruct (firstInactive Smoke.active ps); [by eexists|].
    destruct (Z.of_nat (length ps) <? Smoke.maxParticles) eqn:E; [by eexists|].
    unfold Smoke.maxParticles in E. lia.
Qed.

(** The smoke game after its first tick, under the sample libraries and
    a seed that makes the emitter fire. *)
Definition startedSmoke : Smoke.Game :=
  (@Smoke.Update Sample.math Sample.float32 Sample.rand Smoke.zeroGame
     (8589934592 : Z)).1.

Lemma startedSmoke_reachable :
  @Smoke.Reachable Sample.math Sample.float32 Sample.rand Sample.geom
    32 32 startedSmoke.
Proof. apply Smoke.reach_update, Smoke.reach_zero. Qed.

(** One slot, in use, a tick old. *)
Lemma smoke_pool_stays_small_witness :
  Smoke.lifetime <$> Smoke.slots startedSmoke = [1]
  ∧ Z.of_nat (length (Smoke.slots startedSmoke)) ≤ 299
  ∧ is_Some (Smoke.allocateParticle (Smoke.slots startedSmoke)).1.
Proof.
  split; [vm_compute; reflexivity|].
  destruct (@smoke_pool_stays_small Sample.math Sample.float32 Sample.rand
              Sample.geom 32 32 startedSmoke startedSmoke_reachable)
    as (Hlen & _ & _ & Ha).
  exact (conj Hlen Ha).
Defined.

(** ** The exchange sort of the lifetime colour shift *)

Section ExchangeSort.
Import AmazingShift.
Implicit Types (a : list Particle) (i j k l : nat) (x y : Particle).

(** [x] may stand before [y]: the test of the sort does not swap them. *)
Definition as_ordered x y : Prop :=
  (y.(Concert.z) <? x.(Concert.z))%float = false.

Definition as_known a : Prop := Forall (λ x, notNaN x.(Concert.z)) a.

(** The slots before [i] hold their final content: each may stand before
    every later one. *)
Definition as_prefix i a : Prop :=
  ∀ k l x y, (k < i)%nat → (k < l)%nat →
    a !! k = Some x → a !! l = Some y → as_ordered x y.

(** Slot [i] may stand before the slots between it and [j]. *)
Definition as_least i j a : Prop :=
  ∀ l x y, (i < l < j)%nat → a !! i = Some x → a !! l = Some y → as_ordered x y.

Lemma as_known_perm a a' : a' ≡ₚ a → as_known a → as_known a'.
Proof. unfold as_known. by intros ->. Qed.

Lemma as_ordered_trans x y w :
  notNaN x.(Concert.z) → notNaN y.(Concert.z) → notNaN w.(Concert.z) →
  as_ordered x y → as_ordered y w → as_ordered x w.
Proof.
  unfold as_ordered. intros Hx Hy Hw H1 H2.
  apply (not_ltb_trans _ y.(Concert.z)); done.
Qed.

Lemma as_ordered_swapped x y :
  (y.(Concert.z) <? x.(Concert.z))%float = true → as_ordered y x.
Proof.
  unfold as_ordered. intros Hlt.
  destruct (x.(Concert.z) <? y.(Concert.z))%float eqn:E; [|done].
  pose proof (ltb_trans _ _ _ Hlt E) as Hyy. by rewrite ltb_irrefl in Hyy.
Qed.

(** Putting a slot's content first and another value in its place
    permutes the list. *)
Lemma insert_cons_Permutation {T} (l : list T) j (x y : T) :
  l !! j = Some y → y :: <[j := x]> l ≡ₚ x :: l.
Proof.
  revert j. induction l as [|h t IH]; intros [|j] Hj; simplify_eq/=.
  - apply Permutation_swap.
  - rewrite Permutation_swap, (IH j Hj). apply Permutation_swap.
Qed.

Lemma swap_Permutation {T} (l : list T) i j (x y : T) :
  (i < j)%nat → l !! i = Some x → l !! j = Some y →
  <[j := x]> (<[i := y]> l) ≡ₚ l.
Proof.
  revert i j. induction l as [|h t IH]; intros [|i] [|j] Hlt Hi Hj;
    simplify_eq/=; try lia.
  - by apply insert_cons_Permutation.
  - f_equiv. apply IH; [lia|done..].
Qed.

Lemma as_swapIfNearer_spec i j a :
  (i < j < length a)%nat → as_known a → as_prefix i a → as_least i j a →
  let a' := swapIfNearer i j a in
  a' ≡ₚ a ∧ as_prefix i a' ∧ as_least i (S j) a'.
Proof.
  intros [Hij Hj] Hk Hpre Hleast a'. subst a'. unfold swapIfNearer.
  unfold Particle in *.
  destruct (lookup_lt_is_Some_2 a i ltac:(lia)) as [pi Hpi].
  destruct (lookup_lt_is_Some_2 a j Hj) as [pj Hpj].
  rewrite Hpi, Hpj.
  destruct (pj.(Concert.z) <? pi.(Concert.z))%float eqn:Hlt.
  - assert (∀ l, <[j := pi]> (<[i := pj]> a) !! l
                 = if decide (l = j) then Some pi
                   else if decide (l = i) then Some pj else a !! l) as Hlook.
    { intros l. destruct (decide (l = j)) as [->|Hne].
      - rewrite list_lookup_insert_eq; [done|]. rewrite length_insert. lia.
      - rewrite list_lookup_insert_ne by done.
        destruct (decide (l = i)) as [->|Hne'].
        + rewrite list_lookup_insert_eq; [done|lia].
        + by rewrite list_lookup_insert_ne. }
    split_and!.
    + by apply swap_Permutation.
    + intros k l x y Hki Hkl Hx Hy. rewrite Hlook in Hx, Hy.
      repeat (destruct (decide _) in Hx; [lia|]).
      repeat destruct (decide _) in Hy; simplify_eq.
      * apply (Hpre k i x y); done || lia.
      * apply (Hpre k j x y); done || lia.
      * by apply (Hpre k l x y).
    + intros l x y Hl Hx Hy. rewrite Hlook in Hx, Hy.
      destruct (decide (i = j)) in Hx; [lia|].
      destruct (decide (i = i)) in Hx; [|done]. simplify_eq.
      unfold as_known in Hk. rewrite Forall_forall in Hk.
      assert (notNaN x.(Concert.z)) by (eapply Hk, list_elem_of_lookup_2; done).
      assert (notNaN pi.(Concert.z)) by (eapply Hk, list_elem_of_lookup_2; done).
      destruct (decide (l = j)); simplify_eq.
      * by apply as_ordered_swapped.
      * destruct (decide (l = i)); [lia|].
        apply (as_ordered_trans x pi y); try done.
        -- eapply Hk, list_elem_of_lookup_2; done.
        -- by apply as_ordered_swapped.
        -- apply (Hleast l pi y); done || lia.
  - split_and!; [done..|].
    intros l x y Hl Hx Hy. unfold Particle in *. simplify_eq.
    destruct (decide (l = j)) as [->|Hne]; simplify_eq; [exact Hlt|].
    apply (Hleast l pi y); done || lia.
Qed.

Lemma as_sortInner_spec n i j a :
  (i < j)%nat → (j + n ≤ length a)%nat →
  as_known a → as_prefix i a → as_least i j a →
  let a' := sortInner n i j a in
  a' ≡ₚ a ∧ as_prefix i a' ∧ as_least i (j + n) a'.
Proof.
  revert j a. induction n as [|n IH]; intros j a Hij Hlen Hk Hpre Hleast; simpl.
  { rewrite Nat.add_0_r. done. }
  destruct (as_swapIfNearer_spec i j a ltac:(lia) Hk Hpre Hleast)
    as (Hperm & Hpre' & Hleast').
  destruct (IH (S j) (swapIfNearer i j a)) as (Hperm2 & Hpre2 & Hleast2);
    [lia| |by apply (as_known_perm a)|done..|].
  { rewrite Hperm. lia. }
  split_and!; [by rewrite Hperm2|done|].
  by replace (j + S n)%nat with (S j + n)%nat by lia.
Qed.

Lemma as_sortOuter_spec n i a :
  (i + n = length a)%nat → as_known a → as_prefix i a →
  let a' := sortOuter n i a in
  a' ≡ₚ a ∧ as_prefix (length a) a'.
Proof.
  revert i a. induction n as [|n IH]; intros i a Hlen Hk Hpre; simpl.
  { rewrite Nat.add_0_r in Hlen. by subst i. }
  destruct (as_sortInner_spec (length a - S i) i (S i) a)
    as (Hperm & Hpre' & Hleast); [lia|lia|done..| |].
  { intros l x y Hl. lia. }
  set (a1 := sortInner _ _ _ a) in *.
  assert (length a1 = length a) as Hlen1 by by rewrite Hperm.
  destruct (IH (S i) a1) as (Hperm2 & Hpre2); [lia|by apply (as_known_perm a)|..].
  - intros k l x y Hki Hkl Hx Hy.
    destruct (decide (k = i)) as [->|Hne].
    + apply (Hleast l x y); [|done..].
      apply lookup_lt_Some in Hy. lia.
    + apply (Hpre' k l x y); done || lia.
  - split; [by rewrite Hperm2|]. by rewrite <- Hlen1.
Qed.

Lemma as_swapIfNearer_perm i j a : (i < j)%nat → swapIfNearer i j a ≡ₚ a.
Proof.
  intros Hij. unfold swapIfNearer. unfold Particle in *.
  destruct (a !! i) as [pi|] eqn:Hpi; [|done].
  destruct (a !! j) as [pj|] eqn:Hpj; [|done].
  destruct (_ <? _)%float; [|done]. by apply swap_Permutation.
Qed.

Lemma as_sortInner_perm n i j a : (i < j)%nat → sortInner n i j a ≡ₚ a.
Proof.
  revert j a. induction n as [|n IH]; intros j a Hij; simpl; [done|].
  rewrite IH by lia. by apply as_swapIfNearer_perm.
Qed.

Lemma as_sortOuter_perm n i a : sortOuter n i a ≡ₚ a.
Proof.
  revert i a. induction n as [|n IH]; intros i a; simpl; [done|].
  rewrite IH. apply as_sortInner_perm. lia.
Qed.

End ExchangeSort.

(** X6.  The exchange sort that the lifetime colour shift draws by returns
    the particles it was given, whatever their depths; when no depth is a
    NaN they stand in ascending depth, far to near.  [Draw] batches the
    active particles in that order. *)
Theorem exchange_sort_ascending (ps : list Concert.Particle) :
  let drawn := AmazingShift.activeParticles ps in
  AmazingShift.sortByDepth ps ≡ₚ ps
  ∧ drawn ≡ₚ List.filter Concert.active ps
  ∧ (Forall (λ p, Concert.active p = true → notNaN p.(Concert.z)) ps →
     ∀ i j x y, drawn !! i = Some x → drawn !! j = Some y → (i < j)%nat →
                (x.(Concert.z) <=? y.(Concert.z))%float = true).
Proof.
  intros drawn. subst drawn. unfold AmazingShift.activeParticles.
  split; [apply as_sortOuter_perm|]. split; [apply as_sortOuter_perm|].
  intros Hk i j x y Hx Hy Hij.
  set (a := List.filter Concert.active ps) in *.
  assert (as_known a) as Ha.
  { unfold as_known, a. rewrite Forall_forall in Hk |- *.
    intros p [Hp Hact]%list_elem_of_In%List.filter_In.
    apply Hk; [by apply list_elem_of_In|done]. }
  destruct (as_sortOuter_spec (length a) 0 a eq_refl Ha) as [Hperm Hpre].
  { intros k l x0 y0 Hk0. lia. }
  fold (AmazingShift.sortByDepth a) in Hperm, Hpre.
  pose proof (as_known_perm _ _ Hperm Ha) as Ha'.
  unfold as_known in Ha'. rewrite Forall_forall in Ha'.
  apply not_ltb_leb.
  - eapply Ha', list_elem_of_lookup_2; done.
  - eapply Ha', list_elem_of_lookup_2; done.
  - apply (Hpre i j x y); [|done..].
    apply lookup_lt_Some in Hx. by rewrite Hperm in Hx.
Qed.

(** Three particles at depths 2, -1 and 0.5, the second one not in use:
    the other two are drawn at 0.5, then at 2. *)
Lemma exchange_sort_ascending_witness :
  let at_z z0 act :=
    {| Concert.x := 0; Concert.y := 0; Concert.z := z0;
       Concert.vx := 0; Concert.vy := 0; Concert.vz := 0;
       Concert.lifetime := 1; Concert.maxLife := 40;
       Concert.baseScale := 1; Concert.angle := 0;
       Concert.angularVelocity := 0; Concert.active := act |} in
  let ps := [at_z 2%float true; at_z (-1)%float false; at_z 0.5%float true] in
  AmazingShift.activeParticles ps = [at_z 0.5%float true; at_z 2%float true]
  ∧ (0.5 <=? 2)%float = true.
Proof.
  intros at_z ps. split; [reflexivity|].
  destruct (exchange_sort_ascending ps) as (_ & _ & Hsorted).
  apply (Hsorted ltac:(repeat constructor) 0%nat 1%nat
                 (at_z 0.5%float true) (at_z 2%float true));
    [reflexivity|reflexivity|lia].
Defined.

(** ** Concert show: bursts, emitters and the frame's quota *)

Section AmazingMore.
Import Amazing.
Context `{MathLib} `{Float32} `{Rand} `{GeoMLib}.
Context (fireImageW fireImageH : float).
Implicit Types (p q : Particle) (ps : list Particle) (g : Game) (e : Emitter).

(** A slot in use is younger than its life span: 30 to 79 ticks for
    fire, 120 to 319 for an ember. *)
Definition am_kept p : Prop :=
  p.(active) = true →
  0 ≤ p.(lifetime) < p.(maxLife)
  ∧ match p.(kind) with
    | KindFire => 30 ≤ p.(maxLife) ≤ 79
    | KindEmber => 120 ≤ p.(maxLife) ≤ 319
    end.

Lemma am_freshParticle_kept x0 y0 k r :
  let p := (freshParticle x0 y0 k r).1 in
  p.(active) = true ∧ p.(lifetime) = 0 ∧ p.(kind) = k ∧ am_kept p.
Proof.
  unfold freshParticle, am_kept. destruct k; gen_run; simpl;
    repeat match goal with
           | E : Intn _ _ = _ |- _ => apply Intn_fst in E; [|lia]
           end;
    rewrite int_add_small by lia;
    (split_and!; try done; try lia; intros _; lia).
Qed.

(** [spawnAt] takes the first free slot, if there is one. *)
Lemma am_spawnAt_spec x0 y0 k ps r :
  let ps' := (spawnAt x0 y0 k ps r).1 in
  length ps' = length ps
  ∧ activeCount active ps'
    = (activeCount active ps + 1 `min` (length ps - activeCount active ps))%nat
  ∧ (∀ i p, ps !! i = Some p → active p = true → ps' !! i = Some p)
  ∧ (Forall am_kept ps → Forall am_kept ps')
  ∧ (allocateParticle ps = None → spawnAt x0 y0 k ps r = (ps, r)).
Proof.
  intros ps'. subst ps'. unfold spawnAt, allocateParticle.
  pose proof (activeCount_le active ps) as Hle.
  destruct (firstInactive active ps) as [i|] eqn:Ea.
  - apply firstInactive_Some in Ea as (p0 & Hi & Hp0 & _).
    unfold gbind, gret.
    pose proof (am_freshParticle_kept x0 y0 k r) as (Hq & _ & _ & Hk).
    destruct (freshParticle x0 y0 k r) as [q r1]. cbn [fst] in *.
    pose proof (activeCount_occupy active ps i p0 q Hi Hp0 Hq) as Hc.
    pose proof (activeCount_le active (<[i := q]> ps)) as Hle'.
    rewrite length_insert in Hle' |- *.
    split_and!; [done|lia| |intros Hall; by apply Forall_insert|done].
    intros j p' Hj Hact. rewrite list_lookup_insert_ne; [done|].
    intros ->. congruence.
  - apply firstInactive_None in Ea. unfold gret. cbn [fst].
    split_and!; [done|lia|done..].
Qed.

(** [spawnBurst] goes on asking when the pool is full; nothing comes of
    it. *)
Lemma am_burstLoop_spec n x0 y0 ps r :
  let ps' := (burstLoop n x0 y0 ps r).1 in
  length ps' = length ps
  ∧ activeCount active ps'
    = (activeCount active ps + n `min` (length ps - activeCount active ps))%nat
  ∧ (∀ i p, ps !! i = Some p → active p = true → ps' !! i = Some p)
  ∧ (Forall am_kept ps → Forall am_kept ps')
  ∧ (allocateParticle ps = None → burstLoop n x0 y0 ps r = (ps, r)).
Proof.
  revert ps r. induction n as [|n IH]; intros ps r ps'; subst ps';
    cbn [burstLoop].
  { split_and!; [done|simpl; lia|done..]. }
  unfold gbind.
  destruct (am_spawnAt_spec x0 y0 KindFire ps r) as (Hlen & Hcnt & Hkeep & Hk & Hfull).
  destruct (spawnAt x0 y0 KindFire ps r) as [ps1 r1]. cbn [fst] in *.
  destruct (IH ps1 r1) as (Hlen' & Hcnt' & Hkeep' & Hk' & Hfull').
  pose proof (activeCount_le active ps) as Hle.
  pose proof (activeCount_le active ps1) as Hle1.
  split_and!; [congruence|lia|auto|auto|].
  intros Ha. specialize (Hfull Ha). simplify_eq. by apply Hfull'.
Qed.

(** The loop of an emitter stops at the frame's quota. *)
Lemma am_emitLoop_spec n ex0 ey0 k total ps r :
  0 ≤ total ≤ spawnPerFrame →
  let res := (emitLoop n ex0 ey0 k total ps r).1 in
  res.1 = total + Z.of_nat n `min` (spawnPerFrame - total)
  ∧ length res.2 = length ps
  ∧ (activeCount active res.2
     ≤ activeCount active ps + Z.to_nat (res.1 - total))%nat
  ∧ (∀ i p, ps !! i = Some p → active p = true → res.2 !! i = Some p)
  ∧ (Forall am_kept ps → Forall am_kept res.2).
Proof.
  revert total ps r. induction n as [|n IH]; intros total ps r Ht res; subst res;
    cbn [emitLoop]; unfold spawnPerFrame in *.
  { unfold gret. cbn [fst snd]. split_and!; [lia|done|lia|done..]. }
  destruct (Z.ltb_spec total 200).
  - unfold gbind. destruct (Float64 r) as [jx r1]. destruct (Float64 r1) as [jy r2].
    match goal with |- context [spawnAt ?a ?b k ps r2] =>
      destruct (am_spawnAt_spec a b k ps r2) as (Hlen & Hcnt & Hkeep & Hk & _);
      destruct (spawnAt a b k ps r2) as [ps1 r3] end.
    cbn [fst] in *. rewrite int_add_small by lia.
    destruct (IH (total + 1) ps1 r3 ltac:(lia)) as (Ht' & Hlen' & Hcnt' & Hkeep' & Hk').
    split_and!; [lia|congruence|lia|auto|auto].
  - unfold gret. cbn [fst snd]. split_and!; [lia|done|lia|done..].
Qed.

(** [update] and the recycling test keep the life cycle. *)
Lemma am_tickParticle_kept p r :
  am_kept p → am_kept (tickParticle p r).1
              ∧ ((tickParticle p r).1.(active) = true → p.(active) = true).
Proof.
  intros Hp. unfold tickParticle.
  destruct p.(active) eqn:Ha; [|split; [done|cbn; congruence]].
  split; [|done]. destruct (Hp Ha) as [Hl Hm].
  assert (p.(maxLife) < 2 ^ 62) as Hb by (destruct p.(kind); lia).
  unfold gbind, update. rewrite Ha. cbn [negb].
  rewrite int_add_small by lia.
  destruct (p.(lifetime) + 1 >=? p.(maxLife)) eqn:E.
  { unfold gret. cbn [fst]. destruct (offScreen _); intros Hc; discriminate. }
  destruct p.(kind) eqn:Hkind.
  - unfold gret. cbn [fst].
    destruct (offScreen _); [intros Hc; discriminate|].
    intros _. cbn. rewrite ?Hkind. lia.
  - unfold gbind, gret. destruct (Float64 r) as [w r1]. cbn [fst].
    destruct (offScreen _); [intros Hc; discriminate|].
    intros _. cbn. rewrite ?Hkind. lia.
Qed.

Lemma am_tickAll_kept ps r :
  Forall am_kept ps → Forall am_kept (tickAll ps r).1.
Proof.
  intros Hall. revert r. induction Hall as [|p ps Hp _ IH]; intros r; [done|].
  cbn [tickAll]. unfold gbind, gret.
  pose proof (am_tickParticle_kept p r Hp) as [Hk _].
  destruct (tickParticle p r) as [p' r1]. specialize (IH r1).
  destruct (tickAll ps r1) as [rest r2]. by constructor.
Qed.

(** What [Update] leaves of an emitter: everything but its phase. *)
Definition am_fixed e : float * float * float * float * Z * float * PKind * float :=
  (e.(cx), e.(cy), e.(radius), e.(speed), e.(baseSpawn), e.(pulseWidth),
   e.(ekind), e.(offsetY)).

Lemma am_emitterStep_spec now e total ps r :
  0 ≤ total ≤ spawnPerFrame →
  let res := (emitterStep now e total ps r).1 in
  am_fixed res.1.1 = am_fixed e
  ∧ res.1.1.(phase) = (e.(phase) + e.(speed))%float
  ∧ total ≤ res.1.2 ≤ spawnPerFrame ∧ res.1.2 - total ≤ 250
  ∧ length res.2 = length ps
  ∧ (∀ i p, ps !! i = Some p → active p = true → res.2 !! i = Some p)
  ∧ (Forall am_kept ps → Forall am_kept res.2).
Proof.
  intros Ht res. subst res. unfold emitterStep, gbind, gret.
  destruct (Float64 r) as [j r1].
  set (target1 := match e.(ekind) with KindFire => _ | KindEmber => _ end).
  set (target := if 250 <? target1 then 250 else target1).
  assert (Z.of_nat (Z.to_nat target) ≤ 250) as Hcap.
  { unfold target. destruct (Z.ltb_spec 250 target1); lia. }
  match goal with |- context [emitLoop ?n ?a ?b ?k total ps r1] =>
    destruct (am_emitLoop_spec n a b k total ps r1 Ht)
      as (Htot & Hlen & _ & Hkeep & Hk);
    destruct (emitLoop n a b k total ps r1) as [tp r2] end.
  cbn [fst snd] in *. destruct (Float64 r2) as [s r3].
  unfold spawnPerFrame in *.
  destruct (s <? 0.003)%float.
  - destruct (Intn 480 r3) as [n r4]. unfold spawnBurst.
    match goal with |- context [burstLoop ?n ?a ?b tp.2 r4] =>
      destruct (am_burstLoop_spec n a b tp.2 r4) as (Hlen' & _ & Hkeep' & Hk' & _);
      destruct (burstLoop n a b tp.2 r4) as [ps' r5] end.
    cbn [fst snd] in *. split_and!; [done|done|lia|lia|lia|congruence|auto|auto].
  - cbn [fst snd]. split_and!; [done|done|lia|lia|lia|done..].
Qed.



Lemma am_emitAll_spec now es total ps r :
  0 ≤ total ≤ spawnPerFrame →
  let res := (emitAll now es total ps r).1 in
  am_fixed <$> res.1 = am_fixed <$> es
  ∧ length res.2 = length ps
  ∧ (∀ i p, ps !! i = Some p → active p = true → res.2 !! i = Some p)
  ∧ (Forall am_kept ps → Forall am_kept res.2).
Proof.
  revert total ps r. induction es as [|e es IH]; intros total ps r Ht res;
    subst res; [done|].
  cbn [emitAll]. unfold gbind, gret.
  destruct (am_emitterStep_spec now e total ps r Ht)
    as (Hfix & _ & Htot & _ & Hlen & Hkeep & Hk).
  destruct (emitterStep now e total ps r) as [st r1]. cbn [fst snd] in *.
  destruct (IH st.1.2 st.2 r1 ltac:(lia)) as (Hfix' & Hlen' & Hkeep' & Hk').
  destruct (emitAll now es st.1.2 st.2 r1) as [rest r2]. cbn [fst snd] in *.
  split_and!; [by rewrite !fmap_cons, Hfix, Hfix'|congruence|auto|auto].
Qed.

Lemma am_Update_spec click space g r :
  let g' := (Update click space g r).1 in
  am_fixed <$> g'.(emitters) = am_fixed <$> g.(emitters)
  ∧ g'.(tick) = int_add g.(tick) 1
  ∧ (Forall am_kept g.(particles) → Forall am_kept g'.(particles)).
Proof.
  intros g'. subst g'. unfold Update, gbind, gret.
  assert (Forall am_kept g.(particles) →
          Forall am_kept (clickBurst click g.(particles) r).1) as Hc1.
  { intros Hall. unfold clickBurst. destruct click as [[mx my]|]; [|done].
    by apply am_burstLoop_spec. }
  destruct (clickBurst click g.(particles) r) as [ps1 r1]. cbn [fst] in Hc1.
  assert (Forall am_kept ps1 → Forall am_kept (spaceBurst space ps1 r1).1) as Hc2.
  { intros Hall. unfold spaceBurst. destruct space; [|done]. unfold gbind.
    destruct (Intn screenWidth r1) as [a r']. destruct (Intn _ r') as [b r''].
    by apply am_burstLoop_spec. }
  destruct (spaceBurst space ps1 r1) as [ps2 r2]. cbn [fst] in Hc2.
  match goal with |- context [emitAll ?now g.(emitters) 0 ps2 r2] =>
    destruct (am_emitAll_spec now g.(emitters) 0 ps2 r2)
      as (Hfix & _ & _ & Hk); [unfold spawnPerFrame; lia|];
    destruct (emitAll now g.(emitters) 0 ps2 r2) as [eps r3] end.
  cbn [fst snd] in *. pose proof (am_tickAll_kept eps.2 r3) as Hc4.
  destruct (tickAll eps.2 r3) as [ps3 r4]. cbn [fst snd emitters tick particles] in *.
  split_and!; [done|done|auto].
Qed.

(** The emitters [NewGame] sets up. *)
Definition am_emitter_ok e : Prop :=
  match e.(ekind) with
  | KindFire => 6 ≤ e.(baseSpawn) ≤ 17
  | KindEmber => 2 ≤ e.(baseSpawn) ≤ 4
  end.

Lemma am_fireEmitters_spec n r :
  ekind <$> (fireEmitters n r).1 = replicate n KindFire
  ∧ Forall am_emitter_ok (fireEmitters n r).1.
Proof.
  revert r. induction n as [|n IH]; intros r; [by split|].
  cbn [fireEmitters]. gen_run. cbn [fst].
  match goal with E : fireEmitters n ?r' = _ |- _ =>
    specialize (IH r'); rewrite E in IH end.
  cbn [fst] in IH. destruct IH as [IH1 IH2].
  match goal with E : Intn 12 _ = _ |- _ => apply Intn_fst in E; [|lia] end.
  split; [by rewrite fmap_cons, IH1|].
  constructor; [|done]. unfold am_emitter_ok. cbn.
  rewrite int_add_small by lia. lia.
Qed.

Lemma am_emberEmitters_spec n r :
  ekind <$> (emberEmitters n r).1 = replicate n KindEmber
  ∧ Forall am_emitter_ok (emberEmitters n r).1.
Proof.
  revert r. induction n as [|n IH]; intros r; [by split|].
  cbn [emberEmitters]. gen_run. cbn [fst].
  match goal with E : emberEmitters n ?r' = _ |- _ =>
    specialize (IH r'); rewrite E in IH end.
  cbn [fst] in IH. destruct IH as [IH1 IH2].
  match goal with E : Intn 3 _ = _ |- _ => apply Intn_fst in E; [|lia] end.
  split; [by rewrite fmap_cons, IH1|].
  constructor; [|done]. unfold am_emitter_ok. cbn.
  rewrite int_add_small by lia. lia.
Qed.

Definition am_inv g : Prop :=
  ekind <$> g.(emitters) = replicate 6 KindFire ++ replicate 3 KindEmber
  ∧ Forall am_emitter_ok g.(emitters)
  ∧ Forall am_kept g.(particles).

Lemma am_fixed_inv (es es' : list Emitter) :
  am_fixed <$> es' = am_fixed <$> es →
  ekind <$> es' = ekind <$> es
  ∧ (Forall am_emitter_ok es → Forall am_emitter_ok es').
Proof.
  revert es'. induction es as [|e es IH]; intros [|e' es'] Hf; simplify_eq/=.
  { by split. }
  destruct (IH es' ltac:(done)) as [IH1 IH2].
  unfold am_fixed in *. simplify_eq.
  split; [by f_equal|].
  intros [He Hes]%Forall_cons. constructor; [|auto].
  unfold am_emitter_ok in *.
  repeat match goal with E : _ e' = _ e |- _ => rewrite ?E; clear E end.
  exact He.
Qed.

Lemma am_reachable_inv g : Reachable fireImageW fireImageH g → am_inv g.
Proof.
  induction 1 as [r|g click space r _ (IH1 & IH2 & IH3)|g r _ IH].
  - unfold NewGame, gbind, gret.
    destruct (am_fireEmitters_spec 6 r) as [Hf1 Hf2].
    destruct (fireEmitters 6 r) as [fs r1].
    destruct (am_emberEmitters_spec 3 r1) as [He1 He2].
    destruct (emberEmitters 3 r1) as [es r2]. cbn [fst] in *.
    split_and!; cbn [emitters particles].
    + by rewrite fmap_app, Hf1, He1.
    + by apply Forall_app.
    + apply Forall_replicate. intros Ha. discriminate.
  - destruct (am_Update_spec click space g r) as (Hfix & _ & Hk).
    destruct (am_fixed_inv _ _ Hfix) as [Hkind Hok].
    split_and!; [by rewrite Hkind|auto|auto].
  - unfold Draw, gbind, gret.
    destruct (Z.rem g.(tick) 30 =? 0);
      [destruct (Float64 r) as [sx r1]; destruct (Float64 r1)|]; exact IH.
Qed.

End AmazingMore.

(** X7.  [spawnBurst] of the concert show puts [count] fire particles in
    use, or as many as there are free slots; a count of zero or less does
    nothing.  Unlike [spawnExplosion] it does not leave its loop when the
    pool is exhausted, but a call on a full pool changes nothing and draws
    no random number.  Slots in use are never touched. *)
Theorem burst_fills_free_slots `{MathLib} `{Rand}
    (px py : float) (count : Z) (ps : list Amazing.Particle) (r : rng) :
  let ps' := (Amazing.spawnBurst px py count ps r).1 in
  let free := (length ps - activeCount Amazing.active ps)%nat in
  length ps' = length ps
  ∧ activeCount Amazing.active ps'
    = (activeCount Amazing.active ps + Z.to_nat count `min` free)%nat
  ∧ (∀ i p, ps !! i = Some p → Amazing.active p = true → ps' !! i = Some p)
  ∧ (count ≤ 0 → Amazing.spawnBurst px py count ps r = (ps, r))
  ∧ (Amazing.allocateParticle ps = None →
     Amazing.spawnBurst px py count ps r = (ps, r)).
Proof.
  intros ps' free. subst ps' free. unfold Amazing.spawnBurst.
  destruct (am_burstLoop_spec (Z.to_nat count) px py ps r)
    as (Hlen & Hcnt & Hkeep & _ & Hfull).
  split_and!; [done..| |done].
  intros Hc. by replace (Z.to_nat count) with 0%nat by lia.
Qed.


(** X9.  In every state the concert show reaches there are nine emitters,
    six of fire that spawn 6 to 17 particles a pulse and three of embers
    that spawn 2 to 4, and [Update] changes of them only the phase.  A
    particle in use is younger than its life span, of 30 to 79 ticks for
    fire and 120 to 319 for an ember. *)
Theorem concert_show_invariants
    `{MathLib} `{Float32} `{Rand} `{GeoMLib} (texW texH : float)
    (g : Amazing.Game) :
  Amazing.Reachable texW texH g →
  Amazing.ekind <$> g.(Amazing.emitters)
  = replicate 6 Amazing.KindFire ++ replicate 3 Amazing.KindEmber
  ∧ (∀ e, e ∈ g.(Amazing.emitters) →
          match e.(Amazing.ekind) with
          | Amazing.KindFire => 6 ≤ e.(Amazing.baseSpawn) ≤ 17
          | Amazing.KindEmber => 2 ≤ e.(Amazing.baseSpawn) ≤ 4
          end)
  ∧ (∀ p, p ∈ g.(Amazing.particles) → Amazing.active p = true →
          0 ≤ Amazing.lifetime p < Amazing.maxLife p
          ∧ match Amazing.kind p with
            | Amazing.KindFire => 30 ≤ Amazing.maxLife p ≤ 79
            | Amazing.KindEmber => 120 ≤ Amazing.maxLife p ≤ 319
            end)
  ∧ (∀ click space r,
       let g' := (Amazing.Update click space g r).1 in
       am_fixed <$> g'.(Amazing.emitters) = am_fixed <$> g.(Amazing.emitters)
       ∧ g'.(Amazing.tick) = int_add g.(Amazing.tick) 1).
Proof.
  intros Hr. destruct (am_reachable_inv texW texH g Hr) as (Hkinds & Hok & Hall).
  rewrite Forall_forall in Hok. rewrite Forall_forall in Hall.
  split_and!; [done|done| |].
  - intros p Hp Ha. by apply Hall.
  - intros click space r g'.
    destruct (am_Update_spec click space g r) as (Hfix & Htick & _). by split.
Qed.



(** The concert show as [NewGame] makes it, under the sample libraries. *)
Definition newAmazing : Amazing.Game := (@Amazing.NewGame Sample.rand (42 : Z)).1.

Lemma newAmazing_reachable :
  @Amazing.Reachable Sample.math Sample.float32 Sample.rand Sample.geom
    36 36 newAmazing.
Proof. apply Amazing.reach_new. Qed.

Lemma concert_show_invariants_witness :
  Amazing.ekind <$> newAmazing.(Amazing.emitters)
  = replicate 6 Amazing.KindFire ++ replicate 3 Amazing.KindEmber.
Proof.
  exact (proj1 (@concert_show_invariants Sample.math Sample.float32 Sample.rand
                  Sample.geom 36 36 newAmazing newAmazing_reachable)).
Defined.

(** ** Bubbles: the cap, the compaction and the circles *)


Section BubblesMore.
Import Bubbles.
Context `{MathLib} `{Float32} `{Rand} `{SortLib}.
Implicit Types (p q : Particle) (ps : list Particle) (g : Game).

(** What [NewParticle] makes: a life span of 100 to 219 ticks, all of it
    left, and a pale blue. *)
Definition bb_made (lo : Z) p : Prop :=
  lo ≤ p.(maxLife) - p.(life) ∧ 1 ≤ p.(life) ∧ 100 ≤ p.(maxLife) ≤ 219
  ∧ 180 ≤ p.(color).(color.R) ≤ 249 ∧ 180 ≤ p.(color).(color.G) ≤ 249
  ∧ p.(color).(color.B) = 255 ∧ p.(color).(color.A) = 255.

Lemma bb_NewParticle_made r :
  bb_made 0 (NewParticle r).1 ∧ (NewParticle r).1.(life) = (NewParticle r).1.(maxLife).
Proof.
  unfold NewParticle, bb_made. gen_run. simpl.
  repeat match goal with
         | E : Intn _ _ = _ |- _ => apply Intn_fst in E; [|lia]
         end.
  rewrite int_add_small by lia. unfold uint8. rewrite !Z.mod_small by lia. lia.
Qed.

Lemma bb_spawn_spec n ps r :
  let ps' := (spawn n ps r).1 in
  Z.of_nat (length ps')
  = Z.of_nat (length ps) `max` ((Z.of_nat (length ps) + Z.of_nat n) `min` maxParticles)
  ∧ ps `prefix_of` ps'
  ∧ (Forall (bb_made 0) ps → Forall (bb_made 0) ps')
  ∧ (maxParticles ≤ Z.of_nat (length ps) → spawn n ps r = (ps, r)).
Proof.
  revert ps r. induction n as [|n IH]; intros ps r ps'; subst ps'; cbn [spawn];
    unfold maxParticles in *.
  { unfold gret. cbn [fst]. split_and!; [lia|done..]. }
  destruct (Z.ltb_spec (Z.of_nat (length ps)) 1200).
  - unfold gbind. pose proof (bb_NewParticle_made r) as [Hnew _].
    destruct (NewParticle r) as [p r1]. cbn [fst] in Hnew.
    destruct (IH (ps ++ [p]) r1) as (Hlen & Hpre & Hall & _).
    rewrite length_app in Hlen. cbn [length] in Hlen.
    split_and!; [lia| | |lia].
    + etrans; [|exact Hpre]. by apply prefix_app_r.
    + intros Hps. apply Hall, Forall_app. split; [done|]. by apply Forall_singleton.
  - unfold gret. cbn [fst]. split_and!; [lia|done..].
Qed.

(** The compaction keeps, in their order, the particles that have life
    left after the tick. *)
Lemma bb_compact_spec ps :
  compact ps `sublist_of` (λ p, (Update p).1) <$> ps
  ∧ (∀ q, q ∈ compact ps ↔ ∃ p, p ∈ ps ∧ q = (Update p).1 ∧ 0 < q.(life))
  ∧ (Forall (bb_made 0) ps → Forall (bb_made 1) (compact ps)).
Proof.
  unfold compact. induction ps as [|p ps (IH1 & IH2 & IH3)].
  { split_and!; [done| |done]. intros q. split; [by intros ?%elem_of_nil|].
    by intros (p & ?%elem_of_nil & _). }
  cbn [fmap list_fmap List.filter].
  assert ((Update p).2 = (0 <? (Update p).1.(life))) as Hsnd by done.
  destruct (Update p).2 eqn:E; cbn [fmap list_fmap].
  - split_and!.
    + by apply sublist_skip.
    + intros q. split.
      * intros [->|(p' & Hp' & -> & Hl)%IH2]%elem_of_cons.
        -- exists p. split_and!; [by left|done|lia].
        -- exists p'. split_and!; [by right|done..].
      * intros (p' & [->|Hp']%elem_of_cons & -> & Hl); [by left|].
        right. apply IH2. by exists p'.
    + intros [Hp Hps]%Forall_cons. constructor; [|by apply IH3].
      destruct Hp as (Hlo & Hl & Hrest).
      assert ((Update p).1.(life) = p.(life) - 1) as El.
      { cbn. apply int_wrap_small. lia. }
      unfold bb_made. rewrite El. cbn -[int_sub] in *. lia.
  - split_and!.
    + by apply sublist_cons.
    + intros q. split.
      * intros (p' & Hp' & -> & Hl)%IH2. exists p'. split_and!; [by right|done..].
      * intros (p' & [->|Hp']%elem_of_cons & -> & Hl); [lia|].
        apply IH2. by exists p'.
    + intros [_ Hps]%Forall_cons. by apply IH3.
Qed.

Lemma bb_made_weaken p : bb_made 1 p → bb_made 0 p.
Proof. unfold bb_made. lia. Qed.

Lemma bb_GameUpdate_spec g r :
  let g' := (GameUpdate g r).1 in
  g'.(tick) = int_add g.(tick) 1
  ∧ (Z.rem g'.(tick) 2 ≠ 0 →
     g'.(particles) = compact g.(particles) ∧ (GameUpdate g r).2 = r)
  ∧ (Z.rem g'.(tick) 2 = 0 →
     g'.(particles) = compact (spawn (Z.to_nat spawnPerTick) g.(particles) r).1).
Proof.
  intros g'. subst g'. unfold GameUpdate, gbind, gret.
  destruct (Z.rem (int_add g.(tick) 1) 2 =? 0) eqn:E.
  - apply Z.eqb_eq in E. destruct (spawn _ _ r) as [ps1 r1]. cbn [fst snd tick particles].
    split_and!; [done|lia|done].
  - apply Z.eqb_neq in E. cbn [fst snd tick particles]. split_and!; [done|done|lia].
Qed.

Definition bb_inv g : Prop :=
  Z.of_nat (length g.(particles)) ≤ maxParticles
  ∧ Forall (bb_made 1) g.(particles).

Lemma bb_compact_inv ps :
  Z.of_nat (length ps) ≤ maxParticles → Forall (bb_made 0) ps →
  Z.of_nat (length (compact ps)) ≤ maxParticles ∧ Forall (bb_made 1) (compact ps).
Proof.
  intros Hlen Hall. destruct (bb_compact_spec ps) as (Hsub & _ & Hk).
  apply sublist_length in Hsub. rewrite length_fmap in Hsub. split; [lia|auto].
Qed.

Lemma bb_reachable_inv g : bb_Reachable g → bb_inv g.
Proof.
  induction 1 as [|g r _ [IHlen IHall]].
  - split; [cbn; unfold maxParticles; lia|constructor].
  - assert (Forall (bb_made 0) g.(particles)) as Hweak.
    { eapply Forall_impl; [exact IHall|]. apply bb_made_weaken. }
    destruct (bb_GameUpdate_spec g r) as (_ & Hodd & Heven). unfold bb_inv.
    destruct (Z.eq_dec (Z.rem (GameUpdate g r).1.(tick) 2) 0) as [E|E].
    + rewrite (Heven E).
      destruct (bb_spawn_spec (Z.to_nat spawnPerTick) g.(particles) r)
        as (Hlen & _ & Hall & _).
      apply bb_compact_inv; [|auto]. unfold maxParticles, spawnPerTick in *. lia.
    + destruct (Hodd E) as [-> _]. by apply bb_compact_inv.
Qed.

(** The circles of a frame: one for an item at most, never fainter than
    an alpha byte of 10, in the colour of the item. *)
Lemma bb_circleOf_spec (it : drawItem) c :
  circleOf it = Some c →
  10 ≤ c.(cclr).(color.A) ≤ 255
  ∧ c.(cclr).(color.R) = it.(col).(color.R)
  ∧ c.(cclr).(color.G) = it.(col).(color.G)
  ∧ c.(cclr).(color.B) = it.(col).(color.B)
  ∧ c.(ccx) = f32 it.(ix) ∧ c.(ccy) = f32 it.(iy) ∧ c.(cr) = f32 it.(size).
Proof.
  unfold circleOf. set (a := uint8 _).
  assert (0 ≤ a < 256) as Ha by (apply Z.mod_pos_bound; lia).
  destruct (Z.ltb_spec a 10); [done|]. intros [= <-]. cbn. split_and!; done || lia.
Qed.

End BubblesMore.

(** ** Cloud: the cap, the compaction and the refill *)


Section CloudMore.
Import Cloud.
Context `{MathLib} `{Float32} `{Rand} `{SortLib} `{GeoMLib}.
Implicit Types (p q : Particle) (ps : list Particle) (g : Game).

(** What [NewParticle] makes: a life span of 80 to 239 ticks, all of it
    left, a pale blue, and the smoke image. *)
Definition cl_made p : Prop :=
  1 ≤ p.(life) ≤ p.(maxLife) ∧ 80 ≤ p.(maxLife) ≤ 239
  ∧ 180 ≤ p.(colorMix).(color.R) ≤ 239 ∧ 180 ≤ p.(colorMix).(color.G) ≤ 239
  ∧ p.(colorMix).(color.B) = 255 ∧ p.(colorMix).(color.A) = 255
  ∧ p.(img) = smokeImage.

Lemma cl_NewParticle_made r :
  cl_made (NewParticle smokeImage r).1
  ∧ (NewParticle smokeImage r).1.(life) = (NewParticle smokeImage r).1.(maxLife).
Proof.
  unfold NewParticle, cl_made. gen_run. simpl.
  repeat match goal with
         | E : Intn _ _ = _ |- _ => apply Intn_fst in E; [|lia]
         end.
  rewrite int_add_small by lia. unfold uint8. rewrite !Z.mod_small by lia.
  split_and!; done || lia.
Qed.

Lemma cl_spawn_spec n ps r :
  let ps' := (spawn n ps r).1 in
  Z.of_nat (length ps')
  = Z.of_nat (length ps) `max` ((Z.of_nat (length ps) + Z.of_nat n) `min` maxParticles)
  ∧ ps `prefix_of` ps'
  ∧ (Forall cl_made ps → Forall cl_made ps')
  ∧ (maxParticles ≤ Z.of_nat (length ps) → spawn n ps r = (ps, r)).
Proof.
  revert ps r. induction n as [|n IH]; intros ps r ps'; subst ps'; cbn [spawn];
    unfold maxParticles in *.
  { unfold gret. cbn [fst]. split_and!; [lia|done..]. }
  destruct (Z.ltb_spec (Z.of_nat (length ps)) 1200).
  - unfold gbind. pose proof (cl_NewParticle_made r) as [Hnew _].
    destruct (NewParticle smokeImage r) as [p r1]. cbn [fst] in Hnew.
    destruct (IH (ps ++ [p]) r1) as (Hlen & Hpre & Hall & _).
    rewrite length_app in Hlen. cbn [length] in Hlen.
    split_and!; [lia| | |lia].
    + etrans; [|exact Hpre]. by apply prefix_app_r.
    + intros Hps. apply Hall, Forall_app. split; [done|]. by apply Forall_singleton.
  - unfold gret. cbn [fst]. split_and!; [lia|done..].
Qed.

Lemma cl_compact_spec ps :
  Forall cl_made ps →
  compact ps = (λ p, (update p).1) <$> List.filter (λ p, 1 <? p.(life)) ps
  ∧ Forall cl_made (compact ps).
Proof.
  unfold compact. induction 1 as [|p ps Hp _ [IH1 IH2]]; [done|].
  cbn [fmap list_fmap List.filter].
  destruct Hp as (Hl & Hm & Hrest).
  assert ((update p).1.(life) = p.(life) - 1) as El.
  { cbn. apply int_wrap_small. lia. }
  assert ((update p).2 = (1 <? p.(life))) as ->.
  { change ((update p).2) with (0 <? (update p).1.(life)). rewrite El.
    destruct (Z.ltb_spec 0 (life p - 1)), (Z.ltb_spec 1 (life p)); done || lia. }
  destruct (Z.ltb_spec 1 p.(life)); cbn [fmap list_fmap].
  - rewrite IH1. split; [done|]. constructor; [|by rewrite <- IH1].
    unfold cl_made. rewrite El. cbn -[int_sub] in *. split_and!; done || lia.
  - done.
Qed.

Lemma cl_Update_spec g r :
  let g' := (Update g r).1 in
  let ps1 := if Z.rem (int_add g.(tick) 1) 2 =? 0
             then (spawn (Z.to_nat spawnPerTick) g.(particles) r).1
             else g.(particles) in
  let r1 := if Z.rem (int_add g.(tick) 1) 2 =? 0
            then (spawn (Z.to_nat spawnPerTick) g.(particles) r).2
            else r in
  g'.(tick) = int_add g.(tick) 1
  ∧ g'.(particles)
    = (if Z.of_nat (length (compact ps1)) <? maxParticles / 3
       then (spawn 40 (compact ps1) r1).1 else compact ps1).
Proof.
  intros g' ps1 r1. subst g' ps1 r1. unfold Update, gbind, gret.
  destruct (Z.rem (int_add g.(tick) 1) 2 =? 0).
  - destruct (spawn _ g.(particles) r) as [ps1 r1]. cbn [fst snd].
    destruct (_ <? _); [destruct (spawn 40 _ r1)|]; done.
  - destruct (_ <? _); [destruct (spawn 40 _ r)|]; done.
Qed.

Definition cl_inv g : Prop :=
  Z.of_nat (length g.(particles)) ≤ maxParticles ∧ Forall cl_made g.(particles).

Lemma cl_Update_inv g r :
  cl_inv g →
  cl_inv (Update g r).1 ∧ 40 ≤ Z.of_nat (length (Update g r).1.(particles)).
Proof.
  intros [Hlen Hall]. unfold cl_inv. destruct (cl_Update_spec g r) as [_ ->].
  set (ps1 := if _ =? 0 then _ else _). set (r1 := if _ =? 0 then _ else _).
  assert (Z.of_nat (length ps1) ≤ maxParticles ∧ Forall cl_made ps1) as [Hlen1 Hall1].
  { unfold ps1. destruct (_ =? 0); [|done].
    destruct (cl_spawn_spec (Z.to_nat spawnPerTick) g.(particles) r)
      as (Hl & _ & Ha & _).
    split; [|auto]. unfold maxParticles, spawnPerTick in *. lia. }
  destruct (cl_compact_spec ps1 Hall1) as [Ec Hall2].
  assert (length (compact ps1) ≤ length ps1)%nat as Hle.
  { rewrite Ec, length_fmap. apply filter_length_le. }
  unfold cl_inv. change (maxParticles / 3) with 400. unfold maxParticles in *.
  destruct (Z.ltb_spec (Z.of_nat (length (compact ps1))) 400).
  - destruct (cl_spawn_spec 40 (compact ps1) r1) as (Hl & _ & Ha & _).
    unfold maxParticles in Hl. split_and!; [lia|auto|lia].
  - split_and!; [lia|done|lia].
Qed.

Lemma cl_reachable_inv g : cl_Reachable g → cl_inv g.
Proof.
  induction 1 as [|g r _ IH].
  - split; [cbn; unfold maxParticles; lia|constructor].
  - by apply cl_Update_inv.
Qed.

(** The clamp of [Game.Draw] on the fade: into [0, 1]. *)
Lemma cl_spriteOf_alpha imageW imageH (it : drawItem) :
  let a := (spriteOf imageW imageH it).(sa) in
  (a <? 0)%float = false ∧ (1 <? a)%float = false
  ∧ (notNaN it.(alphaMult) → (0 <=? a)%float = true ∧ (a <=? 1)%float = true)
  ∧ ((it.(alphaMult) <? 0)%float = true → a = 0%float)
  ∧ ((1 <? it.(alphaMult))%float = true → a = 1%float)
  ∧ ((it.(alphaMult) <? 0)%float = false → (1 <? it.(alphaMult))%float = false →
     a = it.(alphaMult)).
Proof.
  intros a. subst a. cbn [spriteOf sa].
  destruct (it.(alphaMult) <? 0)%float eqn:E0.
  - split_and!; try done. intros Hc.
    pose proof (ltb_trans _ _ _ Hc E0) as Hbad. vm_compute in Hbad. discriminate.
  - destruct (1 <? it.(alphaMult))%float eqn:E1.
    + split_and!; try done.
    + split_and!; try done. intros Hn. split; by apply not_ltb_leb.
Qed.

End CloudMore.

Section OmapFacts.
Context {A B : Type} (f : A → option B).

Lemma length_omap_le (l : list A) : (length (omap f l) ≤ length l)%nat.
Proof.
  induction l as [|a l IH]; [done|]. cbn [omap list_omap].
  destruct (f a); simpl; lia.
Qed.

End OmapFacts.

Lemma bb_compact_filter (ps : list Bubbles.Particle) :
  Forall (bb_made 0) ps →
  Bubbles.compact ps
  = (λ p, (Bubbles.Update p).1) <$> List.filter (λ p, 1 <? p.(Bubbles.life)) ps.
Proof.
  unfold Bubbles.compact. induction 1 as [|p ps Hp _ IH]; [done|].
  cbn [fmap list_fmap List.filter].
  destruct Hp as (Hlo & Hl & Hm & _).
  assert ((Bubbles.Update p).1.(Bubbles.life) = p.(Bubbles.life) - 1) as El.
  { cbn. apply int_wrap_small. lia. }
  assert ((Bubbles.Update p).2 = (1 <? p.(Bubbles.life))) as ->.
  { change ((Bubbles.Update p).2) with (0 <? (Bubbles.Update p).1.(Bubbles.life)).
    rewrite El.
    destruct (Z.ltb_spec 0 (Bubbles.life p - 1)), (Z.ltb_spec 1 (Bubbles.life p));
      done || lia. }
  destruct (1 <? p.(Bubbles.life)); cbn [fmap list_fmap]; by rewrite IH.
Qed.

(** X10.  [Game.spawn] of the bubbles and of the cloud appends new particles
    to the pool, one after the other, and stops at the number asked for or
    at 1200 particles, whichever comes first: the pool ends with
    [max len (min (len + n) 1200)] particles, those it had first and in
    place.  On a pool of 1200 or more it does nothing and draws no random
    number. *)
Theorem spawn_stops_at_capacity `{MathLib} `{Rand} (n : nat) (r : rng) :
  (∀ ps : list Bubbles.Particle,
     let ps' := (Bubbles.spawn n ps r).1 in
     Z.of_nat (length ps')
     = Z.of_nat (length ps)
       `max` ((Z.of_nat (length ps) + Z.of_nat n) `min` Bubbles.maxParticles)
     ∧ ps `prefix_of` ps'
     ∧ (Bubbles.maxParticles ≤ Z.of_nat (length ps) → Bubbles.spawn n ps r = (ps, r)))
  ∧ (∀ ps : list Cloud.Particle,
     let ps' := (Cloud.spawn n ps r).1 in
     Z.of_nat (length ps')
     = Z.of_nat (length ps)
       `max` ((Z.of_nat (length ps) + Z.of_nat n) `min` Cloud.maxParticles)
     ∧ ps `prefix_of` ps'
     ∧ (Cloud.maxParticles ≤ Z.of_nat (length ps) → Cloud.spawn n ps r = (ps, r))).
Proof.
  split; intros ps ps'; subst ps'.
  - destruct (bb_spawn_spec n ps r) as (Hlen & Hpre & _ & Hfull). done.
  - destruct (cl_spawn_spec n ps r) as (Hlen & Hpre & _ & Hfull). done.
Qed.

(** X11.  In every state the bubbles reach the pool has at most 1200
    particles, each with life left and less than its life span, of 100 to
    219 ticks, in a pale blue that fits its bytes.  [Update] counts the
    tick, spawns on even ticks only, and then moves every particle and
    drops those on their last tick, keeping the others in order; on an odd
    tick it draws no random number. *)
Theorem bubbles_update_keeps_the_living `{MathLib} `{Rand} (g : Bubbles.Game) :
  bb_Reachable g →
  Z.of_nat (length g.(Bubbles.particles)) ≤ Bubbles.maxParticles
  ∧ (∀ p, p ∈ g.(Bubbles.particles) →
          1 ≤ p.(Bubbles.life) < p.(Bubbles.maxLife)
          ∧ 100 ≤ p.(Bubbles.maxLife) ≤ 219
          ∧ 180 ≤ p.(Bubbles.color).(color.R) ≤ 249
          ∧ 180 ≤ p.(Bubbles.color).(color.G) ≤ 249
          ∧ p.(Bubbles.color).(color.B) = 255 ∧ p.(Bubbles.color).(color.A) = 255)
  ∧ (∀ r, let g' := (Bubbles.GameUpdate g r).1 in
          let moved ps :=
            (λ p, (Bubbles.Update p).1)
            <$> List.filter (λ p, 1 <? p.(Bubbles.life)) ps in
          g'.(Bubbles.tick) = int_add g.(Bubbles.tick) 1
          ∧ (Z.rem g'.(Bubbles.tick) 2 ≠ 0 →
             g'.(Bubbles.particles) = moved g.(Bubbles.particles)
             ∧ (Bubbles.GameUpdate g r).2 = r)
          ∧ (Z.rem g'.(Bubbles.tick) 2 = 0 →
             g'.(Bubbles.particles)
             = moved (Bubbles.spawn 8 g.(Bubbles.particles) r).1)).
Proof.
  intros Hr. destruct (bb_reachable_inv g Hr) as [Hlen Hall].
  split_and!; [done| |].
  - rewrite Forall_forall in Hall. intros p Hp.
    destruct (Hall p Hp) as (Hlo & Hl & Hrest). split_and!; lia || apply Hrest.
  - intros r g' moved. subst g' moved.
    assert (Forall (bb_made 0) g.(Bubbles.particles)) as Hweak.
    { eapply Forall_impl; [exact Hall|]. apply bb_made_weaken. }
    destruct (bb_GameUpdate_spec g r) as (Htick & Hodd & Heven).
    split_and!; [done| |].
    + intros E. destruct (Hodd E) as [-> ->]. by rewrite bb_compact_filter.
    + intros E. rewrite (Heven E). apply bb_compact_filter.
      by apply bb_spawn_spec.
Qed.

(** X12.  [Draw] of the bubbles hands the renderer one circle for a
    particle at most, none fainter than an alpha byte of 10, each in the
    red, green and blue of a particle of the pool, at the [float32] of its
    item's position and size. *)
Theorem bubbles_draw_skips_the_faint
    `{MathLib} `{Float32} `{SortLib} (g : Bubbles.Game) :
  (length (Bubbles.Draw g) ≤ length g.(Bubbles.particles))%nat
  ∧ Forall (λ c,
      10 ≤ c.(Bubbles.cclr).(color.A) ≤ 255
      ∧ ∃ p it, p ∈ g.(Bubbles.particles)
          ∧ Bubbles.itemOf g.(Bubbles.yaw) g.(Bubbles.pitch) p = Some it
          ∧ c.(Bubbles.cclr).(color.R) = p.(Bubbles.color).(color.R)
          ∧ c.(Bubbles.cclr).(color.G) = p.(Bubbles.color).(color.G)
          ∧ c.(Bubbles.cclr).(color.B) = p.(Bubbles.color).(color.B)
          ∧ c.(Bubbles.ccx) = f32 it.(Bubbles.ix)
          ∧ c.(Bubbles.ccy) = f32 it.(Bubbles.iy)
          ∧ c.(Bubbles.cr) = f32 it.(Bubbles.size))
      (Bubbles.Draw g).
Proof.
  unfold Bubbles.Draw, Bubbles.sortedItems. split.
  - etrans; [apply length_omap_le|].
    rewrite sortSlice_perm. apply length_omap_le.
  - apply Forall_forall. intros c (it & Hit & Hc)%list_elem_of_omap.
    rewrite sortSlice_perm in Hit.
    apply list_elem_of_omap in Hit as (p & Hp & Hitem).
    destruct (bb_circleOf_spec it c Hc) as (Ha & Hr & Hg & Hb & Hx & Hy & Hs).
    split; [done|]. exists p, it.
    assert (it.(Bubbles.col) = p.(Bubbles.color)) as Hcol.
    { unfold Bubbles.itemOf in Hitem. destruct (negb _); simplify_eq. done. }
    rewrite <- Hcol. by split_and!.
Qed.

(** X13.  The cloud never thins out and never overflows: in every state it
    reaches the pool has at most 1200 particles, each with life left, no
    more than its life span of 80 to 239 ticks, in a pale blue that fits
    its bytes and with the smoke image; and every [Update] leaves at least
    40 particles, since a pool under 400 after the compaction is given 40
    more. *)
Theorem cloud_refills_and_stays_in_bounds `{MathLib} `{Rand} (g : Cloud.Game) :
  cl_Reachable g →
  Z.of_nat (length g.(Cloud.particles)) ≤ Cloud.maxParticles
  ∧ (∀ p, p ∈ g.(Cloud.particles) →
          1 ≤ p.(Cloud.life) ≤ p.(Cloud.maxLife)
          ∧ 80 ≤ p.(Cloud.maxLife) ≤ 239
          ∧ 180 ≤ p.(Cloud.colorMix).(color.R) ≤ 239
          ∧ 180 ≤ p.(Cloud.colorMix).(color.G) ≤ 239
          ∧ p.(Cloud.colorMix).(color.B) = 255
          ∧ p.(Cloud.colorMix).(color.A) = 255
          ∧ p.(Cloud.img) = Cloud.smokeImage)
  ∧ (∀ r, let g' := (Cloud.Update g r).1 in
          g'.(Cloud.tick) = int_add g.(Cloud.tick) 1
          ∧ 40 ≤ Z.of_nat (length g'.(Cloud.particles)) ≤ Cloud.maxParticles).
Proof.
  intros Hr. pose proof (cl_reachable_inv g Hr) as Hinv.
  destruct Hinv as [Hlen Hall] eqn:E. clear E.
  split_and!; [done| |].
  - rewrite Forall_forall in Hall. intros p Hp. exact (Hall p Hp).
  - intros r g'. subst g'.
    destruct (cl_Update_inv g r (conj Hlen Hall)) as [[Hlen' _] Hmin].
    destruct (cl_Update_spec g r) as [Htick _]. split_and!; done.
Qed.

(** X14.  [Draw] of the cloud hands the renderer one sprite for every
    visible particle, with the particle's image, and with its fade
    clamped: a fade under 0 is drawn at 0, one over 1 at 1, any other as it
    is, so that the alpha of a sprite is never under 0 nor over 1. *)
Theorem cloud_draw_clamps_the_fade
    `{MathLib} `{Float32} `{SortLib} `{GeoMLib} (imageW imageH : Z)
    (g : Cloud.Game) :
  length (Cloud.Draw imageW imageH g) = length (Cloud.collectItems g)
  ∧ (length (Cloud.Draw imageW imageH g) ≤ length g.(Cloud.particles))%nat
  ∧ Forall (λ s,
      (Cloud.sa s <? 0)%float = false ∧ (1 <? Cloud.sa s)%float = false
      ∧ ∃ p it, p ∈ g.(Cloud.particles)
          ∧ Cloud.itemOf g.(Cloud.cameraYaw) g.(Cloud.cameraPitch) p = Some it
          ∧ s = Cloud.spriteOf imageW imageH it
          ∧ Cloud.simg s = p.(Cloud.img))
      (Cloud.Draw imageW imageH g)
  ∧ (∀ it, let a := Cloud.sa (Cloud.spriteOf imageW imageH it) in
       ((it.(Cloud.alphaMult) <? 0)%float = true → a = 0%float)
       ∧ ((1 <? it.(Cloud.alphaMult))%float = true → a = 1%float)
       ∧ ((it.(Cloud.alphaMult) <? 0)%float = false →
          (1 <? it.(Cloud.alphaMult))%float = false → a = it.(Cloud.alphaMult))
       ∧ (notNaN it.(Cloud.alphaMult) →
          (0 <=? a)%float = true ∧ (a <=? 1)%float = true)).
Proof.
  unfold Cloud.Draw, Cloud.sortedItems.
  assert (length (Cloud.spriteOf imageW imageH
                  <$> sortSlice Cloud.farther (Cloud.collectItems g))
          = length (Cloud.collectItems g)) as Hlen
    by by rewrite length_fmap, sortSlice_perm.
  split_and!; [done| | |].
  - rewrite Hlen. apply length_omap_le.
  - apply Forall_forall. intros s (it & -> & Hit)%list_elem_of_fmap.
    rewrite sortSlice_perm in Hit.
    apply list_elem_of_omap in Hit as (p & Hp & Hitem).
    destruct (cl_spriteOf_alpha imageW imageH it) as (Hlo & Hhi & _).
    split_and!; [done..|]. exists p, it. split_and!; [done..|].
    unfold Cloud.itemOf in Hitem. destruct (negb _); simplify_eq. done.
  - intros it. cbv zeta.
    destruct (cl_spriteOf_alpha imageW imageH it) as (_ & _ & Hn & Hneg & Hbig & Hmid).
    by split_and!.
Qed.

(** The bubbles after [n] ticks under the sample libraries, with the
    source of random numbers as the ticks leave it. *)
Definition bubblesAfter (n : nat) : Bubbles.Game * Z :=
  Nat.iter n (λ st, @Bubbles.GameUpdate Sample.math Sample.rand st.1 st.2)
    (Bubbles.zeroGame, 42).

Lemma bubblesAfter_reachable n :
  @bb_Reachable Sample.math Sample.rand (bubblesAfter n).1.
Proof.
  induction n as [|n IH]; [apply bb_reach_zero|].
  exact (@bb_reach_update Sample.math Sample.rand (bubblesAfter n).1
           (bubblesAfter n).2 IH).
Qed.

(** After 104 ticks the pool holds 416 bubbles, and the one in slot 18,
    made to live 100 ticks, is on its last. *)
Definition agedBubbles : Bubbles.Game := (bubblesAfter 104).1.

(** The cloud after its first tick, under the sample libraries. *)
Definition startedCloud : Cloud.Game :=
  (@Cloud.Update Sample.math Sample.rand Cloud.zeroGame (42 : Z)).1.

(** Tick 105 is odd: nothing is spawned, the bubble on its last tick is
    dropped and the 415 others are moved and kept. *)
Lemma bubbles_update_keeps_the_living_witness :
  let g' := (@Bubbles.GameUpdate Sample.math Sample.rand agedBubbles (7 : Z)) in
  length agedBubbles.(Bubbles.particles) = 416%nat
  ∧ (∃ p, agedBubbles.(Bubbles.particles) !! 18%nat = Some p
          ∧ p.(Bubbles.life) = 1 ∧ p.(Bubbles.maxLife) = 100
          ∧ 180 ≤ p.(Bubbles.color).(color.R) ≤ 249
          ∧ 180 ≤ p.(Bubbles.color).(color.G) ≤ 249)
  ∧ g'.1.(Bubbles.tick) = 105
  ∧ g'.1.(Bubbles.particles)
    = (λ p, (Bubbles.Update p).1)
      <$> List.filter (λ p, 1 <? p.(Bubbles.life)) agedBubbles.(Bubbles.particles)
  ∧ length g'.1.(Bubbles.particles) = 415%nat
  ∧ g'.2 = 7.
Proof.
  intros g'.
  destruct (@bubbles_update_keeps_the_living Sample.math Sample.rand agedBubbles
              (bubblesAfter_reachable 104)) as (_ & Hall & Hup).
  destruct (Hup (7 : Z)) as (Htick & Hodd & _).
  (* the pool is run once, for all that is read off it *)
  assert ((length agedBubbles.(Bubbles.particles) =? 416)%nat
          && (agedBubbles.(Bubbles.tick) =? 104)
          && match agedBubbles.(Bubbles.particles) !! 18%nat with
             | Some p => (p.(Bubbles.life) =? 1) && (p.(Bubbles.maxLife) =? 100)
             | None => false
             end
          && (length ((λ p, (Bubbles.Update p).1)
                      <$> List.filter (λ p, (1 <? p.(Bubbles.life))%Z)
                            agedBubbles.(Bubbles.particles)) =? 415)%nat
          = true) as Hrun by (vm_compute; reflexivity).
  apply andb_true_iff in Hrun as [Hrun Hl'].
  apply andb_true_iff in Hrun as [Hrun Hp].
  apply andb_true_iff in Hrun as [Hl Ht].
  apply Nat.eqb_eq in Hl, Hl'. apply Z.eqb_eq in Ht.
  assert (g'.1.(Bubbles.tick) = 105) as Ht'.
  { subst g'. rewrite Htick, Ht. reflexivity. }
  destruct Hodd as [Hps Hr].
  { subst g'. rewrite Ht'. discriminate. }
  split; [exact Hl|]. split.
  - destruct (agedBubbles.(Bubbles.particles) !! 18%nat) as [p|] eqn:E;
      [|exfalso; exact (Bool.diff_false_true Hp)].
    apply andb_true_iff in Hp as [Hp1 Hp2]. apply Z.eqb_eq in Hp1, Hp2.
    exists p. destruct (Hall p (list_elem_of_lookup_2 _ _ _ E))
      as (_ & _ & HR & HG & _).
    split; [reflexivity|]. split; [exact Hp1|]. split; [exact Hp2|].
    split; [exact HR|exact HG].
  - split; [exact Ht'|]. split; [exact Hps|]. split; [|exact Hr].
    subst g'. rewrite Hps. exact Hl'.
Defined.

Lemma cloud_refills_and_stays_in_bounds_witness :
  length startedCloud.(Cloud.particles) = 40%nat
  ∧ 40 ≤ Z.of_nat (length (@Cloud.Update Sample.math Sample.rand startedCloud
                             (7 : Z)).1.(Cloud.particles))
    ≤ Cloud.maxParticles.
Proof.
  split; [vm_compute; reflexivity|].
  destruct (@cloud_refills_and_stays_in_bounds Sample.math Sample.rand startedCloud
              (cl_reach_update _ _ cl_reach_zero)) as (_ & _ & Hup).
  exact (proj2 (Hup (7 : Z))).
Defined.

(** ** Integers as binary64 values, and the clamps *)

Section IntToFloat.

Lemma iter_xO_spec m d : Z.pos (Pos.iter xO m d) = Z.pos m * 2 ^ Z.pos d.
Proof.
  induction d as [|d IH] using Pos.peano_ind.
  - simpl. lia.
  - rewrite Pos.iter_succ, Pos2Z.inj_succ, Z.pow_succ_r by lia.
    change (Z.pos (Pos.iter xO m d)~0) with (2 * Z.pos (Pos.iter xO m d)).
    rewrite IH. lia.
Qed.

(** An integer of 63 bits rounds to a zero or a finite value. *)
Lemma binary_round_finite sx mx :
  Z.pos mx < 2 ^ 63 → SFfinite (binary_round 53 1024 sx mx 0).
Proof.
  intros Hm. unfold binary_round, shl_align.
  pose proof (digits2_pos_bounds mx) as [Hlo Hhi].
  assert (Z.pos (digits2_pos mx) ≤ 63) as Hd.
  { apply (Zdigits2_le (Z.pos mx) 63); lia. }
  set (d := Z.pos (digits2_pos mx)) in *.
  assert (fexp 53 1024 (d + 0) = d - 53) as ->.
  { unfold fexp, emin. lia. }
  destruct (d - 53 - 0) as [|p|p] eqn:E.
  - apply binary_round_aux_finite; [lia|lia|].
    change (Zdigits2 (Z.pos mx)) with d. lia.
  - apply binary_round_aux_finite; [lia|lia|].
    change (Zdigits2 (Z.pos mx)) with d. lia.
  - apply binary_round_aux_finite; [lia|lia|].
    assert (Zdigits2 (Z.pos (Pos.iter xO mx p)) ≤ 53); [|lia].
    apply Zdigits2_le; [lia| |lia].
    rewrite iter_xO_spec.
    assert (Z.pos p = 53 - d) as -> by lia.
    replace (2 ^ 53) with (2 ^ d * 2 ^ (53 - d)).
    + apply Z.mul_lt_mono_pos_r; [apply Z.pow_pos_nonneg; lia|done].
    + rewrite <- Z.pow_add_r by lia. f_equal. lia.
Qed.

Lemma of_uint63_finite n : SFfinite (Prim2SF (of_uint63 n)).
Proof.
  rewrite of_uint63_spec. unfold binary_normalize.
  pose proof (Uint63.to_Z_bounded n) as Hn.
  destruct (Uint63Axioms.to_Z n) as [|m|m]; [exact I| |lia].
  apply binary_round_finite. change Uint63.wB with (2 ^ 63) in Hn. lia.
Qed.

(** [float64(n)] is never a NaN nor an infinity. *)
Lemma float64_of_int_finite z : is_finite (float64_of_int z) = true.
Proof.
  apply is_finite_spec. unfold float64_of_int.
  destruct (z =? - 2 ^ 63); [exact I|].
  destruct (z <? 0); [|apply of_uint63_finite].
  rewrite opp_spec. pose proof (of_uint63_finite (Uint63Axioms.of_Z (- z))) as Hf.
  by destruct (Prim2SF _).
Qed.

Lemma is_finite_notNaN f : is_finite f = true → notNaN f.
Proof.
  unfold is_finite, notNaN. destruct (is_nan f); [|done]. discriminate.
Qed.

Lemma float64_of_int_notNaN z : notNaN (float64_of_int z).
Proof. apply is_finite_notNaN, float64_of_int_finite. Qed.

End IntToFloat.

Section Clamp.
Local Open Scope float_scope.

Lemma eqb_leb a b : (a =? b) = true → (a <=? b) = true.
Proof.
  rewrite FloatAxioms.eqb_spec, leb_spec. unfold SFeqb, SFleb.
  by destruct (SFcompare _ _) as [[]|].
Qed.

Lemma ltb_leb a b : (a <? b) = true → (a <=? b) = true.
Proof.
  rewrite ltb_spec, leb_spec. unfold SFltb, SFleb.
  by destruct (SFcompare _ _) as [[]|].
Qed.

Lemma leb_refl a : notNaN a → (a <=? a) = true.
Proof. intros Ha. apply not_ltb_leb; [done..|apply ltb_irrefl]. Qed.

Lemma leb_trans a b c : (a <=? b) = true → (b <=? c) = true → (a <=? c) = true.
Proof.
  intros Hab Hbc.
  destruct (leb_notNaN _ _ Hab) as [Ha Hb]. destruct (leb_notNaN _ _ Hbc) as [_ Hc].
  apply not_ltb_leb; [done..|].
  destruct (c <? a) eqn:Hca; [exfalso|done].
  destruct (b <? a) eqn:Hba.
  - apply ltb_not_leb in Hba. congruence.
  - destruct (c <? b) eqn:Hcb.
    + apply ltb_not_leb in Hcb. congruence.
    + pose proof (not_ltb_trans c b a Hc Hb Ha Hcb Hba). congruence.
Qed.

(** The value that is an infinity and has no sign is [+Inf]. *)
Lemma pos_infinity_SF a :
  is_infinity a = true → get_sign a = false → Prim2SF a = S754_infinity false.
Proof.
  intros Hinf Hs. unfold is_infinity in Hinf.
  rewrite FloatAxioms.eqb_spec, abs_spec in Hinf.
  unfold get_sign, is_zero in Hs. cbv zeta in Hs.
  rewrite FloatAxioms.eqb_spec in Hs.
  destruct (Prim2SF a) as [s|[]| |s m e] eqn:E; try done.
  cbn in Hs. rewrite ltb_spec, E in Hs. done.
Qed.

Lemma leb_pos_infinity a : notNaN a → (a <=? infinity) = true.
Proof.
  intros [ra Ha]%notNaN_rank. rewrite leb_spec.
  change (Prim2SF infinity) with (S754_infinity false).
  by destruct (Prim2SF a) as [[]|[]| |[] m e].
Qed.

Lemma neg_infinity_leb a : notNaN a → (neg_infinity <=? a) = true.
Proof.
  intros [ra Ha]%notNaN_rank. rewrite leb_spec.
  change (Prim2SF neg_infinity) with (S754_infinity true).
  by destruct (Prim2SF a) as [[]|[]| |[] m e].
Qed.

(** [math.Min] away from NaN: one of its arguments, and the lesser. *)
Lemma Min_bound x hi :
  notNaN x → notNaN hi →
  notNaN (Min x hi) ∧ (Min x hi <=? hi) = true ∧ (Min x hi <=? x) = true.
Proof.
  intros Hx Hhi. unfold Min.
  destruct ((is_infinity x && get_sign x) || (is_infinity hi && get_sign hi)) eqn:Einf.
  { split_and!; [done|by apply neg_infinity_leb..]. }
  rewrite Hx, Hhi. cbn [orb].
  destruct ((x =? 0) && (x =? hi)) eqn:Ez.
  { apply andb_true_iff in Ez as [_ Ez].
    assert ((hi =? x) = true) as Ez'.
    { revert Ez. rewrite !FloatAxioms.eqb_spec. unfold SFeqb.
      rewrite !SFcompare_rank.
      destruct (SFrank (Prim2SF x)) as [rx|], (SFrank (Prim2SF hi)) as [rh|];
        try done.
      unfold lex3.
      destruct (Z.compare_spec rx.1.1 rh.1.1), (Z.compare_spec rx.1.2 rh.1.2),
        (Z.compare_spec rx.2 rh.2); try done; intros _.
      replace rh with rx by (destruct rx as [[??]?], rh as [[??]?]; cbn in *; congruence).
      by rewrite !Z.compare_refl. }
    destruct (get_sign x); split_and!;
      first [done | by apply leb_refl | by apply eqb_leb]. }
  destruct (x <? hi) eqn:Elt.
  - split_and!; [done|by apply ltb_leb|by apply leb_refl].
  - split_and!; [done|by apply leb_refl|by apply not_ltb_leb].
Qed.

(** [math.Max] away from NaN: one of its arguments, and the greater. *)
Lemma Max_bound lo m hi :
  notNaN lo → notNaN m → (lo <=? hi) = true → (m <=? hi) = true →
  notNaN (Max lo m) ∧ (lo <=? Max lo m) = true ∧ (Max lo m <=? hi) = true.
Proof.
  intros Hlo Hm Hlh Hmh. unfold Max.
  destruct ((is_infinity lo && negb (get_sign lo))
            || (is_infinity m && negb (get_sign m))) eqn:Einf.
  { split_and!; [done|by apply leb_pos_infinity|].
    apply orb_true_iff in Einf as [E|E];
      apply andb_true_iff in E as [Ei Es]; apply negb_true_iff in Es;
      apply pos_infinity_SF in Ei; try done.
    - revert Hlh. rewrite !leb_spec, Ei. done.
    - revert Hmh. rewrite !leb_spec, Ei. done. }
  rewrite Hlo, Hm. cbn [orb].
  destruct ((lo =? 0) && (lo =? m)) eqn:Ez.
  { apply andb_true_iff in Ez as [_ Ez].
    destruct (get_sign lo); split_and!;
      first [done | by apply leb_refl | by apply eqb_leb]. }
  destruct (m <? lo) eqn:Elt.
  - split_and!; [done|by apply leb_refl|done].
  - split_and!; [done|by apply not_ltb_leb|done].
Qed.

End Clamp.

(** ** The ball pit *)

Section KineticFacts.
Import KineticGame.
Context `{Rand}.
Implicit Types (b : Ball) (bs : list Ball) (w : World).

(** What no step of the game changes of a ball. *)
Definition kn_body b : float * float := (b.(Radius), b.(Mass)).

Lemma kn_integrate_body b : kn_body (integrate b) = kn_body b.
Proof. reflexivity. Qed.

Lemma kn_bounceWall_body b wl : kn_body (bounceWall b wl) = kn_body b.
Proof.
  unfold bounceWall.
  destruct (hitsTop b wl); [done|]. destruct (hitsBottom b wl); [done|].
  destruct (hitsLeft b wl); [done|]. by destruct (hitsRight b wl).
Qed.

Lemma kn_bounceWalls_body ws b : kn_body (bounceWalls ws b) = kn_body b.
Proof.
  unfold bounceWalls. revert b. induction ws as [|wl ws IH]; intros b; [done|].
  cbn [foldl]. by rewrite IH, kn_bounceWall_body.
Qed.

Lemma kn_bounceBalls_body b1 b2 :
  kn_body (bounceBalls b1 b2).1 = kn_body b1
  ∧ kn_body (bounceBalls b1 b2).2 = kn_body b2.
Proof.
  unfold bounceBalls. destruct (_ =? 0)%float; [done|].
  by destruct (0 <? _)%float.
Qed.

(** A pass over the pairs keeps the number of balls and what holds of
    their bodies. *)
Lemma kn_collideInner_spec (Q : float * float → Prop) n i j bs :
  Forall (λ b, Q (kn_body b)) bs →
  length (collideInner n i j bs) = length bs
  ∧ Forall (λ b, Q (kn_body b)) (collideInner n i j bs).
Proof.
  revert j bs. induction n as [|n IH]; intros j bs Hall; [done|].
  cbn [collideInner].
  set (bs' := match bs !! i with Some _ => _ | None => _ end).
  assert (length bs' = length bs ∧ Forall (λ b, Q (kn_body b)) bs') as [Hlen Hall'].
  { unfold bs'. destruct (bs !! i) as [b1|] eqn:E1; [|done].
    destruct (bs !! j) as [b2|] eqn:E2; [|done].
    destruct (circlesCollided b1 b2); [|done].
    pose proof (kn_bounceBalls_body b1 b2) as [Hb1 Hb2].
    destruct (bounceBalls b1 b2) as [b1' b2']. cbn [fst snd] in *.
    rewrite !length_insert. split; [done|].
    rewrite Forall_forall in Hall.
    apply Forall_insert; [apply Forall_insert; [by apply Forall_forall|]|].
    - rewrite Hb1. eapply Hall, list_elem_of_lookup_2. exact E1.
    - rewrite Hb2. eapply Hall, list_elem_of_lookup_2. exact E2. }
  destruct (IH (S j) bs' Hall') as [Hlen2 Hall2]. split; [congruence|done].
Qed.

Lemma kn_collideOuter_spec (Q : float * float → Prop) n i bs :
  Forall (λ b, Q (kn_body b)) bs →
  length (collideOuter n i bs) = length bs
  ∧ Forall (λ b, Q (kn_body b)) (collideOuter n i bs).
Proof.
  revert i bs. induction n as [|n IH]; intros i bs Hall; [done|].
  cbn [collideOuter].
  destruct (kn_collideInner_spec Q (length bs - S i) i (S i) bs Hall) as [Hlen Hall'].
  destruct (IH (S i) _ Hall') as [Hlen2 Hall2]. split; [congruence|done].
Qed.

(** [handleInput]: where a new ball is put. *)
Lemma kn_clamp_spec z :
  let c := Max BallRadius (Min (float64_of_int z) (float64_of_int 800 - BallRadius)) in
  (10 <=? c)%float = true ∧ (c <=? 790)%float = true.
Proof.
  intros c. subst c.
  change (float64_of_int 800 - BallRadius)%float with 790%float.
  change BallRadius with 10%float.
  destruct (Min_bound (float64_of_int z) 790 (float64_of_int_notNaN z) eq_refl)
    as (Hn & Hhi & _).
  destruct (Max_bound 10 (Min (float64_of_int z) 790) 790 eq_refl Hn eq_refl Hhi)
    as (_ & Hlo & Hhi').
  done.
Qed.

End KineticFacts.

(** X15.  [handleInput] adds one ball when there is a click or a touch and
    none otherwise; a touch overrides the click.  Wherever the cursor or
    the finger is, the new ball is centred between 10 and 790 on both
    axes, inside the boundary walls; it has radius 10, mass 1, is white,
    and moves by a whole number of hundredths between -2.5 and 2.49 on each
    axis.  Without input no random number is drawn. *)
Theorem click_spawns_ball_inside_walls `{Rand}
    (click touch : option (Z * Z)) (bs : list KineticGame.Ball) (r : rng) :
  let bs' := (KineticGame.handleInput click touch bs r).1 in
  (click = None → touch = None →
   KineticGame.handleInput click touch bs r = (bs, r))
  ∧ (∀ pos, touch = Some pos ∨ (touch = None ∧ click = Some pos) →
       ∃ b vx vy,
         bs' = bs ++ [b]
         ∧ b.(KineticGame.Pos).(Kinetic.X)
           = Max 10 (Min (float64_of_int pos.1) 790)
         ∧ b.(KineticGame.Pos).(Kinetic.Y)
           = Max 10 (Min (float64_of_int pos.2) 790)
         ∧ (10 <=? b.(KineticGame.Pos).(Kinetic.X))%float = true
         ∧ (b.(KineticGame.Pos).(Kinetic.X) <=? 790)%float = true
         ∧ (10 <=? b.(KineticGame.Pos).(Kinetic.Y))%float = true
         ∧ (b.(KineticGame.Pos).(Kinetic.Y) <=? 790)%float = true
         ∧ -250 ≤ vx ≤ 249 ∧ -250 ≤ vy ≤ 249
         ∧ b.(KineticGame.Vel)
           = {| Kinetic.X := float64_of_int vx / 100.0;
                Kinetic.Y := float64_of_int vy / 100.0 |}
         ∧ b.(KineticGame.Radius) = 10%float ∧ b.(KineticGame.Mass) = 1%float
         ∧ b.(KineticGame.Color) = color.mkRGBA 255 255 255 255).
Proof.
  intros bs'. subst bs'. split.
  { intros -> ->. reflexivity. }
  intros [px py] Hpos. unfold KineticGame.handleInput.
  assert (match touch with
          | Some (tx, ty) => Some (float64_of_int tx, float64_of_int ty)
          | None => match click with
                    | Some (mx, my) => Some (float64_of_int mx, float64_of_int my)
                    | None => None
                    end
          end = Some (float64_of_int px, float64_of_int py)) as ->.
  { destruct Hpos as [->|[-> ->]]; done. }
  unfold gbind, gret.
  destruct (Intn 500 r) as [vx r1] eqn:Ex. destruct (Intn 500 r1) as [vy r2] eqn:Ey.
  apply Intn_fst in Ex; [|lia]. apply Intn_fst in Ey; [|lia].
  cbn [fst].
  destruct (kn_clamp_spec px) as [Hx1 Hx2]. destruct (kn_clamp_spec py) as [Hy1 Hy2].
  eexists _, (vx - 250), (vy - 250). split; [reflexivity|].
  cbn [KineticGame.Pos KineticGame.Vel KineticGame.Radius KineticGame.Mass
       KineticGame.Color Kinetic.X Kinetic.Y fst snd].
  unfold int_sub. rewrite !int_wrap_small by lia.
  split_and!; done || lia.
Qed.

Section KineticInit.
Import KineticGame.
Context `{Rand}.

(** A ball as [initGame] makes it: in the upper quarter, between the side
    walls, at a whole speed under 5 on each axis. *)
Definition kn_started (b : Ball) : Prop :=
  ∃ px py vx vy,
    20 ≤ px ≤ 779 ∧ 20 ≤ py ≤ 219 ∧ -5 ≤ vx ≤ 4 ∧ -5 ≤ vy ≤ 4
    ∧ b = {| Pos := {| Kinetic.X := float64_of_int px;
                       Kinetic.Y := float64_of_int py |};
             Vel := {| Kinetic.X := float64_of_int vx;
                       Kinetic.Y := float64_of_int vy |};
             Radius := 10; Mass := 1;
             Color := color.mkRGBA 255 255 255 255 |}.

Lemma kn_initBalls_spec n bs r :
  ∃ new, (initBalls n bs r).1 = bs ++ new ∧ length new = n ∧ Forall kn_started new.
Proof.
  revert bs r. induction n as [|n IH]; intros bs r.
  { exists []. by rewrite app_nil_r. }
  cbn [initBalls]. unfold gbind.
  destruct (Intn (screenW - 40) r) as [px r1] eqn:E1.
  destruct (Intn (screenH / 4) r1) as [py r2] eqn:E2.
  destruct (Intn 10 r2) as [vx r3] eqn:E3.
  destruct (Intn 10 r3) as [vy r4] eqn:E4.
  apply Intn_fst in E1; [|done]. apply Intn_fst in E2; [|done].
  apply Intn_fst in E3; [|done]. apply Intn_fst in E4; [|done].
  change (screenW - 40) with 760 in E1. change (screenH / 4) with 200 in E2.
  match goal with |- context [initBalls n (bs ++ [?b]) r4] =>
    destruct (IH (bs ++ [b]) r4) as (new & -> & Hlen & Hall); exists (b :: new)
  end.
  split_and!; [by rewrite <- app_assoc|simpl; lia|].
  constructor; [|done].
  exists (px + 20), (py + 20), (vx - 5), (vy - 5).
  unfold int_add, int_sub. rewrite !int_wrap_small by lia.
  split_and!; done || lia.
Qed.

Lemma kn_Update_spec click touch w r :
  let w' := (Update click touch w r).1 in
  w'.(walls) = w.(walls)
  ∧ length w'.(balls) = length (handleInput click touch w.(balls) r).1
  ∧ ∀ Q : float * float → Prop,
      Forall (λ b, Q (kn_body b)) (handleInput click touch w.(balls) r).1 →
      Forall (λ b, Q (kn_body b)) w'.(balls).
Proof.
  intros w'. subst w'. unfold Update, gbind, gret.
  destruct (handleInput click touch w.(balls) r) as [bs0 r1]. cbn [fst balls walls].
  split; [done|]. unfold collideAll.
  assert (∀ Q : float * float → Prop, Forall (λ b, Q (kn_body b)) bs0 →
            Forall (λ b, Q (kn_body b)) (bounceWalls w.(walls) <$> (integrate <$> bs0)))
    as Hmap.
  { intros Q Hall. rewrite <- list_fmap_compose. apply Forall_fmap.
    eapply Forall_impl; [exact Hall|]. intros b Hb. cbn.
    by rewrite kn_bounceWalls_body, kn_integrate_body. }
  split.
  - destruct (kn_collideOuter_spec (λ _, True)
                (length (bounceWalls w.(walls) <$> (integrate <$> bs0))) 0
                (bounceWalls w.(walls) <$> (integrate <$> bs0))) as [Hlen _].
    { by apply Forall_true. }
    by rewrite Hlen, !length_fmap.
  - intros Q Hall. by apply kn_collideOuter_spec, Hmap.
Qed.

Lemma kn_handleInput_spec click touch bs r :
  let n := match click, touch with None, None => 0%nat | _, _ => 1%nat end in
  ∃ new, (handleInput click touch bs r).1 = bs ++ new ∧ length new = n
         ∧ Forall (λ b, kn_body b = (10%float, 1%float)) new.
Proof.
  intros n. subst n. unfold handleInput.
  destruct touch as [[tx ty]|]; [|destruct click as [[mx my]|]].
  3:{ exists []. by rewrite app_nil_r. }
  all: unfold gbind, gret; destruct (Intn 500 r) as [vx r1];
    destruct (Intn 500 r1) as [vy r2]; cbn [fst];
    eexists [_]; split_and!; [done| |by repeat constructor].
  - by destruct click.
  - done.
Qed.

Definition kn_inv (w : World) : Prop :=
  w.(walls) = initWalls ∧ (20 ≤ length w.(balls))%nat
  ∧ Forall (λ b, kn_body b = (10%float, 1%float)) w.(balls).

Lemma kn_reachable_inv w : Reachable w → kn_inv w.
Proof.
  induction 1 as [r w Hinit|w click touch r _ (IHw & IHn & IHb)].
  - unfold initGame in Hinit. cbn in Hinit. unfold gbind, gret in Hinit.
    destruct (kn_initBalls_spec (Z.to_nat 20) [] r) as (new & Hnew & Hlen & Hall).
    destruct (initBalls (Z.to_nat 20) [] r) as [bs r1]. cbn [fst] in *. simplify_eq.
    split_and!; [done|cbn [balls app]; lia|].
    cbn [balls]. eapply Forall_impl; [exact Hall|].
    intros b (px & py & vx & vy & _ & _ & _ & _ & ->). done.
  - destruct (kn_Update_spec click touch w r) as (Hw & Hlen & Hall).
    destruct (kn_handleInput_spec click touch w.(balls) r) as (new & Hnew & Hn & Hb).
    split_and!.
    + congruence.
    + rewrite Hlen, Hnew, length_app. lia.
    + apply (Hall (λ x, x = (10%float, 1%float))). rewrite Hnew.
      by apply Forall_app.
Qed.

End KineticInit.

(** X17.  [initGame n] panics on a negative [n], the capacity it asks
    [make] for; otherwise it makes [n] balls and the six walls.  Every ball
    starts at whole coordinates between 20 and 779 across and between 20
    and 219 down, with a whole speed from -5 to 4 on each axis, radius 10,
    mass 1, in white. *)
Theorem init_game_makes_n_balls `{Rand} (n : Z) (r : rng) :
  (n < 0 → (KineticGame.initGame n r).1 = None)
  ∧ (0 ≤ n →
     ∃ w, (KineticGame.initGame n r).1 = Some w
          ∧ Z.of_nat (length w.(KineticGame.balls)) = n
          ∧ w.(KineticGame.walls) = KineticGame.initWalls
          ∧ length w.(KineticGame.walls) = 6%nat
          ∧ Forall (λ b, ∃ px py vx vy,
                      20 ≤ px ≤ 779 ∧ 20 ≤ py ≤ 219 ∧ -5 ≤ vx ≤ 4 ∧ -5 ≤ vy ≤ 4
                      ∧ b = {| KineticGame.Pos :=
                                 {| Kinetic.X := float64_of_int px;
                                    Kinetic.Y := float64_of_int py |};
                               KineticGame.Vel :=
                                 {| Kinetic.X := float64_of_int vx;
                                    Kinetic.Y := float64_of_int vy |};
                               KineticGame.Radius := 10; KineticGame.Mass := 1;
                               KineticGame.Color := color.mkRGBA 255 255 255 255 |})
                   w.(KineticGame.balls)).
Proof.
  unfold KineticGame.initGame. split; intros Hn.
  - destruct (Z.ltb_spec n 0); [done|lia].
  - destruct (Z.ltb_spec n 0); [lia|]. unfold gbind, gret.
    destruct (kn_initBalls_spec (Z.to_nat n) [] r) as (new & Hnew & Hlen & Hall).
    destruct (KineticGame.initBalls (Z.to_nat n) [] r) as [bs r1].
    cbn [fst] in *. simplify_eq. eexists. split; [reflexivity|].
    cbn [KineticGame.balls KineticGame.walls app]. split_and!; [lia|done|done|done].
Qed.

(** X18.  In every state the ball pit reaches the walls are the six of
    [initGame], there are at least the twenty balls it started with, and
    every ball has radius 10 and mass 1, so that no division by a mass is
    a division by zero.  [Update] never removes a ball and never touches
    the walls: it adds one ball when there is a click or a touch, none
    otherwise. *)
Theorem ball_pit_keeps_its_balls `{Rand} (w : KineticGame.World) :
  KineticGame.Reachable w →
  w.(KineticGame.walls) = KineticGame.initWalls
  ∧ (20 ≤ length w.(KineticGame.balls))%nat
  ∧ (∀ b, b ∈ w.(KineticGame.balls) →
          b.(KineticGame.Radius) = 10%float ∧ b.(KineticGame.Mass) = 1%float)
  ∧ (∀ click touch r,
       let w' := (KineticGame.Update click touch w r).1 in
       w'.(KineticGame.walls) = w.(KineticGame.walls)
       ∧ length w'.(KineticGame.balls)
         = (length w.(KineticGame.balls)
            + match click, touch with None, None => 0 | _, _ => 1 end)%nat).
Proof.
  intros Hr. destruct (kn_reachable_inv w Hr) as (Hw & Hn & Hb).
  split_and!; [done|done| |].
  - rewrite Forall_forall in Hb. intros b Hin. specialize (Hb b Hin).
    unfold kn_body in Hb. by simplify_eq.
  - intros click touch r w'. subst w'.
    destruct (kn_Update_spec click touch w r) as (Hw' & Hlen & _).
    destruct (kn_handleInput_spec click touch w.(KineticGame.balls) r)
      as (new & Hnew & Hlen' & _).
    split; [done|]. rewrite Hlen, Hnew, length_app, Hlen'.
    by destruct click, touch.
Qed.

(** The ball pit as [main] starts it, under the sample source. *)
Definition startedPit : KineticGame.World :=
  default (KineticGame.mkWorld [] [])
          (@KineticGame.initGame Sample.rand 20 (42 : Z)).1.

Lemma startedPit_reachable : @KineticGame.Reachable Sample.rand startedPit.
Proof. by apply (@KineticGame.reach_init Sample.rand (42 : Z)). Qed.

Lemma ball_pit_keeps_its_balls_witness :
  length startedPit.(KineticGame.balls) = 20%nat
  ∧ length (@KineticGame.Update Sample.rand (Some (5, 900)) None startedPit
              (7 : Z)).1.(KineticGame.balls) = 21%nat.
Proof.
  assert (length startedPit.(KineticGame.balls) = 20%nat) as Hlen
    by (vm_compute; reflexivity).
  split; [exact Hlen|].
  destruct (@ball_pit_keeps_its_balls Sample.rand startedPit startedPit_reachable)
    as (_ & _ & _ & Hup).
  rewrite (proj2 (Hup (Some (5, 900)) None (7 : Z))), Hlen. reflexivity.
Defined.
